(** * Top-traders bubble map: the graph pipeline and the query guard

    A shallow embedding of [src/graph.py] ([plot_trader_bubblemap]) and of the
    chain guard of [src/queries.py] ([get_evm_traders_and_connections]).

    Conventions of the embedding.
    - A Python [float] is a binary64 number, held as the rational it denotes;
      the infinities and not-a-number are separate values ([pyfloat]) and the
      two zeros are one value. Float arithmetic is the exact operation
      followed by [round64], rounding to the nearest binary64 number, ties to
      even, with overflow to infinity and gradual underflow. It is what the
      size scale (line 89) and [float] of a text (line 69) compute in.
    - The sums of the column [total_usd_traded] (lines 49-51) are exact
      rationals: the order-dependent rounding of the pandas summation is not
      modelled. The least, the greatest and the median volume and the colour
      test are taken on these exact sums. A volume enters the arithmetic of
      the size scale as the binary64 number nearest to it, which is the
      volume itself whenever the exact sum is a binary64 number.
    - A Python [str] is a [string] of ASCII characters.
    - A [dict] whose iteration order is observed (networkx adjacency) is an
      insertion-ordered association list; a [dict] that is only looked up
      ([total_volume]) is a [gmap].
    - A raised exception is the [Raise] branch of [result].
    - The file system is an input of the call ([file_system]): what
      [os.makedirs] and [open] answer. *)

From Stdlib Require Import QArith Qpower Qround Lqa Lia List Bool Ascii String Sorted Permutation.
From stdpp Require Import gmap strings list fin_maps.
Import ListNotations.

Local Open Scope string_scope.
Local Open Scope list_scope.

(** ** Exceptions *)

Inductive exn : Type :=
| TypeError
| ValueError (msg : string)
| ZeroDivisionError
| AssertionError (msg : string)
| OSError (name : string).   (* FileNotFoundError, PermissionError, ... *)

Inductive result (A : Type) : Type :=
| Ok (a : A)
| Raise (e : exn).
Arguments Ok {A} a.
Arguments Raise {A} e.

Definition rbind {A B : Type} (m : result A) (k : A -> result B) : result B :=
  match m with
  | Ok a => k a
  | Raise e => Raise e
  end.

#[global] Instance result_bind : MBind result := fun A B k m => rbind m k.
#[global] Instance result_ret : MRet result := @Ok.

(** A comprehension or a loop whose body may raise: the first exception
    ends it. *)
Fixpoint traverse {A B : Type} (f : A -> result B) (l : list A) : result (list B) :=
  match l with
  | [] => Ok []
  | x :: l' =>
      y ← f x;
      ys ← traverse f l';
      Ok (y :: ys)
  end.

(** ** Python text operations *)

Module PyText.

Definition code (c : ascii) : N := N_of_ascii c.

Definition is_upper (c : ascii) : bool := (65 <=? code c)%N && (code c <=? 90)%N.

Definition lower_char (c : ascii) : ascii :=
  if is_upper c then ascii_of_N (code c + 32) else c.

(** [str.lower] *)
Fixpoint lower (s : string) : string :=
  match s with
  | EmptyString => EmptyString
  | String c s' => String (lower_char c) (lower s')
  end.

(** [s.replace(',', '')] *)
Fixpoint remove_commas (s : string) : string :=
  match s with
  | EmptyString => EmptyString
  | String c s' =>
      if Ascii.eqb c "," then remove_commas s' else String c (remove_commas s')
  end.

(** The characters [float] strips from both ends: tab, line feed, vertical
    tab, form feed, carriage return and space. *)
Definition is_space (c : ascii) : bool :=
  ((9 <=? code c)%N && (code c <=? 13)%N) || (code c =? 32)%N.

Fixpoint lstrip (s : string) : string :=
  match s with
  | EmptyString => EmptyString
  | String c s' => if is_space c then lstrip s' else s
  end.

(** Dropping trailing white space: a character is kept when it is not white
    space or when something is kept after it. *)
Fixpoint rstrip (s : string) : string :=
  match s with
  | EmptyString => EmptyString
  | String c s' =>
      match rstrip s' with
      | EmptyString => if is_space c then EmptyString else String c EmptyString
      | r => String c r
      end
  end.

Definition strip (s : string) : string := rstrip (lstrip s).

Definition is_digit (c : ascii) : bool := (48 <=? code c)%N && (code c <=? 57)%N.

Definition digit_value (c : ascii) : Z := Z.of_N (code c) - 48.

(** [s\[:n\]] *)
Fixpoint prefix (n : nat) (s : string) : string :=
  match n, s with
  | S n', String c s' => String c (prefix n' s')
  | _, _ => EmptyString
  end.

(** [s\[-n:\]] for [n > 0]: the last [n] characters, the whole text when it is
    shorter. *)
Definition suffix (n : nat) (s : string) : string :=
  String.substring (String.length s - n) n s.

(** [s.split(c)] *)
Fixpoint split_on (c : ascii) (s : string) : list string :=
  match s with
  | EmptyString => [EmptyString]
  | String a s' =>
      if Ascii.eqb a c then EmptyString :: split_on c s'
      else
        match split_on c s' with
        | p :: ps => String a p :: ps
        | [] => [String a EmptyString]
        end
  end.

End PyText.

(** ** Python floats *)

Inductive pyfloat : Type :=
| PFin (q : Q)
| PInf (negative : bool)
| PNaN.

(** ** Binary64 arithmetic

    A finite binary64 number is [m * 2 ^ e] with [|m| < 2 ^ 53] and
    [-1074 <= e <= 971]. *)

Module Binary64.
Local Open Scope Q_scope.

Definition pow2 (e : Z) : Q := 2 ^ e.

(** The binary logarithm of a positive number, rounded down. *)
Definition ilog2 (q : Q) : Z :=
  let k := (Z.log2 (Qnum q) - Z.log2 (Zpos (Qden q)))%Z in
  if Qle_bool (pow2 k) q then k else (k - 1)%Z.

(** The nearest integer, the even one of two that are equally near. *)
Definition rne (x : Q) : Z :=
  let f := Qfloor x in
  match Qcompare (x - inject_Z f) (1 # 2) with
  | Lt => f
  | Gt => (f + 1)%Z
  | Eq => if Z.even f then f else (f + 1)%Z
  end.

(** The exponent of the unit in the last place of a positive number: 52
    binary places below its leading one, and never below the least
    exponent. *)
Definition ulp_exponent (q : Q) : Z := Z.max (ilog2 q - 52) (-1074).

Definition round_pos (q : Q) : Q :=
  let u := ulp_exponent q in
  Qred (inject_Z (rne (q / pow2 u)) * pow2 u).

(** Rounding with no bound on the exponent from above. *)
Definition round_fin (q : Q) : Q :=
  let q := Qred q in
  match Qcompare q 0 with
  | Eq => 0
  | Gt => round_pos q
  | Lt => - round_pos (- q)
  end.

(** What rounds to [2 ^ 1024] or beyond overflows. *)
Definition overflow : Q := pow2 1024.

Definition round64 (q : Q) : pyfloat :=
  let r := round_fin q in
  if Qle_bool overflow r then PInf false
  else if Qle_bool r (- overflow) then PInf true
  else PFin r.

(** Comparisons: false as soon as one side is not a number. *)
Definition float_le (x y : pyfloat) : bool :=
  match x, y with
  | PNaN, _ | _, PNaN => false
  | PFin a, PFin b => Qle_bool a b
  | PInf true, _ => true
  | _, PInf false => true
  | _, _ => false
  end.

Definition float_lt (x y : pyfloat) : bool :=
  match x, y with
  | PNaN, _ | _, PNaN => false
  | PFin a, PFin b => negb (Qle_bool b a)
  | PInf s, PInf s' => s && negb s'
  | PInf s, PFin _ => s
  | PFin _, PInf s => negb s
  end.

Definition float_eq (x y : pyfloat) : bool :=
  match x, y with
  | PFin a, PFin b => Qeq_bool a b
  | PInf s, PInf s' => Bool.eqb s s'
  | _, _ => false
  end.

Definition is_finite (x : pyfloat) : bool :=
  match x with
  | PFin _ => true
  | _ => false
  end.

Definition is_zero (x : pyfloat) : bool :=
  match x with
  | PFin q => Qeq_bool q 0
  | _ => false
  end.

Definition is_negative (x : pyfloat) : bool :=
  match x with
  | PFin q => negb (Qle_bool 0 q)
  | PInf s => s
  | PNaN => false
  end.

Definition fneg (x : pyfloat) : pyfloat :=
  match x with
  | PFin a => PFin (- a)
  | PInf s => PInf (negb s)
  | PNaN => PNaN
  end.

Definition fadd (x y : pyfloat) : pyfloat :=
  match x, y with
  | PNaN, _ | _, PNaN => PNaN
  | PFin a, PFin b => round64 (a + b)
  | PInf s, PInf s' => if Bool.eqb s s' then PInf s else PNaN
  | PInf s, PFin _ | PFin _, PInf s => PInf s
  end.

Definition fsub (x y : pyfloat) : pyfloat := fadd x (fneg y).

Definition fmul (x y : pyfloat) : pyfloat :=
  match x, y with
  | PNaN, _ | _, PNaN => PNaN
  | PFin a, PFin b => round64 (a * b)
  | PInf s, o | o, PInf s =>
      if is_zero o then PNaN else PInf (xorb s (is_negative o))
  end.

(** The quotient by a divisor that is not zero. *)
Definition fdiv (x y : pyfloat) : pyfloat :=
  match x, y with
  | PNaN, _ | _, PNaN => PNaN
  | PFin a, PFin b => round64 (a / b)
  | PInf _, PInf _ => PNaN
  | PInf s, PFin b => PInf (xorb s (negb (Qle_bool 0 b)))
  | PFin _, PInf _ => PFin 0
  end.

(** [x <= y], unless one of the two is not a number. *)
Definition le_or_nan (x y : pyfloat) : Prop :=
  x = PNaN \/ y = PNaN \/ float_le x y = true.

(** The multiples of the least positive binary64 number. *)
Definition on_grid (q : Q) : Prop := exists k : Z, q == inject_Z k * pow2 (-1074).

(** [x / y] of Python: a zero divisor raises. *)
Definition py_truediv (x y : pyfloat) : result pyfloat :=
  if is_zero y then Raise ZeroDivisionError else Ok (fdiv x y).

End Binary64.

(** ** [float(text)] on ASCII text

    The grammar of the built-in: optional sign, then [inf], [infinity] or
    [nan] in any letter case, or a decimal number with an optional fraction and
    an optional exponent; single underscores may separate digits; white space
    around the text is ignored. The number read is the binary64 number
    nearest to the decimal, infinity when it is too large. [None] stands for
    the [ValueError]. *)

Module PyFloat.
Import PyText Binary64.

(** A digit part: digits, each optionally preceded by one underscore except
    the first. Returns the digits read and the text left. *)
Fixpoint scan_digits (after_digit : bool) (s : string) : list Z * string :=
  match s with
  | EmptyString => ([], s)
  | String c s' =>
      if is_digit c then
        let '(ds, r) := scan_digits true s' in (digit_value c :: ds, r)
      else if after_digit && Ascii.eqb c "_" then
        match s' with
        | String c' _ =>
            if is_digit c' then scan_digits false s' else ([], s)
        | EmptyString => ([], s)
        end
      else ([], s)
  end.

Definition digits_value (ds : list Z) : Z :=
  fold_left (fun acc d => 10 * acc + d)%Z ds 0%Z.

Definition scan_sign (s : string) : bool * string :=
  match s with
  | String "-" s' => (true, s')
  | String "+" s' => (false, s')
  | _ => (false, s)
  end.

(** The exponent: nothing, or [e]/[E], an optional sign and a digit part that
    reaches the end of the text. *)
Definition scan_exponent (s : string) : option Z :=
  match s with
  | EmptyString => Some 0%Z
  | String c s' =>
      if Ascii.eqb c "e" || Ascii.eqb c "E" then
        let '(neg, s1) := scan_sign s' in
        match scan_digits false s1 with
        | (d :: ds, EmptyString) =>
            let e := digits_value (d :: ds) in
            Some (if neg then - e else e)%Z
        | _ => None
        end
      else None
  end.

(** [m * 10 ^ e] as a reduced fraction. *)
Definition scale10 (m e : Z) : Q :=
  if (0 <=? e)%Z then inject_Z (m * 10 ^ e)
  else Qred (Qmake m (Z.to_pos (10 ^ (- e)))).

Definition parse_number (s : string) : option Q :=
  let '(ip, r1) := scan_digits false s in
  let '(fp, r2) :=
    match r1 with
    | String "." r => scan_digits false r
    | _ => ([], r1)
    end in
  match ip ++ fp with
  | [] => None
  | ds =>
      match scan_exponent r2 with
      | Some e => Some (scale10 (digits_value ds) (e - Z.of_nat (length fp)))
      | None => None
      end
  end.

Definition py_float (text : string) : option pyfloat :=
  let '(neg, body) := scan_sign (strip text) in
  let word := lower body in
  if String.eqb word "inf" || String.eqb word "infinity" then Some (PInf neg)
  else if String.eqb word "nan" then Some PNaN
  else
    match parse_number body with
    | Some q => Some (round64 (if neg then Qopp q else q))
    | None => None
    end.

End PyFloat.

(** ** [src/queries.py]: the EVM query builder *)

Module Queries.
Import PyText.

Definition valid_chains : list string :=
  ["ethereum"; "base"; "arbitrum"; "optimism"; "avalanche"; "bsc"; "polygon"].

(** The text of the f-string [evm_query]; every argument other than [chain]
    stands for the text its formatting yields. *)
Definition evm_query
    (chain contract_address start_date end_date
     min_usd_amount max_usd_amount min_active_days limit : string) : string :=
    "
    WITH swap_transactions AS (
        SELECT
            block_timestamp,
            tx_hash,
            sender as trader,
            COALESCE(amount_in_usd, 0) + COALESCE(amount_out_usd, 0) as amount_usd,
            CASE
                WHEN token_in = LOWER(TRIM('" ++
    contract_address ++
    "')) THEN amount_in
                WHEN token_out = LOWER(TRIM('" ++
    contract_address ++
    "')) THEN amount_out
            END as token_amount
        FROM " ++
    chain ++
    ".defi.ez_dex_swaps
        WHERE (token_in = LOWER(TRIM('" ++
    contract_address ++
    "')) OR token_out = LOWER(TRIM('" ++
    contract_address ++
    "')))
            AND block_timestamp >= '" ++
    start_date ++
    "'
            AND block_timestamp < DATEADD(day, 1, '" ++
    end_date ++
    "')::date
            AND COALESCE(amount_in_usd, 0) + COALESCE(amount_out_usd, 0) >= " ++
    min_usd_amount ++
    "
            AND COALESCE(amount_in_usd, 0) + COALESCE(amount_out_usd, 0) <= " ++
    max_usd_amount ++
    "
    ),

    filtered_traders AS (
        SELECT DISTINCT
            trader as address
        FROM swap_transactions
        WHERE trader NOT IN (
            SELECT address
            FROM " ++
    chain ++
    ".core.dim_labels
            WHERE label_type IN (
                'cex', 'dex', 'defi', 'bridge', 'contract', 'treasury', 'infrastructure'
            )
            OR label_subtype IN (
                'pool', 'router', 'exchange', 'mev_bot', 'flash_loan', 'vault',
                'wrapper', 'burn_address', 'null_address'
            )
            OR LOWER(address_name) LIKE ANY (
                '%pool%', '%bot%', '%mev%', '%vault%', '%treasury%',
                '%wrapper%', '%flash%loan%', '%token%account%', '%amm%'
            )
            LIMIT 1000
        )
    ),

    trading_patterns AS (
        SELECT
            trader as address,
            COUNT(DISTINCT DATE_TRUNC('day', block_timestamp)) as active_days,
            COUNT(DISTINCT tx_hash) as total_trades,
            COUNT(DISTINCT tx_hash)::FLOAT / COUNT(DISTINCT DATE_TRUNC('day', block_timestamp)) as avg_daily_trades,
            SUM(amount_usd) as total_volume
        FROM swap_transactions
        WHERE trader IN (SELECT address FROM filtered_traders)
        GROUP BY trader
        HAVING
            COUNT(DISTINCT DATE_TRUNC('day', block_timestamp)) >= " ++
    min_active_days ++
    "
            AND COUNT(DISTINCT tx_hash) >= 5
    ),

    top_traders AS (
        SELECT
            s.trader as address,
            COUNT(DISTINCT s.tx_hash) as trade_count,
            SUM(ABS(s.token_amount)) as total_tokens_traded,
            SUM(s.amount_usd) as total_usd_traded,
            tp.active_days,
            tp.avg_daily_trades
        FROM swap_transactions s
        JOIN trading_patterns tp ON s.trader = tp.address
        WHERE s.trader IN (SELECT address FROM filtered_traders)
        GROUP BY s.trader, tp.active_days, tp.avg_daily_trades
        HAVING total_usd_traded > 0
        QUALIFY ROW_NUMBER() OVER (ORDER BY total_usd_traded DESC) <= " ++
    limit ++
    "
    ),

    connections AS (
        SELECT
            s1.trader as source,
            s2.trader as target,
            COUNT(DISTINCT s1.tx_hash) as transaction_count,
            SUM(ABS(s1.token_amount)) as total_tokens,
            SUM(s1.amount_usd) as total_value
        FROM swap_transactions s1
        JOIN swap_transactions s2
            ON s1.tx_hash = s2.tx_hash
            AND s1.trader < s2.trader
        WHERE s1.trader IN (SELECT address FROM top_traders)
            AND s2.trader IN (SELECT address FROM top_traders)
        GROUP BY s1.trader, s2.trader
        HAVING total_value > 0
    )

    SELECT
        'node' as type,
        address,
        NULL as target_address,
        TO_NUMBER(trade_count) as trade_count,
        TO_NUMBER(total_tokens_traded) as total_tokens_traded,
        TO_NUMBER(total_usd_traded) as total_usd_traded,
        TO_NUMBER(active_days) as active_days,
        TO_NUMBER(ROUND(avg_daily_trades, 2)) as avg_daily_trades
    FROM top_traders

    UNION ALL

    SELECT
        'edge' as type,
        source as address,
        target as target_address,
        TO_NUMBER(transaction_count) as trade_count,
        TO_NUMBER(total_tokens) as total_tokens_traded,
        TO_NUMBER(total_value) as total_usd_traded,
        NULL as active_days,
        NULL as avg_daily_trades
    FROM connections
    ORDER BY type, total_usd_traded DESC;
    ".

Definition chain_error : string :=
  "Chain must be one of ['ethereum', 'base', 'arbitrum', 'optimism', 'avalanche', 'bsc', 'polygon']".

Definition get_evm_traders_and_connections
    (chain contract_address start_date end_date
     min_usd_amount max_usd_amount min_active_days limit : string) : result string :=
  let chain := lower chain in
  if negb (existsb (String.eqb chain) valid_chains) then
    Raise (ValueError chain_error)
  else
    Ok (evm_query chain contract_address start_date end_date
          min_usd_amount max_usd_amount min_active_days limit).

End Queries.

(** ** The graph library: an undirected graph as a dictionary of dictionaries

    [networkx.Graph] keeps [_adj], a dictionary from node to the dictionary of
    its neighbours; both remember insertion order, which [G.nodes()] and
    [G.edges()] expose. The only edge attribute the program sets is [weight],
    so the attribute dictionary of an edge is modelled by that weight. *)

Module Graph.

Section OrderedDict.
Context {V : Type}.

(** [k in d] and [d.get(k)] *)
Fixpoint od_get (k : string) (d : list (string * V)) : option V :=
  match d with
  | [] => None
  | (k', v) :: d' => if String.eqb k k' then Some v else od_get k d'
  end.

(** [d\[k\] = v]: an existing key keeps its place, a new key goes last. *)
Fixpoint od_set (k : string) (v : V) (d : list (string * V)) : list (string * V) :=
  match d with
  | [] => [(k, v)]
  | (k', v') :: d' =>
      if String.eqb k k' then (k', v) :: d' else (k', v') :: od_set k v d'
  end.

Definition od_keys (d : list (string * V)) : list string := List.map fst d.
End OrderedDict.

Definition neighbours : Type := list (string * pyfloat).
Definition graph : Type := list (string * neighbours).

Definition empty : graph := [].

(** [G.add_node(n)] *)
Definition add_node (n : string) (G : graph) : graph :=
  match od_get n G with
  | Some _ => G
  | None => od_set n [] G
  end.

(** [self._adj\[u\]\[v\] = datadict] *)
Definition set_adj (u v : string) (w : pyfloat) (G : graph) : graph :=
  match od_get u G with
  | Some nbrs => od_set u (od_set v w nbrs) G
  | None => G
  end.

(** [G.add_edge(u, v, weight=w)]: both ends become nodes, the attribute
    dictionary of the edge (a fresh one when the edge is new) takes the
    weight, and it is stored under both directions. *)
Definition add_edge (u v : string) (w : pyfloat) (G : graph) : graph :=
  set_adj v u w (set_adj u v w (add_node v (add_node u G))).

(** [G.nodes()] *)
Definition nodes (G : graph) : list string := od_keys G.

Definition seen_before (seen : list string) (nbr : string) : bool :=
  existsb (String.eqb nbr) seen.

(** What node [n] with neighbours [nbrs] reports in [G.edges(data=True)]:
    the neighbours that were not themselves visited before. *)
Definition reported (seen : list string) (n : string) (nbrs : neighbours)
    : list (string * string * pyfloat) :=
  List.map (fun e => (n, fst e, snd e))
    (List.filter (fun e => negb (seen_before seen (fst e))) nbrs).

(** [G.edges(data=True)]: the nodes report in turn. *)
Fixpoint edges_from (seen : list string) (G : graph) : list (string * string * pyfloat) :=
  match G with
  | [] => []
  | (n, nbrs) :: G' => reported seen n nbrs ++ edges_from (n :: seen) G'
  end.

Definition edges (G : graph) : list (string * string * pyfloat) := edges_from [] G.

(** The weight stored for [v] among the neighbours of [u]. *)
Definition adj_get (G : graph) (u v : string) : option pyfloat :=
  match od_get u G with
  | Some nbrs => od_get v nbrs
  | None => None
  end.

(** Invariants of the structure: no key twice, in the graph or among the
    neighbours of a node; every edge stored under both directions. *)
Definition distinct_keys (G : graph) : Prop :=
  NoDup (nodes G) /\ Forall (fun e => NoDup (od_keys (snd e))) G.

Definition symmetric (G : graph) : Prop :=
  forall u v, adj_get G u v = adj_get G v u.

(** The pair [(x, y)] is [(u, v)] in one direction or the other. *)
Definition same_ends (u v x y : string) : bool :=
  (String.eqb x u && String.eqb y v) || (String.eqb x v && String.eqb y u).

(** The edge lies between [a] and [b], in either direction. *)
Definition between (a b : string) (e : string * string * pyfloat) : bool :=
  same_ends a b (fst (fst e)) (snd (fst e)).

End Graph.

(** ** [src/graph.py] *)

Module Bubblemap.
Import PyText Binary64 PyFloat.

(** *** The data frame *)

(** A value of the column [total_usd_traded]. *)
Inductive cell : Type :=
| CNum (q : Q)        (* a number *)
| CNaN                (* the float not-a-number: missing for pandas *)
| CNone               (* the object None: missing for pandas *)
| CStr (s : string).  (* a text *)

(** The columns the function reads. *)
Record row : Type := {
  type : string;
  address : option string;
  target_address : option string;
  total_usd_traded : cell
}.

(** A row that [dropna] keeps: both addresses are present. *)
Record retained : Type := {
  r_type : string;
  r_address : string;
  r_target_address : string;
  r_total_usd_traded : cell
}.

Definition retain (r : row) : option retained :=
  match address r, target_address r with
  | Some a, Some t =>
      Some {| r_type := type r; r_address := a; r_target_address := t;
              r_total_usd_traded := total_usd_traded r |}
  | _, _ => None
  end.

(** [df.dropna(subset=\['address', 'target_address'\])] *)
Definition dropna (df : list row) : list retained := omap retain df.

(** *** Aggregator *)

(** What a cell adds to a pandas sum. Missing values are skipped. A text is
    not a number: pandas concatenates texts or refuses them, and the
    arithmetic that follows (adding the fill value 0, subtracting the least
    volume) raises [TypeError]; the exception is raised here, at the sum. *)
Definition cell_number (c : cell) : result Q :=
  match c with
  | CNum q => Ok q
  | CNaN | CNone => Ok 0%Q
  | CStr _ => Raise TypeError
  end.

(** [df.groupby(key)\['total_usd_traded'\].sum()], rows taken in order. *)
Fixpoint groupby_sum (key : retained -> string) (df : list retained)
    (acc : gmap string Q) : result (gmap string Q) :=
  match df with
  | [] => Ok acc
  | r :: df' =>
      x ← cell_number (r_total_usd_traded r);
      groupby_sum key df' (<[key r := (default 0 (acc !! key r) + x)%Q]> acc)
  end.

(** [a.add(b, fill_value=0)] *)
Definition series_add (a b : gmap string Q) : gmap string Q :=
  merge (fun x y =>
           match x, y with
           | None, None => None
           | _, _ => Some (default 0 x + default 0 y)%Q
           end) a b.

Definition total_volume (df : list retained) : result (gmap string Q) :=
  volume_from ← groupby_sum r_address df ∅;
  volume_to ← groupby_sum r_target_address df ∅;
  Ok (series_add volume_from volume_to).

(** [total_volume.get(node, 0)] *)
Definition volume_of (total_volume : gmap string Q) (node : string) : Q :=
  default 0%Q (total_volume !! node).

(** *** Graph builder *)

(** [df\[\['address', 'target_address'\]\].values.ravel()] *)
Definition ravel (df : list retained) : list string :=
  flat_map (fun r => [r_address r; r_target_address r]) df.

(** [pd.unique]: first occurrences, in order. *)
Fixpoint unique_from (seen : list string) (l : list string) : list string :=
  match l with
  | [] => []
  | x :: l' =>
      if existsb (String.eqb x) seen then unique_from seen l'
      else x :: unique_from (x :: seen) l'
  end.

Definition unique (l : list string) : list string := unique_from [] l.

(** The node list; the later filter on missing values keeps all of it, no
    address of a retained row being missing. *)
Definition node_list (df : list retained) : list string := unique (ravel df).

(** [float(str(x).replace(',', ''))]; [None] is the exception. The text of a
    number holds no comma and is read back as that number, a binary64
    number. *)
Definition float_of_cell (c : cell) : option pyfloat :=
  match c with
  | CNum q => Some (round64 q)
  | CNaN => py_float (remove_commas "nan")
  | CNone => py_float (remove_commas "None")
  | CStr s => py_float (remove_commas s)
  end.

(** The [try]/[except] around it. *)
Definition edge_weight (c : cell) : pyfloat :=
  match float_of_cell c with
  | Some w => w
  | None => PFin 1
  end.

Definition add_nodes (ns : list string) (G : Graph.graph) : Graph.graph :=
  fold_left (fun G n => Graph.add_node n G) ns G.

Fixpoint add_edges (df : list retained) (G : Graph.graph) : Graph.graph :=
  match df with
  | [] => G
  | r :: df' =>
      let from_addr := r_address r in
      let to_addr := r_target_address r in
      let weight := edge_weight (r_total_usd_traded r) in
      add_edges df' (Graph.add_edge from_addr to_addr weight G)
  end.

Definition build_graph (df : list retained) : Graph.graph :=
  add_edges df (add_nodes (node_list df) Graph.empty).

(** *** Visual encoder *)

Definition Qlt_bool (x y : Q) : bool := negb (Qle_bool y x).

(** [min] and [max] of a list with first element [x]: the first smallest
    (largest) value met. *)
Definition py_min (x : Q) (l : list Q) : Q :=
  fold_left (fun m y => if Qlt_bool y m then y else m) l x.

Definition py_max (x : Q) (l : list Q) : Q :=
  fold_left (fun m y => if Qlt_bool m y then y else m) l x.

Fixpoint insert_sorted (x : Q) (l : list Q) : list Q :=
  match l with
  | [] => [x]
  | y :: l' => if Qle_bool x y then x :: l else y :: insert_sorted x l'
  end.

Definition sort (l : list Q) : list Q := fold_right insert_sorted [] l.

(** [pd.Series(volumes).median()] of a list with no missing value: the
    middle of the sorted values, the mean of the two middle ones when their
    number is even. *)
Definition median (l : list Q) : Q :=
  let s := sort l in
  let n := length s in
  if Nat.even n then ((nth (n / 2 - 1) s 0 + nth (n / 2) s 0) / 2)%Q
  else nth (n / 2) s 0%Q.

Definition min_size : Q := 10.
Definition max_size : Q := 50.
Definition high_color : string := "#FF4500".
Definition low_color : string := "#1E90FF".

Definition volumes_of (total_volume : gmap string Q) (G : Graph.graph) : list Q :=
  List.map (volume_of total_volume) (Graph.nodes G).

(** The binary64 number a volume is held as: the nearest to the exact sum.
    Rounding keeps the order, so the least and the greatest of the exact
    sums are held as the least and the greatest binary64 volume. *)
Definition to_float (v : Q) : pyfloat := round64 v.

(** Line 83, on the binary64 volumes. *)
Definition volume_range_of (min_volume max_volume : Q) : pyfloat :=
  if negb (float_eq (to_float max_volume) (to_float min_volume))
  then fsub (to_float max_volume) (to_float min_volume)
  else PFin 1.

(** Line 89: a difference, a product, a quotient and a sum of binary64
    arithmetic, in that order. *)
Definition size_of (min_volume : Q) (volume_range : pyfloat) (volume : Q)
    : result pyfloat :=
  scaled ← py_truediv
             (fmul (PFin (max_size - min_size))
                (fsub (to_float volume) (to_float min_volume)))
             volume_range;
  Ok (fadd (PFin min_size) scaled).

Definition color_of (threshold volume : Q) : string :=
  if Qle_bool threshold volume then high_color else low_color.

(** The lists [sizes] and [colors], one entry per node of [G]. *)
Definition encode (total_volume : gmap string Q) (G : Graph.graph)
    : result (list pyfloat * list string) :=
  match volumes_of total_volume G with
  | v :: vs =>
      let volumes := v :: vs in
      let min_volume := py_min v vs in
      let max_volume := py_max v vs in
      let volume_range := volume_range_of min_volume max_volume in
      sizes ← traverse
                (fun node => size_of min_volume volume_range (volume_of total_volume node))
                (Graph.nodes G);
      let threshold := median volumes in
      let colors :=
        List.map (fun node => color_of threshold (volume_of total_volume node))
          (Graph.nodes G) in
      Ok (sizes, colors)
  | [] =>
      Ok (List.map (fun _ => PFin 10) (Graph.nodes G),
          List.map (fun _ => low_color) (Graph.nodes G))
  end.

(** *** The rendered network *)

(** A node of the pyvis network. [title_volume] is the number the hover text
    prints under the full address. *)
Record net_node : Type := {
  id : string;
  label : string;
  title_volume : Q;
  size : pyfloat;
  color : string
}.

Record net_edge : Type := {
  source : string;
  to : string;
  value : pyfloat
}.

Record network : Type := {
  net_nodes : list net_node;
  net_edges : list net_edge
}.

Definition empty_network : network := {| net_nodes := []; net_edges := [] |}.

(** [net.add_node]: an identifier already present is not added again. *)
Definition net_add_node (n : net_node) (net : network) : network :=
  if existsb (fun m => String.eqb (id m) (id n)) (net_nodes net) then net
  else {| net_nodes := net_nodes net ++ [n]; net_edges := net_edges net |}.

(** [net.add_edge] of an undirected network: an edge between the same two
    nodes, in either direction, is not added again. *)
Definition net_add_edge (e : net_edge) (net : network) : network :=
  if existsb (fun f =>
                (String.eqb (source e) (to f) && String.eqb (to e) (source f))
                || (String.eqb (source e) (source f) && String.eqb (to e) (to f)))
       (net_edges net)
  then net
  else {| net_nodes := net_nodes net; net_edges := net_edges net ++ [e] |}.

(** [node\[:6\] + "..." + node\[-4:\]] *)
Definition short_label (node : string) : string :=
  prefix 6 node ++ "..." ++ suffix 4 node.

Definition make_node (total_volume : gmap string Q) (entry : string * (pyfloat * string))
    : net_node :=
  let '(node, (size, color)) := entry in
  {| id := node; label := short_label node;
     title_volume := volume_of total_volume node;
     size := size; color := color |}.

Definition make_edge (edge : string * string * pyfloat) : net_edge :=
  let '(u, v, w) := edge in {| source := u; to := v; value := w |}.

Definition build_network (total_volume : gmap string Q) (G : Graph.graph)
    : result network :=
  encoded ← encode total_volume G;
  let '(sizes, colors) := encoded in
  let net :=
    fold_left (fun net entry => net_add_node (make_node total_volume entry) net)
      (combine (Graph.nodes G) (combine sizes colors)) empty_network in
  Ok (fold_left (fun net edge => net_add_edge (make_edge edge) net) (Graph.edges G) net).

(** *** Output path *)

(** [os.path.join(a, b)] with the POSIX separator. *)
Definition path_join (a b : string) : string :=
  if String.prefix "/" b then b
  else if String.eqb a "" || String.eqb (suffix 1 a) "/" then a ++ b
  else a ++ "/" ++ b.

(** Truth value of [base_dir]: [None] and the empty text are false. *)
Definition truthy (base_dir : option string) : bool :=
  match base_dir with
  | Some d => negb (String.eqb d "")
  | None => false
  end.

(** The directories to create and the output path: with a true [base_dir]
    the directory is made and joined to the file name, otherwise the file
    name stands alone. *)
Definition output_target (output_html : string) (base_dir : option string)
    : list string * string :=
  match base_dir with
  | Some d =>
      if truthy base_dir then ([d], path_join d output_html)
      else ([], output_html)
  | None => ([], output_html)
  end.

(** *** Writing the file *)

(** What the file system answers: the exception of
    [os.makedirs(d, exist_ok=True)], and that of [open(path, "w+")] at the
    time the network is written; [None] when the call succeeds. *)
Record file_system : Type := {
  makedirs_error : string -> option exn;
  open_error : string -> option exn
}.

Definition raise_if (e : option exn) : result unit :=
  match e with
  | Some x => Raise x
  | None => Ok tt
  end.

Definition makedirs (fs : file_system) (d : string) : result unit :=
  raise_if (makedirs_error fs d).

(** The check the network makes of a file name before it writes: two
    assertions on [name.split(".")]. *)
Definition check_html (name : string) : result unit :=
  let parts := split_on "." name in
  if negb (2 <=? length parts)%nat then
    Raise (AssertionError ("invalid file type for " ++ name))
  else if negb (String.eqb (List.last parts "") "html") then
    Raise (AssertionError (name ++ " is not a valid html file"))
  else Ok tt.

(** [net.show(name)]: the name is checked, then the file is opened and
    written. *)
Definition net_show (fs : file_system) (name : string) : result unit :=
  _ ← check_html name;
  raise_if (open_error fs name).

(** *** The whole call *)

(** What a completed call did and returned. *)
Record run : Type := {
  printed_nodes : nat;            (* len(nodes) in the printed message *)
  printed_edges : nat;            (* len(df) in the printed message *)
  made_dirs : list string;        (* os.makedirs(_, exist_ok=True) calls *)
  shown : network;                (* the network net.show wrote ... *)
  shown_at : string;              (* ... and the path it wrote it to *)
  returned : string
}.

Definition default_output_html : string := "bubblemap.html".

Definition plot_trader_bubblemap (fs : file_system) (df : list row)
    (output_html : string) (base_dir : option string) : result run :=
  let df := dropna df in
  total_volume ← total_volume df;
  let nodes := node_list df in
  let G := add_edges df (add_nodes nodes Graph.empty) in
  net ← build_network total_volume G;
  let '(dirs, output_path) := output_target output_html base_dir in
  _ ← traverse (makedirs fs) dirs;
  _ ← net_show fs output_path;
  Ok {| printed_nodes := length nodes; printed_edges := length df;
        made_dirs := dirs; shown := net; shown_at := output_path;
        returned := output_path |}.

(** *** Notions the statements use *)

Definition is_text (c : cell) : bool :=
  match c with
  | CStr _ => true
  | _ => false
  end.

(** Every value of the column is a number or missing. *)
Definition numeric (df : list retained) : bool :=
  forallb (fun r => negb (is_text (r_total_usd_traded r))) df.

(** The number a cell stands for in a sum that skips missing values. *)
Definition cell_value (c : cell) : Q :=
  match c with
  | CNum q => q
  | _ => 0%Q
  end.

(** Sum of [total_usd_traded] over the rows that satisfy [p]. *)
Definition sum_usd (p : retained -> bool) (df : list retained) : Q :=
  fold_right (fun r s => (cell_value (r_total_usd_traded r) + s)%Q) 0%Q (List.filter p df).

(** The row has [k] in the column [key]. *)
Definition keyed (key : retained -> string) (k : string) (r : retained) : bool :=
  String.eqb (key r) k.

Definition as_address (A : string) : retained -> bool := keyed r_address A.
Definition as_target (A : string) : retained -> bool := keyed r_target_address A.

(** The row joins [a] and [b], in either direction. *)
Definition joins (a b : string) (r : retained) : bool :=
  Graph.same_ends a b (r_address r) (r_target_address r).

(** The parsed weight of the last row, in input order, that joins [a] and
    [b]. *)
Definition overwrite (a b : string) (acc : option pyfloat) (r : retained) : option pyfloat :=
  if joins a b r then Some (edge_weight (r_total_usd_traded r)) else acc.

Definition last_weight (a b : string) (df : list retained) : option pyfloat :=
  fold_left (overwrite a b) df None.

(** [m] is the least (greatest) of the values of [l]. *)
Definition is_min (m : Q) (l : list Q) : Prop :=
  (exists x, In x l /\ (x == m)%Q) /\ forall x, In x l -> (m <= x)%Q.

Definition is_max (m : Q) (l : list Q) : Prop :=
  (exists x, In x l /\ (x == m)%Q) /\ forall x, In x l -> (x <= m)%Q.

(** The value of line 89 when its divisor is not zero. *)
Definition scale (min_volume : Q) (volume_range : pyfloat) (volume : Q) : pyfloat :=
  fadd (PFin min_size)
    (fdiv (fmul (PFin (max_size - min_size))
             (fsub (to_float volume) (to_float min_volume)))
       volume_range).

(** The size and the colour [encode] gives a node. *)
Definition node_size (total_volume : gmap string Q) (G : Graph.graph) (node : string)
    : pyfloat :=
  match volumes_of total_volume G with
  | v :: vs =>
      scale (py_min v vs) (volume_range_of (py_min v vs) (py_max v vs))
        (volume_of total_volume node)
  | [] => PFin 10
  end.

Definition node_color (total_volume : gmap string Q) (G : Graph.graph) (node : string)
    : string :=
  match volumes_of total_volume G with
  | v :: vs => color_of (median (v :: vs)) (volume_of total_volume node)
  | [] => low_color
  end.

Definition rendered_node (total_volume : gmap string Q) (G : Graph.graph) (node : string)
    : net_node :=
  {| id := node; label := short_label node;
     title_volume := volume_of total_volume node;
     size := node_size total_volume G node;
     color := node_color total_volume G node |}.

(** The network of a call that reaches line 108: the nodes of [G] in order,
    each with its size and colour, then the edges [G] reports. *)
Definition network_of (total_volume : gmap string Q) (G : Graph.graph) : network :=
  let net :=
    fold_left (fun net node => net_add_node (rendered_node total_volume G node) net)
      (Graph.nodes G) empty_network in
  fold_left (fun net edge => net_add_edge (make_edge edge) net) (Graph.edges G) net.

(** [max_volume - min_volume] in binary64, 1 when the two are equal. *)
Definition range_between (min_volume max_volume : Q) : pyfloat :=
  if float_eq (to_float max_volume) (to_float min_volume) then PFin 1
  else fsub (to_float max_volume) (to_float min_volume).

(** [10 + 40 * (volume - min_volume) / range] in binary64: each volume is
    taken as a binary64 number and each operation rounds. *)
Definition scaled_size (min_volume max_volume volume : Q) : pyfloat :=
  fadd (PFin 10)
    (fdiv (fmul (PFin 40) (fsub (to_float volume) (to_float min_volume)))
       (range_between min_volume max_volume)).

(** Nothing overflows: the least and the greatest volume are finite as
    binary64 numbers, and so is 40 times their range. *)
Definition no_overflow (min_volume max_volume : Q) : bool :=
  is_finite (to_float min_volume) && is_finite (to_float max_volume)
  && is_finite (fmul (PFin 40) (range_between min_volume max_volume)).

(** One unit in the last place above and below 50. *)
Definition size_ceiling : Q := 50 + (1 # 2 ^ 47).
Definition size_floor : Q := 50 - (1 # 2 ^ 47).

(** The file name passes the check of the network: it ends with [.html]. *)
Definition html_name (name : string) : bool :=
  match check_html name with
  | Ok _ => true
  | Raise _ => false
  end.

(** The file system lets the call create its directory and write its file. *)
Definition writable (fs : file_system) (output_html : string) (base_dir : option string)
    : bool :=
  match traverse (makedirs fs) (fst (output_target output_html base_dir)) with
  | Ok _ =>
      match open_error fs (snd (output_target output_html base_dir)) with
      | None => true
      | Some _ => false
      end
  | Raise _ => false
  end.

(** The output path the caller asked for. *)
Definition resolved_path (output_html : string) (base_dir : option string) : string :=
  match base_dir with
  | Some d => path_join d output_html
  | None => output_html
  end.

End Bubblemap.

(** ** Sample frames *)

Module Samples.
Import Bubblemap.

Definition edge_row (a b : string) (usd : cell) : row :=
  {| type := "edge"; address := Some a; target_address := Some b;
     total_usd_traded := usd |}.

Definition node_row (a : string) (usd : cell) : row :=
  {| type := "node"; address := Some a; target_address := None;
     total_usd_traded := usd |}.

(** Two edges in a chain, after the node rows of their ends. *)
Definition chain_frame : list row :=
  [node_row "0xA" (CNum 100); node_row "0xB" (CNum 400); node_row "0xC" (CNum 300);
   edge_row "0xA" "0xB" (CNum 100); edge_row "0xB" "0xC" (CNum 300)].

(** Node rows only. *)
Definition nodes_only_frame : list row :=
  [node_row "0xA" (CNum 100); node_row "0xB" (CNum 400)].

(** The same pair three times, in both directions, then a self-loop and a
    row with no number to read. *)
Definition repeated_frame : list row :=
  [edge_row "0xA" "0xB" (CNum 100); edge_row "0xB" "0xA" (CNum 7);
   edge_row "0xC" "0xC" (CNum 5); edge_row "0xA" "0xB" (CNum 30);
   edge_row "0xB" "0xC" CNone].

(** Two separate edges with volumes 0 and 1.7500000000000027, the second a
    binary64 number written as a fraction. *)
Definition rounding_frame : list row :=
  [edge_row "0xA" "0xB" (CNum 0);
   edge_row "0xC" "0xD" (CNum (1970324836974595 # 1125899906842624))].

(** The same frame in a unit three times smaller. *)
Definition tripled_frame : list row :=
  [edge_row "0xA" "0xB" (CNum 0);
   edge_row "0xC" "0xD" (CNum (3 * (1970324836974595 # 1125899906842624)))].

(** Two chained edges with the decimal values 0.3 and 0.9. *)
Definition decimal_frame : list row :=
  [edge_row "0xA" "0xB" (CNum (3 # 10)); edge_row "0xB" "0xC" (CNum (9 # 10))].

(** Two separate edges with volumes 0 and [2 ^ 1023]. *)
Definition huge_frame : list row :=
  [edge_row "0xA" "0xB" (CNum 0); edge_row "0xC" "0xD" (CNum (inject_Z (2 ^ 1023)))].

Definition retained_edge (a b : string) (usd : cell) : retained :=
  {| r_type := "edge"; r_address := a; r_target_address := b;
     r_total_usd_traded := usd |}.

(** The volume mapping of a frame, empty when the aggregation raises. *)
Definition volume_or_empty (df : list row) : gmap string Q :=
  match total_volume (dropna df) with
  | Ok tv => tv
  | Raise _ => ∅
  end.

(** A file system that refuses nothing. *)
Definition open_disk : file_system :=
  {| makedirs_error := fun _ => None; open_error := fun _ => None |}.

(** A file system with no directory but the current one, where none can be
    made: a path with a separator cannot be opened. *)
Definition bare_disk : file_system :=
  {| makedirs_error := fun _ => Some (OSError "PermissionError");
     open_error := fun path =>
       if existsb (Ascii.eqb "/") (list_ascii_of_string path)
       then Some (OSError "FileNotFoundError") else None |}.

Definition empty_run : run :=
  {| printed_nodes := 0; printed_edges := 0; made_dirs := [];
     shown := empty_network; shown_at := ""; returned := "" |}.

(** What a call did on [open_disk], [empty_run] when it raises. *)
Definition run_or_empty (df : list row) (output_html : string) (base_dir : option string)
    : run :=
  match plot_trader_bubblemap open_disk df output_html base_dir with
  | Ok out => out
  | Raise _ => empty_run
  end.

Definition empty_node : net_node :=
  {| id := ""; label := ""; title_volume := 0; size := PFin 0; color := "" |}.

End Samples.

(** ** [src/queries.py]: the Solana query builder *)

Module SolanaQuery.

(** The text of the f-string [sol_query]; every argument stands for the text
    its formatting yields. *)
Definition sol_query
    (contract_address start_date end_date
     min_usd_amount max_usd_amount min_active_days limit : string) : string :=
  "
    WITH swap_transactions AS (
    SELECT
        block_timestamp,
        swapper as trader,
        swap_from_amount as token_amount,
        COALESCE(swap_from_amount_usd, 0) + COALESCE(swap_to_amount_usd, 0) as amount_usd,
        tx_id
    FROM solana.defi.ez_dex_swaps
    WHERE (swap_from_mint = '" ++
  contract_address ++
  "' OR swap_to_mint = '" ++
  contract_address ++
  "')
        AND block_timestamp BETWEEN '" ++
  start_date ++
  "' AND '" ++
  end_date ++
  "'
        AND COALESCE(swap_from_amount_usd, 0) + COALESCE(swap_to_amount_usd, 0) >= " ++
  min_usd_amount ++
  "
        AND COALESCE(swap_from_amount_usd, 0) + COALESCE(swap_to_amount_usd, 0) <= " ++
  max_usd_amount ++
  "
    ),

    trading_patterns AS (
        SELECT
            trader,
            COUNT(DISTINCT DATE_TRUNC('day', block_timestamp)) as active_days,
            COUNT(DISTINCT tx_id) as total_trades,
            COUNT(DISTINCT tx_id) / COUNT(DISTINCT DATE_TRUNC('day', block_timestamp)) as avg_daily_trades,
            SUM(amount_usd) as total_volume
        FROM swap_transactions
        GROUP BY trader
        HAVING
            COUNT(DISTINCT DATE_TRUNC('day', block_timestamp)) >= " ++
  min_active_days ++
  "
            AND COUNT(DISTINCT tx_id) >= 5
    ),

    filtered_traders AS (
        SELECT DISTINCT
            tp.trader as address
        FROM trading_patterns tp
        WHERE tp.trader NOT IN (
            SELECT DISTINCT l.address
            FROM solana.core.dim_labels l
            WHERE label_type IN (
                'cex', 'dex', 'defi', 'bridge', 'contract', 'treasury', 'infrastructure', 'token'
            )
            OR label_subtype IN (
                'pool', 'router', 'exchange', 'mev_bot', 'flash_loan', 'vault',
                'wrapper', 'burn_address', 'null_address', 'token_account'
            )
            OR LOWER(address_name) LIKE ANY (
                '%pool%', '%bot%', '%mev%', '%vault%', '%treasury%',
                '%wrapper%', '%flash%loan%', '%token%account%', '%amm%'
            )
            LIMIT 1000
        )
    ),

    trader_nodes AS (
        SELECT
            'node' as type,
            st.trader as address,
            NULL as target_address,
            COUNT(DISTINCT st.tx_id) as trade_count,
            SUM(st.token_amount) as total_tokens_traded,
            SUM(st.amount_usd) as total_usd_traded,
            tp.active_days,
            tp.avg_daily_trades
        FROM swap_transactions st
        JOIN trading_patterns tp ON st.trader = tp.trader
        WHERE st.trader IN (SELECT address FROM filtered_traders)
        GROUP BY st.trader, tp.active_days, tp.avg_daily_trades
        ORDER BY total_usd_traded DESC
        LIMIT " ++
  limit ++
  "
    ),

    transfers_between_traders AS (
        SELECT
            'edge' as type,
            tx_from as address,
            tx_to as target_address,
            COUNT(DISTINCT tx_id) as trade_count,
            SUM(amount) as total_tokens_traded,
            SUM(amount * COALESCE(p.price, 0)) as total_usd_traded,
            NULL as active_days,
            NULL as avg_daily_trades
        FROM solana.core.fact_transfers ft
        LEFT JOIN solana.price.ez_prices_hourly p
            ON p.token_address = '" ++
  contract_address ++
  "'
            AND DATE_TRUNC('hour', ft.block_timestamp) = p.hour
        WHERE ft.block_timestamp BETWEEN '" ++
  start_date ++
  "' AND '" ++
  end_date ++
  "'
        AND ft.mint = '" ++
  contract_address ++
  "'
        AND ft.tx_from IN (SELECT address FROM trader_nodes)
        AND ft.tx_to IN (SELECT address FROM trader_nodes)
        GROUP BY tx_from, tx_to
        HAVING SUM(amount) > 0
    )

    SELECT
        type,
        address,
        target_address,
        trade_count,
        TO_NUMBER(total_tokens_traded) as total_tokens_traded,
        TO_NUMBER(total_usd_traded) as total_usd_traded,
        active_days,
        ROUND(avg_daily_trades, 2) as avg_daily_trades
    FROM trader_nodes

    UNION ALL

    SELECT
        type,
        address,
        target_address,
        trade_count,
        TO_NUMBER(total_tokens_traded) as total_tokens_traded,
        TO_NUMBER(total_usd_traded) as total_usd_traded,
        active_days,
        avg_daily_trades
    FROM transfers_between_traders
    ORDER BY type, total_usd_traded DESC;
    ".

(** The function has no guard: it formats and returns. *)
Definition get_solana_traders_and_connections
    (contract_address start_date end_date
     min_usd_amount max_usd_amount min_active_days limit : string) : result string :=
  Ok (sol_query contract_address start_date end_date
        min_usd_amount max_usd_amount min_active_days limit).

End SolanaQuery.

(** ** [src/streamlit_app.py]: what happens when the button is pressed *)

Module App.
Import PyText Queries SolanaQuery Bubblemap.

(** The choices of the chain select box. *)
Definition chain_options : list string :=
  ["Solana"; "Ethereum"; "Base"; "Arbitrum"; "Optimism"; "Avalanche"; "BSC"; "Polygon"].

(** [datetime.date]: dates compare as their (year, month, day). *)
Record date : Type := { year : Z; month : Z; day : Z }.

Definition date_lt (a b : date) : bool :=
  (year a <? year b)%Z
  || ((year a =? year b)%Z
      && ((month a <? month b)%Z
          || ((month a =? month b)%Z && (day a <? day b)%Z))).

Definition no_contract_message : string :=
  "Please enter a valid token contract address. Make sure the CA matches the blockchain.".
Definition date_order_message : string := "Start date must be before end date.".
Definition future_message : string := "End date cannot be in the future.".
Definition usd_order_message : string :=
  "Minimum USD Volume must be less than Maximum USD Volume.".

(** The chain of [if]/[elif] under the button: the message of the first check
    that fails, [None] when the analysis goes on. [today] is [date.today()]. *)
Definition validation_error (contract_address : string) (start_date end_date today : date)
    (min_usd max_usd : Q) : option string :=
  if String.eqb contract_address "" then Some no_contract_message
  else if negb (date_lt start_date end_date) then Some date_order_message
  else if date_lt today end_date then Some future_message
  else if Qlt_bool max_usd min_usd then Some usd_order_message
  else None.

(** The query the [else] branch builds; the arguments after [chain] are the
    texts the f-strings print for them. *)
Definition build_query (chain contract_address start_date end_date
                        min_usd max_usd min_days limit : string) : result string :=
  if String.eqb (lower chain) "solana" then
    get_solana_traders_and_connections contract_address start_date end_date
      min_usd max_usd min_days limit
  else
    get_evm_traders_and_connections (lower chain) contract_address start_date end_date
      min_usd max_usd min_days limit.

(** [df\[df\["type"\] == "edge"\]]: the rows of the table of connections. *)
Definition edges_df (df : list row) : list row :=
  List.filter (fun r => String.eqb (type r) "edge") df.

End App.

(** ** Further notions for the statements *)

Module Notions.
Import Bubblemap.

(** The sum of a list of numbers. *)
Definition Qsum (l : list Q) : Q := fold_right Qplus 0%Q l.

(** The row with its two addresses exchanged. *)
Definition swap_ends (r : retained) : retained :=
  {| r_type := r_type r; r_address := r_target_address r;
     r_target_address := r_address r; r_total_usd_traded := r_total_usd_traded r |}.

(** The same exchange on a row of the frame. *)
Definition swap_row (r : row) : row :=
  {| type := type r; address := target_address r; target_address := address r;
     total_usd_traded := total_usd_traded r |}.

(** The traded value of a retained row in a sum that skips missing values. *)
Definition usd_value (r : retained) : Q := cell_value (r_total_usd_traded r).

(** A frame as the queries return it: every row has an address, and it is
    the edge rows that have a target address. *)
Definition query_shaped (df : list row) : Prop :=
  forall r, In r df ->
    address r <> None
    /\ (type r = "edge" <-> target_address r <> None).

(** The test [net.add_edge] makes: the two edges join the same nodes. *)
Definition same_net_edge (e f : net_edge) : bool :=
  (String.eqb (source e) (to f) && String.eqb (to e) (source f))
  || (String.eqb (source e) (source f) && String.eqb (to e) (to f)).

End Notions.
(** ** Binary64 arithmetic: rounding is monotone and exact on its grid *)

Module Binary64Facts.
Import Binary64.
Local Open Scope Q_scope.

Lemma pow2_pos (e : Z) : 0 < pow2 e.
Proof. apply Qpower_0_lt. reflexivity. Qed.

Lemma pow2_add (a b : Z) : pow2 (a + b) == pow2 a * pow2 b.
Proof. apply Qpower_plus. discriminate. Qed.

Lemma pow2_le (a b : Z) : (a <= b)%Z -> pow2 a <= pow2 b.
Proof. intros H. apply Qpower_le_compat_l; [exact H | discriminate]. Qed.

Lemma pow2_lt (a b : Z) : (a < b)%Z -> pow2 a < pow2 b.
Proof. intros H. apply Qpower_lt_compat_l; [exact H | reflexivity]. Qed.

Lemma pow2_lt_inv (a b : Z) : pow2 a < pow2 b -> (a < b)%Z.
Proof. intros H. apply (Qpower_lt_compat_l_inv 2); [exact H | reflexivity]. Qed.

Lemma pow2_inject (k : Z) : (0 <= k)%Z -> pow2 k == inject_Z (2 ^ k).
Proof. intros H. symmetry. apply (Zpower_Qpower 2 k H). Qed.

Lemma pow2_sub (a b : Z) : pow2 (a - b) == pow2 a / pow2 b.
Proof.
  pose proof (pow2_pos b) as Hb.
  assert (E : pow2 a == pow2 (a - b) * pow2 b).
  { rewrite <- pow2_add. replace (a - b + b)%Z with a by lia. reflexivity. }
  rewrite E. field. lra.
Qed.

Lemma inject_Z_le (a b : Z) : (a <= b)%Z -> inject_Z a <= inject_Z b.
Proof. intros H. rewrite <- Zle_Qle. exact H. Qed.

Lemma inject_Z_lt (a b : Z) : (a < b)%Z -> inject_Z a < inject_Z b.
Proof. intros H. rewrite <- Zlt_Qlt. exact H. Qed.

(** The binary logarithm brackets a positive number. *)
Lemma ilog2_spec (q : Q) :
  0 < q -> pow2 (ilog2 q) <= q /\ q < pow2 (ilog2 q + 1).
Proof.
  intros Hq. destruct q as [n d].
  assert (Hn : (0 < n)%Z).
  { unfold Qlt in Hq. simpl in Hq. lia. }
  unfold ilog2. cbn [Qnum Qden].
  set (a := Z.log2 n). set (b := Z.log2 (Z.pos d)).
  destruct (Z.log2_spec n Hn) as [Ha1 Ha2]. fold a in Ha1, Ha2.
  destruct (Z.log2_spec (Z.pos d) eq_refl) as [Hb1 Hb2]. fold b in Hb1, Hb2.
  assert (Ha0 : (0 <= a)%Z) by apply Z.log2_nonneg.
  assert (Hb0 : (0 <= b)%Z) by apply Z.log2_nonneg.
  assert (Hd : 0 < inject_Z (Z.pos d)) by reflexivity.
  assert (E : n # d == inject_Z n / inject_Z (Z.pos d)) by apply Qmake_Qdiv.
  assert (En : (n # d) * inject_Z (Z.pos d) == inject_Z n).
  { rewrite E. field. lra. }
  assert (L : pow2 (a - b - 1) <= n # d).
  { apply (Qmult_le_r _ _ (inject_Z (Z.pos d)) Hd). rewrite En.
    apply Qle_trans with (pow2 (a - b - 1) * pow2 (b + 1)).
    - apply Qmult_le_l; [apply pow2_pos|].
      rewrite pow2_inject by lia. apply inject_Z_le.
      replace (Z.succ b) with (b + 1)%Z in Hb2 by lia. lia.
    - rewrite <- pow2_add. replace (a - b - 1 + (b + 1))%Z with a by lia.
      rewrite pow2_inject by lia. apply inject_Z_le. lia. }
  assert (U : n # d < pow2 (a - b + 1)).
  { apply (Qmult_lt_r _ _ (inject_Z (Z.pos d)) Hd). rewrite En.
    apply Qlt_le_trans with (pow2 (a - b + 1) * pow2 b).
    - rewrite <- pow2_add. replace (a - b + 1 + b)%Z with (a + 1)%Z by lia.
      rewrite pow2_inject by lia. apply inject_Z_lt.
      replace (Z.succ a) with (a + 1)%Z in Ha2 by lia. lia.
    - apply Qmult_le_l; [apply pow2_pos|].
      rewrite pow2_inject by lia. apply inject_Z_le. lia. }
  destruct (Qle_bool (pow2 (a - b)) (n # d)) eqn:T.
  - apply Qle_bool_iff in T. split; [exact T | exact U].
  - split.
    + exact L.
    + replace (a - b - 1 + 1)%Z with (a - b)%Z by lia.
      apply Qnot_le_lt. intros C. apply Qle_bool_iff in C. congruence.
Qed.

Lemma ilog2_unique (q : Q) (e : Z) :
  pow2 e <= q -> q < pow2 (e + 1) -> ilog2 q = e.
Proof.
  intros L U.
  assert (Hq : 0 < q) by (pose proof (pow2_pos e); lra).
  destruct (ilog2_spec q Hq) as [L' U'].
  assert (e < ilog2 q + 1)%Z by (apply pow2_lt_inv; lra).
  assert (ilog2 q < e + 1)%Z by (apply pow2_lt_inv; lra).
  lia.
Qed.

Lemma ilog2_mono (x y : Q) : 0 < x -> x <= y -> (ilog2 x <= ilog2 y)%Z.
Proof.
  intros Hx Hxy.
  destruct (ilog2_spec x Hx) as [L _].
  destruct (ilog2_spec y ltac:(lra)) as [_ U].
  assert (ilog2 x < ilog2 y + 1)%Z by (apply pow2_lt_inv; lra).
  lia.
Qed.

(** Rounding to the nearest integer, ties to even. *)
Lemma rne_floor (x : Q) : (Qfloor x <= rne x <= Qfloor x + 1)%Z.
Proof.
  unfold rne. destruct (Qcompare _ _); [destruct (Z.even _)| |]; lia.
Qed.

Lemma rne_Z (n : Z) : rne (inject_Z n) = n.
Proof.
  unfold rne. rewrite Qfloor_Z.
  assert (E : inject_Z n - inject_Z n < 1 # 2) by lra.
  rewrite (proj1 (Qlt_alt _ _) E). reflexivity.
Qed.

Lemma rne_mono (x y : Q) : x <= y -> (rne x <= rne y)%Z.
Proof.
  intros H.
  pose proof (Qfloor_resp_le x y H) as F.
  pose proof (rne_floor x) as Rx. pose proof (rne_floor y) as Ry.
  destruct (Z.eq_dec (Qfloor x) (Qfloor y)) as [E | N]; [|lia].
  unfold rne in *. rewrite <- E in *.
  destruct (Qcompare (x - inject_Z (Qfloor x)) (1 # 2)) eqn:Cx;
    destruct (Qcompare (y - inject_Z (Qfloor x)) (1 # 2)) eqn:Cy;
    try (destruct (Z.even (Qfloor x))); try lia;
    try apply (proj2 (Qeq_alt _ _)) in Cx; try apply (proj2 (Qlt_alt _ _)) in Cx;
    try apply (proj2 (Qgt_alt _ _)) in Cx;
    try apply (proj2 (Qeq_alt _ _)) in Cy; try apply (proj2 (Qlt_alt _ _)) in Cy;
    try apply (proj2 (Qgt_alt _ _)) in Cy;
    exfalso; lra.
Qed.

Lemma rne_near (x : Q) :
  x - (1 # 2) <= inject_Z (rne x) /\ inject_Z (rne x) <= x + (1 # 2).
Proof.
  pose proof (Qfloor_le x) as L. pose proof (Qlt_floor x) as U.
  rewrite inject_Z_plus in U.
  unfold rne.
  destruct (Qcompare (x - inject_Z (Qfloor x)) (1 # 2)) eqn:C;
    [apply (proj2 (Qeq_alt _ _)) in C | apply (proj2 (Qlt_alt _ _)) in C
     | apply (proj2 (Qgt_alt _ _)) in C];
    try destruct (Z.even (Qfloor x)); rewrite ?inject_Z_plus;
    change (inject_Z 1) with 1 in *; split; lra.
Qed.

Lemma Qfloor_ext (x y : Q) : x == y -> Qfloor x = Qfloor y.
Proof.
  intros H. apply Z.le_antisymm; apply Qfloor_resp_le; rewrite H; apply Qle_refl.
Qed.

Lemma rne_ext (x y : Q) : x == y -> rne x = rne y.
Proof.
  intros H. unfold rne. rewrite (Qfloor_ext x y H).
  assert (E : x - inject_Z (Qfloor y) == y - inject_Z (Qfloor y)) by (rewrite H; reflexivity).
  rewrite (Qcompare_comp _ _ E _ _ (Qeq_refl (1 # 2))). reflexivity.
Qed.

(** *** Rounding a positive number *)

Lemma round_pos_value (q : Q) :
  round_pos q == inject_Z (rne (q / pow2 (ulp_exponent q))) * pow2 (ulp_exponent q).
Proof. unfold round_pos. apply Qred_correct. Qed.

(** A point of the grid on one side of [q] stays on that side of its
    rounding. *)
Lemma grid_below (q : Q) (u n : Z) :
  inject_Z n * pow2 u <= q ->
  inject_Z n * pow2 u <= inject_Z (rne (q / pow2 u)) * pow2 u.
Proof.
  intros H. pose proof (pow2_pos u) as P.
  apply Qmult_le_compat_r; [|lra].
  apply inject_Z_le. rewrite <- (rne_Z n). apply rne_mono.
  apply Qle_shift_div_l; assumption.
Qed.

Lemma grid_above (q : Q) (u n : Z) :
  q <= inject_Z n * pow2 u ->
  inject_Z (rne (q / pow2 u)) * pow2 u <= inject_Z n * pow2 u.
Proof.
  intros H. pose proof (pow2_pos u) as P.
  apply Qmult_le_compat_r; [|lra].
  apply inject_Z_le. rewrite <- (rne_Z n). apply rne_mono.
  apply Qle_shift_div_r; assumption.
Qed.

Lemma pow2_on_grid (e u : Z) :
  (u <= e)%Z -> pow2 e == inject_Z (2 ^ (e - u)) * pow2 u.
Proof.
  intros H. rewrite <- pow2_inject by lia. rewrite <- pow2_add.
  replace (e - u + u)%Z with e by lia. reflexivity.
Qed.

Lemma ulp_exponent_mono (x y : Q) :
  0 < x -> x <= y -> (ulp_exponent x <= ulp_exponent y)%Z.
Proof.
  intros Hx Hxy. unfold ulp_exponent.
  pose proof (ilog2_mono x y Hx Hxy). lia.
Qed.

Lemma round_pos_mono (x y : Q) :
  0 < x -> x <= y -> round_pos x <= round_pos y.
Proof.
  intros Hx Hxy. rewrite !round_pos_value.
  assert (Hy : 0 < y) by lra.
  destruct (ilog2_spec x Hx) as [Lx Ux].
  destruct (ilog2_spec y Hy) as [Ly Uy].
  pose proof (ilog2_mono x y Hx Hxy) as He.
  pose proof (ulp_exponent_mono x y Hx Hxy) as Hu.
  destruct (Z.eq_dec (ulp_exponent x) (ulp_exponent y)) as [E | N].
  - rewrite E. pose proof (pow2_pos (ulp_exponent y)) as P.
    apply Qmult_le_compat_r; [|lra].
    apply inject_Z_le, rne_mono.
    apply Qmult_le_compat_r; [exact Hxy|].
    apply Qlt_le_weak, Qinv_lt_0_compat, P.
  - unfold ulp_exponent in *.
    set (ex := ilog2 x) in *. set (ey := ilog2 y) in *.
    set (ux := Z.max (ex - 52) (-1074)) in *.
    set (uy := Z.max (ey - 52) (-1074)) in *.
    set (g := Z.max (ex + 1) ux).
    apply Qle_trans with (pow2 g).
    + rewrite (pow2_on_grid g ux) by lia.
      apply grid_above. rewrite <- pow2_on_grid by lia.
      apply Qle_trans with (pow2 (ex + 1)); [lra|]. apply pow2_le. lia.
    + apply Qle_trans with (pow2 ey).
      * apply pow2_le. lia.
      * rewrite (pow2_on_grid ey uy) by lia.
        apply grid_below. rewrite <- pow2_on_grid by lia. exact Ly.
Qed.

Lemma round_pos_nonneg (q : Q) : 0 < q -> 0 <= round_pos q.
Proof.
  intros Hq. rewrite round_pos_value.
  apply Qle_trans with (inject_Z 0 * pow2 (ulp_exponent q)).
  - change (inject_Z 0) with 0. lra.
  - apply grid_below. change (inject_Z 0) with 0. lra.
Qed.

(** *** Rounding any number *)

Lemma round_fin_ext (x y : Q) : x == y -> round_fin x = round_fin y.
Proof. intros H. unfold round_fin. rewrite (Qred_complete x y H). reflexivity. Qed.

Lemma round_fin_zero (q : Q) : q == 0 -> round_fin q = 0.
Proof. intros H. rewrite (round_fin_ext q 0 H). reflexivity. Qed.

Lemma round_fin_pos (q : Q) : 0 < q -> round_fin q = round_pos (Qred q).
Proof.
  intros H. unfold round_fin.
  assert (C : Qred q > 0) by (rewrite Qred_correct; exact H).
  rewrite (proj1 (Qgt_alt _ _) C). reflexivity.
Qed.

Lemma round_fin_neg (q : Q) : q < 0 -> round_fin q = - round_pos (- Qred q).
Proof.
  intros H. unfold round_fin.
  assert (C : Qred q < 0) by (rewrite Qred_correct; exact H).
  rewrite (proj1 (Qlt_alt _ _) C). reflexivity.
Qed.

Lemma round_fin_sign (q : Q) :
  (0 <= q -> 0 <= round_fin q) /\ (q <= 0 -> round_fin q <= 0).
Proof.
  destruct (Q_dec q 0) as [[N | P] | Z].
  - rewrite (round_fin_neg q N).
    assert (0 < - Qred q) by (rewrite Qred_correct; lra).
    pose proof (round_pos_nonneg _ H). split; intros; lra.
  - rewrite (round_fin_pos q P).
    assert (0 < Qred q) by (rewrite Qred_correct; lra).
    pose proof (round_pos_nonneg _ H). split; intros; lra.
  - rewrite (round_fin_zero q Z). split; intros; lra.
Qed.

Theorem round_fin_mono (x y : Q) : x <= y -> round_fin x <= round_fin y.
Proof.
  intros H.
  destruct (Qlt_le_dec 0 x) as [Px | Nx].
  - rewrite (round_fin_pos x Px), (round_fin_pos y) by lra.
    apply round_pos_mono; rewrite !Qred_correct; lra.
  - destruct (Qlt_le_dec y 0) as [Ny | Py].
    + rewrite (round_fin_neg y Ny), (round_fin_neg x) by lra.
      apply Qopp_le_compat.
      apply round_pos_mono; rewrite !Qred_correct; lra.
    + apply Qle_trans with 0.
      * apply (round_fin_sign x), Nx.
      * apply (round_fin_sign y), Py.
Qed.


(** *** The grid of binary64 and the rounding error *)

Lemma on_grid_ext (x y : Q) : x == y -> on_grid x -> on_grid y.
Proof. intros E [k H]. exists k. rewrite <- E. exact H. Qed.

Lemma on_grid_0 : on_grid 0.
Proof. exists 0%Z. change (inject_Z 0) with 0. ring. Qed.

Lemma on_grid_plus (x y : Q) : on_grid x -> on_grid y -> on_grid (x + y).
Proof.
  intros [k H] [l G]. exists (k + l)%Z. rewrite inject_Z_plus, H, G. ring.
Qed.

Lemma on_grid_opp (x : Q) : on_grid x -> on_grid (- x).
Proof. intros [k H]. exists (- k)%Z. rewrite inject_Z_opp, H. ring. Qed.

Lemma on_grid_scale (n : Z) (x : Q) : on_grid x -> on_grid (inject_Z n * x).
Proof. intros [k H]. exists (n * k)%Z. rewrite inject_Z_mult, H. ring. Qed.

Lemma ulp_exponent_low (q : Q) : (-1074 <= ulp_exponent q)%Z.
Proof. unfold ulp_exponent. lia. Qed.

Lemma round_pos_grid (q : Q) : on_grid (round_pos q).
Proof.
  exists (rne (q / pow2 (ulp_exponent q)) * 2 ^ (ulp_exponent q - -1074))%Z.
  rewrite round_pos_value, inject_Z_mult.
  rewrite (pow2_on_grid (ulp_exponent q) (-1074)) at 2 by apply ulp_exponent_low.
  ring.
Qed.

Lemma round_fin_grid (q : Q) : on_grid (round_fin q).
Proof.
  destruct (Q_dec q 0) as [[N | P] | Z].
  - rewrite (round_fin_neg q N). apply on_grid_opp, round_pos_grid.
  - rewrite (round_fin_pos q P). apply round_pos_grid.
  - rewrite (round_fin_zero q Z). apply on_grid_0.
Qed.

(** A positive multiple of the least positive number is at least that
    number. *)
Lemma on_grid_pos (q : Q) : on_grid q -> 0 < q -> pow2 (-1074) <= q.
Proof.
  intros [k H] Hq. pose proof (pow2_pos (-1074)) as P.
  assert (K : (1 <= k)%Z).
  { destruct (Z_lt_le_dec k 1) as [L | L]; [|exact L]. exfalso.
    assert (inject_Z k <= 0) by (apply (inject_Z_le k 0); lia).
    assert (inject_Z k * pow2 (-1074) <= 0 * pow2 (-1074)).
    { apply Qmult_le_compat_r; lra. }
    lra. }
  rewrite H. apply Qle_trans with (inject_Z 1 * pow2 (-1074)).
  - change (inject_Z 1) with 1. lra.
  - apply Qmult_le_compat_r; [apply inject_Z_le, K | lra].
Qed.

Lemma round_fin_least : round_fin (pow2 (-1074)) == pow2 (-1074).
Proof. apply Qeq_bool_iff. vm_compute. reflexivity. Qed.

(** Gradual underflow: a positive multiple of the least positive number
    does not round to zero. *)
Lemma round_fin_grid_pos (q : Q) : on_grid q -> 0 < q -> 0 < round_fin q.
Proof.
  intros G Hq. pose proof (on_grid_pos q G Hq) as L.
  pose proof (round_fin_mono _ _ L) as M. rewrite round_fin_least in M.
  pose proof (pow2_pos (-1074)). lra.
Qed.

(** Rounding a grid point whose last place is the least one changes
    nothing; elsewhere the error is at most half a unit in the last place,
    that is at most [2 ^ -53] of the number. *)
Lemma round_pos_above (q : Q) :
  0 < q -> on_grid q -> round_pos q <= q * (1 + pow2 (-53)).
Proof.
  intros Hq [k H]. rewrite round_pos_value.
  pose proof (pow2_pos (-53)) as P53.
  destruct (ilog2_spec q Hq) as [L _].
  unfold ulp_exponent.
  destruct (Z.max_spec (ilog2 q - 52) (-1074)) as [[C ->] | [C ->]].
  - assert (E : q / pow2 (-1074) == inject_Z k).
    { rewrite H. field. pose proof (pow2_pos (-1074)); lra. }
    rewrite (rne_ext _ _ E), rne_Z, <- H.
    assert (0 <= q * pow2 (-53)) by (apply Qmult_le_0_compat; lra). lra.
  - set (u := (ilog2 q - 52)%Z). pose proof (pow2_pos u) as Pu.
    destruct (rne_near (q / pow2 u)) as [_ N].
    apply Qle_trans with ((q / pow2 u + (1 # 2)) * pow2 u).
    + apply Qmult_le_compat_r; lra.
    + assert (E1 : (q / pow2 u + (1 # 2)) * pow2 u == q + pow2 u * (1 # 2)) by (field; lra).
      assert (E2 : pow2 u * (1 # 2) == pow2 (ilog2 q) * pow2 (-53)).
      { rewrite <- pow2_add. replace (ilog2 q + -53)%Z with (u + -1)%Z by (unfold u; lia).
        rewrite pow2_add. reflexivity. }
      rewrite E1, E2.
      assert (pow2 (ilog2 q) * pow2 (-53) <= q * pow2 (-53)).
      { apply Qmult_le_compat_r; lra. }
      lra.
Qed.

Lemma round_pos_below (q : Q) :
  0 < q -> on_grid q -> q * (1 - pow2 (-53)) <= round_pos q.
Proof.
  intros Hq [k H]. rewrite round_pos_value.
  pose proof (pow2_pos (-53)) as P53.
  destruct (ilog2_spec q Hq) as [L _].
  unfold ulp_exponent.
  destruct (Z.max_spec (ilog2 q - 52) (-1074)) as [[C ->] | [C ->]].
  - assert (E : q / pow2 (-1074) == inject_Z k).
    { rewrite H. field. pose proof (pow2_pos (-1074)); lra. }
    rewrite (rne_ext _ _ E), rne_Z, <- H.
    assert (0 <= q * pow2 (-53)) by (apply Qmult_le_0_compat; lra). lra.
  - set (u := (ilog2 q - 52)%Z). pose proof (pow2_pos u) as Pu.
    destruct (rne_near (q / pow2 u)) as [N _].
    apply Qle_trans with ((q / pow2 u - (1 # 2)) * pow2 u).
    + assert (E1 : (q / pow2 u - (1 # 2)) * pow2 u == q - pow2 u * (1 # 2)) by (field; lra).
      assert (E2 : pow2 u * (1 # 2) == pow2 (ilog2 q) * pow2 (-53)).
      { rewrite <- pow2_add. replace (ilog2 q + -53)%Z with (u + -1)%Z by (unfold u; lia).
        rewrite pow2_add. reflexivity. }
      rewrite E1, E2.
      assert (pow2 (ilog2 q) * pow2 (-53) <= q * pow2 (-53)).
      { apply Qmult_le_compat_r; lra. }
      lra.
    + apply Qmult_le_compat_r; lra.
Qed.

Lemma round_fin_below (q : Q) :
  0 < q -> on_grid q -> q * (1 - pow2 (-53)) <= round_fin q.
Proof.
  intros Hq G. rewrite (round_fin_pos q Hq).
  assert (E : Qred q == q) by apply Qred_correct.
  rewrite <- E at 1. apply round_pos_below.
  - rewrite E. exact Hq.
  - apply (on_grid_ext q); [symmetry; exact E | exact G].
Qed.

Lemma round_fin_above (q : Q) :
  0 < q -> on_grid q -> round_fin q <= q * (1 + pow2 (-53)).
Proof.
  intros Hq G. rewrite (round_fin_pos q Hq).
  assert (E : Qred q == q) by apply Qred_correct.
  rewrite <- E at 2. apply round_pos_above.
  - rewrite E. exact Hq.
  - apply (on_grid_ext q); [symmetry; exact E | exact G].
Qed.

(** *** Rounding to binary64 *)

Lemma round64_ext (x y : Q) : x == y -> round64 x = round64 y.
Proof. intros H. unfold round64. rewrite (round_fin_ext x y H). reflexivity. Qed.

Lemma round64_cases (q : Q) :
  (round64 q = PInf false /\ overflow <= round_fin q)
  \/ (round64 q = PInf true /\ round_fin q <= - overflow)
  \/ (round64 q = PFin (round_fin q)
      /\ - overflow < round_fin q /\ round_fin q < overflow).
Proof.
  unfold round64.
  destruct (Qle_bool overflow (round_fin q)) eqn:A.
  - left. split; [reflexivity|]. apply Qle_bool_iff, A.
  - destruct (Qle_bool (round_fin q) (- overflow)) eqn:B.
    + right; left. split; [reflexivity|]. apply Qle_bool_iff, B.
    + right; right. split; [reflexivity|]. split; apply Qnot_le_lt; intros C;
        apply Qle_bool_iff in C; congruence.
Qed.

Lemma overflow_pos : 0 < overflow.
Proof. apply pow2_pos. Qed.

Theorem round64_mono (x y : Q) :
  x <= y -> float_le (round64 x) (round64 y) = true.
Proof.
  intros H. pose proof (round_fin_mono x y H) as M. pose proof overflow_pos as O.
  destruct (round64_cases x) as [[-> X] | [[-> X] | [-> [X1 X2]]]];
    destruct (round64_cases y) as [[-> Y] | [[-> Y] | [-> [Y1 Y2]]]];
    simpl; try reflexivity; try (exfalso; lra).
  apply Qle_bool_iff, M.
Qed.

Lemma round64_not_nan (q : Q) : round64 q <> PNaN.
Proof.
  destruct (round64_cases q) as [[-> _] | [[-> _] | [-> _]]]; discriminate.
Qed.


Lemma float_le_trans (x y z : pyfloat) :
  float_le x y = true -> float_le y z = true -> float_le x z = true.
Proof.
  destruct x as [a | [|] |], y as [b | [|] |], z as [c | [|] |]; simpl;
    try congruence.
  rewrite !Qle_bool_iff. apply Qle_trans.
Qed.

Lemma float_le_round64 (q : Q) (y : pyfloat) :
  y = PInf false \/ (exists b, y = PFin b /\ round_fin q <= b /\ b < overflow) ->
  float_le (round64 q) y = true.
Proof.
  pose proof overflow_pos as O.
  intros [-> | [b [-> [H1 H2]]]];
    destruct (round64_cases q) as [[-> X] | [[-> X] | [-> [X1 X2]]]];
    simpl; try reflexivity; try (exfalso; lra).
  apply Qle_bool_iff, H1.
Qed.

(** *** Monotonicity of the operations *)

Lemma is_zero_pos (c : Q) : 0 < c -> Qeq_bool c 0 = false.
Proof.
  intros H. destruct (Qeq_bool c 0) eqn:E; [|reflexivity].
  apply Qeq_bool_iff in E. lra.
Qed.

Lemma Qle_bool_pos (c : Q) : 0 < c -> Qle_bool 0 c = true.
Proof. intros H. apply Qle_bool_iff. lra. Qed.

Lemma fadd_mono (c : Q) (a b : pyfloat) :
  float_le a b = true ->
  float_le (fadd (PFin c) a) (fadd (PFin c) b) = true.
Proof.
  destruct a as [a | [|] |], b as [b | [|] |]; simpl; try congruence; intros H;
    try reflexivity.
  - apply round64_mono. apply Qle_bool_iff in H. lra.
  - destruct (round64_cases (c + a)) as [[-> X] | [[-> X] | [-> X]]]; reflexivity.
  - destruct (round64_cases (c + b)) as [[-> X] | [[-> X] | [-> X]]]; reflexivity.
Qed.

Lemma fsub_mono (m a b : Q) :
  a <= b -> float_le (fsub (PFin a) (PFin m)) (fsub (PFin b) (PFin m)) = true.
Proof. intros H. simpl. apply round64_mono. lra. Qed.

Lemma fmul_mono (c : Q) (a b : pyfloat) :
  0 < c -> float_le a b = true ->
  float_le (fmul (PFin c) a) (fmul (PFin c) b) = true.
Proof.
  intros Hc.
  destruct a as [a | [|] |], b as [b | [|] |]; simpl; try congruence; intros H;
    rewrite ?(is_zero_pos c Hc), ?(Qle_bool_pos c Hc); simpl; try reflexivity.
  - apply round64_mono. apply Qle_bool_iff in H.
    apply Qmult_le_l; assumption.
  - destruct (round64_cases (c * a)) as [[-> X] | [[-> X] | [-> X]]]; reflexivity.
  - destruct (round64_cases (c * b)) as [[-> X] | [[-> X] | [-> X]]]; reflexivity.
Qed.

Lemma fdiv_mono (r : Q) (a b : pyfloat) :
  0 < r -> float_le a b = true ->
  float_le (fdiv a (PFin r)) (fdiv b (PFin r)) = true.
Proof.
  intros Hr.
  destruct a as [a | [|] |], b as [b | [|] |]; simpl; try congruence; intros H;
    rewrite ?(Qle_bool_pos r Hr); simpl; try reflexivity.
  - apply round64_mono. apply Qle_bool_iff in H.
    apply Qmult_le_compat_r; [exact H|].
    apply Qlt_le_weak, Qinv_lt_0_compat, Hr.
  - destruct (round64_cases (a / r)) as [[-> X] | [[-> X] | [-> X]]]; reflexivity.
  - destruct (round64_cases (b / r)) as [[-> X] | [[-> X] | [-> X]]]; reflexivity.
Qed.

Lemma round64_le_inf (q : Q) : float_le (round64 q) (PInf false) = true.
Proof.
  destruct (round64_cases q) as [[-> _] | [[-> _] | [-> _]]]; reflexivity.
Qed.

Lemma round64_ge_inf (q : Q) : float_le (PInf true) (round64 q) = true.
Proof.
  destruct (round64_cases q) as [[-> _] | [[-> _] | [-> _]]]; reflexivity.
Qed.

Lemma round64_fin (q r : Q) : round64 q = PFin r -> r = round_fin q /\ on_grid r.
Proof.
  intros H. destruct (round64_cases q) as [[E _] | [[E _] | [E _]]];
    rewrite E in H; inversion H; subst. split; [reflexivity | apply round_fin_grid].
Qed.

Lemma round64_zero (q : Q) : q == 0 -> round64 q = PFin 0.
Proof. intros H. rewrite (round64_ext q 0 H). reflexivity. Qed.

Lemma round64_sign (q : Q) :
  (0 <= q -> float_le (PFin 0) (round64 q) = true)
  /\ (q <= 0 -> float_le (round64 q) (PFin 0) = true).
Proof.
  split; intros H; [change (PFin 0) with (round64 0) | change (PFin 0) with (round64 0)];
    apply round64_mono, H.
Qed.

(** *** Order up to not-a-number *)


Lemma le_or_nan_le (x y : pyfloat) :
  le_or_nan x y -> x <> PNaN -> y <> PNaN -> float_le x y = true.
Proof. intros [-> | [-> | H]] Hx Hy; congruence. Qed.

Ltac le_or_nan_cases :=
  simpl;
  first
    [ now left
    | now (right; left)
    | right; right;
      first [ reflexivity | apply round64_le_inf | apply round64_ge_inf ] ].

Lemma fsub_le_or_nan (a b lo : pyfloat) :
  float_le a b = true -> le_or_nan (fsub a lo) (fsub b lo).
Proof.
  destruct a as [a | [|] |], b as [b | [|] |], lo as [l | [|] |]; simpl;
    try congruence; intros H; try le_or_nan_cases.
  right; right. apply round64_mono. apply Qle_bool_iff in H. lra.
Qed.

Lemma fmul_le_or_nan (c : Q) (a b : pyfloat) :
  0 < c -> le_or_nan a b -> le_or_nan (fmul (PFin c) a) (fmul (PFin c) b).
Proof.
  intros Hc [-> | [-> | H]].
  - now left.
  - right; left. destruct a as [a | [|] |]; reflexivity.
  - right; right. apply fmul_mono; assumption.
Qed.

Lemma fadd_le_or_nan (c : Q) (a b : pyfloat) :
  le_or_nan a b -> le_or_nan (fadd (PFin c) a) (fadd (PFin c) b).
Proof.
  intros [-> | [-> | H]].
  - now left.
  - right; left. destruct a as [a | [|] |]; reflexivity.
  - right; right. apply fadd_mono; assumption.
Qed.

(** The quotient by a positive number or by plus infinity. *)
Lemma fdiv_le_or_nan (r a b : pyfloat) :
  (exists q, r = PFin q /\ 0 < q) \/ r = PInf false ->
  le_or_nan a b -> le_or_nan (fdiv a r) (fdiv b r).
Proof.
  intros [[q [-> Hq]] | ->] [-> | [-> | H]].
  - now left.
  - right; left. destruct a as [a | [|] |]; reflexivity.
  - right; right. apply fdiv_mono; assumption.
  - now left.
  - right; left. destruct a as [a | [|] |]; reflexivity.
  - destruct a as [a | [|] |], b as [b | [|] |]; simpl in *; try congruence;
      le_or_nan_cases.
Qed.

End Binary64Facts.


(** * Properties *)

Module ListFacts.

Lemma existsb_eqb_In (x : string) (l : list string) :
  existsb (String.eqb x) l = true <-> In x l.
Proof.
  rewrite existsb_exists. split.
  - intros [y [Hy Heq]]. apply String.eqb_eq in Heq. now subst.
  - intros H. exists x. split; [exact H | apply String.eqb_refl].
Qed.

Lemma existsb_eqb_not_In (x : string) (l : list string) :
  existsb (String.eqb x) l = false <-> ~ In x l.
Proof.
  rewrite <- existsb_eqb_In. destruct (existsb (String.eqb x) l).
  - split; [intros H; discriminate H | intros H; exfalso; now apply H].
  - split; [intros _ H; discriminate H | reflexivity].
Qed.

Lemma filter_nil {A : Type} (p : A -> bool) (l : list A) :
  (forall x, In x l -> p x = false) -> List.filter p l = [].
Proof.
  induction l as [| x l IH]; simpl; intros H; [reflexivity |].
  rewrite (H x) by now left. apply IH. intros y Hy. apply H. now right.
Qed.

Lemma fold_left_mapped {A B C : Type} (f : A -> C -> A) (g : B -> C) (l : list B) :
  forall a, fold_left (fun a x => f a (g x)) l a = fold_left f (List.map g l) a.
Proof. induction l as [| x l IH]; simpl; intros a; [reflexivity | apply IH]. Qed.

End ListFacts.

(** ** The chain guard of the query builder *)

Module QueriesFacts.
Import PyText Queries ListFacts.

Lemma lower_valid_chain (c : string) : In c valid_chains -> lower c = c.
Proof.
  unfold valid_chains. simpl.
  intros H. repeat (destruct H as [<- | H]; [reflexivity |]). destruct H.
Qed.

(** C10. [get_evm_traders_and_connections] raises exactly when the
    lowercased chain is not one of the seven valid chains, and what it then
    raises is a [ValueError]; on every chain of the list it returns the
    query text. *)
Theorem get_evm_chain_guard
    (chain contract_address start_date end_date
     min_usd_amount max_usd_amount min_active_days limit : string) :
  let call c :=
    get_evm_traders_and_connections c contract_address start_date end_date
      min_usd_amount max_usd_amount min_active_days limit in
  ((exists msg, call chain = Raise (ValueError msg)) <-> ~ In (lower chain) valid_chains)
  /\ (forall e, call chain = Raise e -> exists msg, e = ValueError msg)
  /\ ((exists q, call chain = Ok q) <-> In (lower chain) valid_chains)
  /\ (forall c, In c valid_chains ->
        call c = Ok (evm_query c contract_address start_date end_date
                       min_usd_amount max_usd_amount min_active_days limit)).
Proof.
  intros call. unfold call, get_evm_traders_and_connections.
  split; [split | split; [| split; [split |]]].
  - intros [msg H] Hin. apply existsb_eqb_In in Hin. rewrite Hin in H. discriminate.
  - intros Hnin. destruct (existsb _ valid_chains) eqn:E.
    + apply existsb_eqb_In in E. contradiction.
    + simpl. eauto.
  - destruct (existsb _ valid_chains); simpl; intros e H; inversion H; eauto.
  - intros [q H]. destruct (existsb _ valid_chains) eqn:E.
    + now apply existsb_eqb_In.
    + discriminate.
  - intros Hin. apply existsb_eqb_In in Hin. rewrite Hin. simpl. eauto.
  - intros c Hc. rewrite (lower_valid_chain c Hc).
    apply existsb_eqb_In in Hc. rewrite Hc. reflexivity.
Qed.

Lemma get_evm_chain_guard_witness :
  (exists q, get_evm_traders_and_connections "Base" "0xabc" "2024-01-01" "2024-02-01"
               "1" "100000000" "3" "200" = Ok q)
  /\ (exists msg, get_evm_traders_and_connections "solana" "0xabc" "2024-01-01" "2024-02-01"
                    "1" "100000000" "3" "200" = Raise (ValueError msg)).
Proof.
  split.
  - apply (get_evm_chain_guard "Base" "0xabc" "2024-01-01" "2024-02-01"
             "1" "100000000" "3" "200").
    vm_compute. tauto.
  - apply (get_evm_chain_guard "solana" "0xabc" "2024-01-01" "2024-02-01"
             "1" "100000000" "3" "200").
    vm_compute. intros H. repeat (destruct H as [H | H]; [discriminate |]). destruct H.
Defined.

End QueriesFacts.

(** ** The aggregator *)

Module AggregateFacts.
Import Bubblemap.

Lemma cell_number_value (c : cell) (x : Q) :
  cell_number c = Ok x -> x = cell_value c /\ is_text c = false.
Proof. destruct c; simpl; intros H; inversion H; auto. Qed.

Lemma cell_number_numeric (c : cell) :
  is_text c = false -> cell_number c = Ok (cell_value c).
Proof. destruct c; simpl; intros H; try reflexivity; discriminate. Qed.

Section Groupby.
Variable key : retained -> string.

Local Abbreviation keyed k := (keyed key k).

Lemma sum_usd_cons (p : retained -> bool) (r : retained) (df : list retained) :
  sum_usd p (r :: df) =
    if p r then (cell_value (r_total_usd_traded r) + sum_usd p df)%Q else sum_usd p df.
Proof. unfold sum_usd. simpl. destruct (p r); reflexivity. Qed.

(** A group sum completes on a numeric column. *)
Lemma groupby_sum_numeric (df : list retained) :
  numeric df = true -> forall acc, exists m, groupby_sum key df acc = Ok m.
Proof.
  induction df as [| r df IH]; simpl; intros Hn acc.
  - eauto.
  - apply andb_true_iff in Hn as [Hr Hdf]. apply negb_true_iff in Hr.
    rewrite (cell_number_numeric _ Hr). simpl. apply IH, Hdf.
Qed.

(** ... and only there. *)
Lemma groupby_sum_ok_numeric (df : list retained) :
  forall acc m, groupby_sum key df acc = Ok m -> numeric df = true.
Proof.
  induction df as [| r df IH]; simpl; intros acc m H; [reflexivity |].
  destruct (cell_number (r_total_usd_traded r)) as [x |] eqn:E; simpl in H; [| discriminate].
  apply cell_number_value in E as [_ E]. rewrite E. simpl. eapply IH, H.
Qed.

(** The value under [k] grows by the sum over the rows keyed [k]. *)
Lemma groupby_sum_value (df : list retained) (k : string) :
  forall acc m, groupby_sum key df acc = Ok m ->
    (default 0 (m !! k) == default 0 (acc !! k) + sum_usd (keyed k) df)%Q.
Proof.
  induction df as [| r df IH]; simpl; intros acc m H.
  - inversion H; subst. unfold sum_usd. simpl. ring.
  - destruct (cell_number (r_total_usd_traded r)) as [x |] eqn:E; simpl in H; [| discriminate].
    apply cell_number_value in E as [-> _].
    rewrite (IH _ _ H), sum_usd_cons. unfold keyed at 2.
    destruct (String.eqb (key r) k) eqn:Ek.
    + apply String.eqb_eq in Ek. subst k. rewrite lookup_insert_eq. simpl. ring.
    + apply String.eqb_neq in Ek. rewrite lookup_insert_ne by exact Ek. reflexivity.
Qed.

(** The keys are those of the start and those of the rows. *)
Lemma groupby_sum_keys (df : list retained) (k : string) :
  forall acc m, groupby_sum key df acc = Ok m ->
    (is_Some (m !! k) <-> is_Some (acc !! k) \/ exists r, In r df /\ key r = k).
Proof.
  induction df as [| r df IH]; simpl; intros acc m H.
  - inversion H; subst. split; [auto | intros [? | [r [[] _]]]; assumption].
  - destruct (cell_number (r_total_usd_traded r)) as [x |] eqn:E; simpl in H; [| discriminate].
    rewrite (IH _ _ H). destruct (String.eqb (key r) k) eqn:Ek.
    + apply String.eqb_eq in Ek. subst k. rewrite lookup_insert_eq.
      split; [intros _ | intros _; left; eauto]. right. exists r. auto.
    + apply String.eqb_neq in Ek. rewrite lookup_insert_ne by exact Ek.
      split.
      * intros [? | [r' [? ?]]]; [auto |]. right. exists r'. auto.
      * intros [? | [r' [[-> | ?] ?]]]; [auto | contradiction |]. right. exists r'. auto.
Qed.
End Groupby.

Lemma total_volume_numeric (df : list retained) :
  numeric df = true -> exists tv, total_volume df = Ok tv.
Proof.
  intros Hn. unfold total_volume.
  destruct (groupby_sum_numeric r_address df Hn ∅) as [vf ->].
  destruct (groupby_sum_numeric r_target_address df Hn ∅) as [vt ->].
  simpl. eauto.
Qed.

Lemma total_volume_inv (df : list retained) (tv : gmap string Q) :
  total_volume df = Ok tv ->
  exists vf vt, groupby_sum r_address df ∅ = Ok vf
                /\ groupby_sum r_target_address df ∅ = Ok vt
                /\ tv = series_add vf vt.
Proof.
  unfold total_volume. intros H.
  destruct (groupby_sum r_address df ∅) as [vf |]; simpl in H; [| discriminate].
  destruct (groupby_sum r_target_address df ∅) as [vt |]; simpl in H; [| discriminate].
  inversion H. eauto.
Qed.

Lemma total_volume_ok_numeric (df : list retained) (tv : gmap string Q) :
  total_volume df = Ok tv -> numeric df = true.
Proof.
  intros H. apply total_volume_inv in H as (vf & vt & Hf & _ & _).
  eapply groupby_sum_ok_numeric, Hf.
Qed.

Lemma series_add_lookup (a b : gmap string Q) (k : string) :
  series_add a b !! k =
    match a !! k, b !! k with
    | None, None => None
    | x, y => Some (default 0 x + default 0 y)%Q
    end.
Proof.
  unfold series_add. rewrite lookup_merge.
  destruct (a !! k), (b !! k); reflexivity.
Qed.

Lemma in_ravel (df : list retained) (A : string) :
  In A (ravel df) <-> exists r, In r df /\ (r_address r = A \/ r_target_address r = A).
Proof.
  unfold ravel. rewrite in_flat_map. split.
  - intros [r [Hr HA]]. exists r. simpl in HA. intuition.
  - intros [r [Hr HA]]. exists r. simpl. intuition.
Qed.

(** Every address of a retained row is a key of the volume mapping, and
    its value is the sum over its rows in both roles. *)
Lemma total_volume_lookup (df : list retained) (tv : gmap string Q) (A : string) :
  total_volume df = Ok tv -> In A (ravel df) ->
  exists v, tv !! A = Some v
            /\ (v == sum_usd (as_address A) df + sum_usd (as_target A) df)%Q.
Proof.
  intros H HA. apply total_volume_inv in H as (vf & vt & Hf & Ht & ->).
  pose proof (groupby_sum_value r_address df A _ _ Hf) as Vf.
  pose proof (groupby_sum_value r_target_address df A _ _ Ht) as Vt.
  pose proof (groupby_sum_keys r_address df A _ _ Hf) as Kf.
  pose proof (groupby_sum_keys r_target_address df A _ _ Ht) as Kt.
  rewrite lookup_empty in Vf, Vt, Kf, Kt. simpl in Vf, Vt.
  rewrite series_add_lookup.
  assert (Hsome : is_Some (vf !! A) \/ is_Some (vt !! A)).
  { apply in_ravel in HA as [r [Hr [Ha | Ha]]].
    - left. apply Kf. right. eauto.
    - right. apply Kt. right. eauto. }
  exists (default 0 (vf !! A) + default 0 (vt !! A))%Q. split.
  - destruct (vf !! A), (vt !! A); try reflexivity.
    destruct Hsome as [[? ?] | [? ?]]; discriminate.
  - rewrite Vf, Vt. unfold as_address, as_target. ring.
Qed.


End AggregateFacts.

(** ** The graph library *)

Module GraphFacts.
Import Graph ListFacts.

Section OrderedDict.
Context {V : Type}.
Implicit Types (d : list (string * V)) (k : string) (v : V).

Lemma od_get_set_eq d k v : od_get k (od_set k v d) = Some v.
Proof.
  induction d as [| [k' v'] d IH]; simpl.
  - now rewrite String.eqb_refl.
  - destruct (String.eqb k k') eqn:E; simpl; rewrite E; [reflexivity | exact IH].
Qed.

Lemma od_get_set_ne d k k' v : k <> k' -> od_get k' (od_set k v d) = od_get k' d.
Proof.
  intros Hne. induction d as [| [k0 v0] d IH]; simpl.
  - apply String.eqb_neq in Hne. rewrite String.eqb_sym in Hne. now rewrite Hne.
  - destruct (String.eqb k k0) eqn:E; simpl.
    + apply String.eqb_eq in E. subst k0.
      assert (E' : String.eqb k' k = false) by (apply String.eqb_neq; congruence).
      now rewrite E'.
    + destruct (String.eqb k' k0); [reflexivity | exact IH].
Qed.

Lemma od_get_None d k : od_get k d = None <-> ~ In k (od_keys d).
Proof.
  induction d as [| [k' v'] d IH]; simpl.
  - tauto.
  - destruct (String.eqb k k') eqn:E.
    + apply String.eqb_eq in E. subst. split; [discriminate |].
      intros H. exfalso. apply H. now left.
    + apply String.eqb_neq in E. rewrite IH. split.
      * intros H [? | ?]; [congruence | contradiction].
      * intros H Hin. apply H. now right.
Qed.

Lemma od_get_Some_keys d k v : od_get k d = Some v -> In k (od_keys d).
Proof.
  intros H. destruct (in_dec string_dec k (od_keys d)) as [? | Hn]; [assumption |].
  apply od_get_None in Hn. congruence.
Qed.

Lemma od_get_keys d k : In k (od_keys d) -> exists v, od_get k d = Some v.
Proof.
  intros H. destruct (od_get k d) as [v |] eqn:E; [eauto |].
  apply od_get_None in E. contradiction.
Qed.

(** Writing an existing key keeps the keys; a new key goes last. *)
Lemma od_keys_set d k v :
  od_keys (od_set k v d) =
    match od_get k d with
    | Some _ => od_keys d
    | None => od_keys d ++ [k]
    end.
Proof.
  induction d as [| [k' v'] d IH]; simpl; [reflexivity |].
  destruct (String.eqb k k') eqn:E; simpl; [reflexivity |].
  rewrite IH. destruct (od_get k d); reflexivity.
Qed.

Lemma od_set_NoDup d k v : NoDup (od_keys d) -> NoDup (od_keys (od_set k v d)).
Proof.
  intros H. rewrite od_keys_set. destruct (od_get k d) eqn:E; [exact H |].
  apply od_get_None in E.
  apply NoDup_app. split; [exact H | split; [| apply NoDup_singleton]].
  intros x Hx Hk. apply list_elem_of_In in Hx. apply list_elem_of_In in Hk.
  destruct Hk as [<- | []]. contradiction.
Qed.

Lemma od_get_In d k v : od_get k d = Some v -> In (k, v) d.
Proof.
  induction d as [| [k' v'] d IH]; simpl; [discriminate |].
  destruct (String.eqb k k') eqn:E.
  - apply String.eqb_eq in E. intros H. inversion H. subst. now left.
  - intros H. right. auto.
Qed.

Lemma od_In_get d k v : NoDup (od_keys d) -> In (k, v) d -> od_get k d = Some v.
Proof.
  induction d as [| [k' v'] d IH]; simpl; intros Hnd Hin; [contradiction |].
  inversion Hnd as [| ? ? Hk' Hd]; subst.
  destruct Hin as [Heq | Hin].
  - inversion Heq; subst. now rewrite String.eqb_refl.
  - destruct (String.eqb k k') eqn:E.
    + apply String.eqb_eq in E. subst. exfalso. apply Hk'.
      apply list_elem_of_In. change k' with (fst (k', v)). now apply in_map.
    + auto.
Qed.

Lemma od_set_Forall (P : V -> Prop) d k v :
  Forall (fun e => P (snd e)) d -> P v -> Forall (fun e => P (snd e)) (od_set k v d).
Proof.
  intros Hd Hv. induction Hd as [| [k' v'] d Hx Hd IH]; simpl.
  - repeat constructor. exact Hv.
  - destruct (String.eqb k k'); constructor; auto.
Qed.
End OrderedDict.

(** *** Nodes *)

Lemma nodes_add_node (n : string) (G : graph) :
  nodes (add_node n G) =
    match od_get n G with
    | Some _ => nodes G
    | None => nodes G ++ [n]
    end.
Proof.
  unfold add_node, nodes. destruct (od_get n G) eqn:E; [reflexivity |].
  rewrite od_keys_set, E. reflexivity.
Qed.

Lemma nodes_add_node_In (n : string) (G : graph) :
  In n (nodes G) -> add_node n G = G.
Proof.
  intros H. apply od_get_keys in H as [v Hv]. unfold add_node. now rewrite Hv.
Qed.

Lemma In_nodes_add_node (n x : string) (G : graph) :
  In x (nodes (add_node n G)) <-> x = n \/ In x (nodes G).
Proof.
  rewrite nodes_add_node. destruct (od_get n G) eqn:E.
  - apply od_get_Some_keys in E. split; [auto | intros [-> | ?]; assumption].
  - rewrite in_app_iff. simpl. split; [intros [? | [<- | []]]; auto | intros [-> | ?]; auto].
Qed.

Lemma nodes_set_adj (u v : string) (w : pyfloat) (G : graph) :
  nodes (set_adj u v w G) = nodes G.
Proof.
  unfold set_adj, nodes. destruct (od_get u G) eqn:E; [| reflexivity].
  rewrite od_keys_set, E. reflexivity.
Qed.

Lemma nodes_add_edge (u v : string) (w : pyfloat) (G : graph) :
  nodes (add_edge u v w G) = nodes (add_node v (add_node u G)).
Proof. unfold add_edge. now rewrite !nodes_set_adj. Qed.

(** *** Stored weights *)

Lemma adj_get_add_node (n : string) (G : graph) (x y : string) :
  adj_get (add_node n G) x y = adj_get G x y.
Proof.
  unfold add_node, adj_get. destruct (od_get n G) eqn:E; [reflexivity |].
  destruct (string_dec n x) as [-> | Hne].
  - rewrite od_get_set_eq, E. reflexivity.
  - now rewrite od_get_set_ne.
Qed.

Lemma adj_get_set_adj (u v : string) (w : pyfloat) (G : graph) (x y : string) :
  In u (nodes G) ->
  adj_get (set_adj u v w G) x y =
    if String.eqb x u && String.eqb y v then Some w else adj_get G x y.
Proof.
  intros Hu. apply od_get_keys in Hu as [nbrs Hn].
  unfold set_adj, adj_get. rewrite Hn.
  destruct (String.eqb x u) eqn:Ex; simpl.
  - apply String.eqb_eq in Ex. subst x. rewrite od_get_set_eq, Hn.
    destruct (String.eqb y v) eqn:Ey.
    + apply String.eqb_eq in Ey. subst y. apply od_get_set_eq.
    + apply String.eqb_neq in Ey. apply od_get_set_ne. congruence.
  - apply String.eqb_neq in Ex. rewrite od_get_set_ne by congruence. reflexivity.
Qed.

Lemma adj_get_add_edge (u v : string) (w : pyfloat) (G : graph) (x y : string) :
  adj_get (add_edge u v w G) x y =
    if same_ends u v x y then Some w else adj_get G x y.
Proof.
  unfold add_edge, same_ends.
  rewrite adj_get_set_adj.
  2:{ rewrite nodes_set_adj. apply In_nodes_add_node. now left. }
  rewrite adj_get_set_adj.
  2:{ apply In_nodes_add_node. right. apply In_nodes_add_node. now left. }
  rewrite !adj_get_add_node.
  destruct (String.eqb x u && String.eqb y v), (String.eqb x v && String.eqb y u);
    reflexivity.
Qed.

Lemma same_ends_sym (u v x y : string) : same_ends u v x y = same_ends u v y x.
Proof.
  unfold same_ends.
  destruct (String.eqb x u), (String.eqb y v), (String.eqb x v), (String.eqb y u);
    reflexivity.
Qed.

Lemma same_ends_flip (u v x y : string) : same_ends u v x y = same_ends x y u v.
Proof.
  unfold same_ends.
  rewrite (String.eqb_sym x u), (String.eqb_sym y v), (String.eqb_sym x v),
    (String.eqb_sym y u).
  destruct (String.eqb u x), (String.eqb v y), (String.eqb v x), (String.eqb u y);
    reflexivity.
Qed.

(** *** Invariants *)

Lemma distinct_keys_empty : distinct_keys empty.
Proof. split; constructor. Qed.

Lemma distinct_keys_add_node (n : string) (G : graph) :
  distinct_keys G -> distinct_keys (add_node n G).
Proof.
  intros [Hn Hi]. unfold add_node. destruct (od_get n G); [now split |].
  split.
  - apply od_set_NoDup, Hn.
  - apply (od_set_Forall (fun nbrs => NoDup (od_keys nbrs))); [exact Hi | constructor].
Qed.

Lemma distinct_keys_set_adj (u v : string) (w : pyfloat) (G : graph) :
  distinct_keys G -> distinct_keys (set_adj u v w G).
Proof.
  intros [Hn Hi]. unfold set_adj. destruct (od_get u G) as [nbrs |] eqn:E; [| now split].
  split.
  - apply od_set_NoDup, Hn.
  - apply (od_set_Forall (fun nbrs => NoDup (od_keys nbrs))); [exact Hi |].
    apply od_set_NoDup. apply od_get_In in E.
    rewrite Forall_forall in Hi. apply (Hi (u, nbrs)). now apply list_elem_of_In.
Qed.

Lemma distinct_keys_add_edge (u v : string) (w : pyfloat) (G : graph) :
  distinct_keys G -> distinct_keys (add_edge u v w G).
Proof.
  intros H. unfold add_edge.
  now apply distinct_keys_set_adj, distinct_keys_set_adj,
    distinct_keys_add_node, distinct_keys_add_node.
Qed.

Lemma symmetric_empty : symmetric empty.
Proof. intros u v. reflexivity. Qed.

Lemma symmetric_add_node (n : string) (G : graph) :
  symmetric G -> symmetric (add_node n G).
Proof. intros H u v. now rewrite !adj_get_add_node. Qed.

Lemma symmetric_add_edge (u v : string) (w : pyfloat) (G : graph) :
  symmetric G -> symmetric (add_edge u v w G).
Proof.
  intros H x y. rewrite !adj_get_add_edge, (same_ends_sym u v y x), (H x y). reflexivity.
Qed.

(** *** Reported edges *)

Section Between.
Variables a b : string.

Lemma reported_none (seen : list string) (n : string) (nbrs : neighbours) :
  (forall k, In k (od_keys nbrs) -> ~ In k seen -> same_ends a b n k = false) ->
  List.filter (between a b) (reported seen n nbrs) = [].
Proof.
  intros H. apply filter_nil. intros x Hx. unfold reported in Hx.
  apply in_map_iff in Hx as [e [<- He]]. apply filter_In in He as [He Hs].
  unfold between. simpl. apply H.
  - unfold od_keys. now apply in_map.
  - apply negb_true_iff in Hs. now apply existsb_eqb_not_In.
Qed.

Lemma reported_one (seen : list string) (n o : string) (nbrs : neighbours) (w : pyfloat) :
  NoDup (od_keys nbrs) -> od_get o nbrs = Some w -> ~ In o seen ->
  (forall k, same_ends a b n k = String.eqb k o) ->
  List.filter (between a b) (reported seen n nbrs) = [(n, o, w)].
Proof.
  intros Hnd Hget Hseen Hsame.
  induction nbrs as [| [k v] nbrs IH]; simpl in *; [discriminate |].
  inversion Hnd as [| ? ? Hk Hd]; subst.
  destruct (String.eqb o k) eqn:E.
  - apply String.eqb_eq in E. subst k. inversion Hget; subst v.
    unfold reported. simpl. unfold seen_before.
    apply existsb_eqb_not_In in Hseen. rewrite Hseen. simpl.
    unfold between at 1. simpl. rewrite Hsame, String.eqb_refl. f_equal.
    apply (reported_none seen n nbrs). intros k Hk' _. rewrite Hsame.
    apply String.eqb_neq. intros ->. apply Hk. now apply list_elem_of_In.
  - specialize (IH Hd Hget). unfold reported in *. simpl.
    destruct (negb (seen_before seen k)); simpl; [| exact IH].
    unfold between at 1. simpl. rewrite Hsame, String.eqb_sym, E. exact IH.
Qed.

(** No edge between [a] and [b] is reported once the other end of every
    entry for them was visited. *)
Lemma edges_from_none (G : graph) :
  forall seen,
    (forall nbrs, In (a, nbrs) G -> In b seen) ->
    (forall nbrs, In (b, nbrs) G -> In a seen) ->
    List.filter (between a b) (edges_from seen G) = [].
Proof.
  induction G as [| [n nbrs] G IH]; simpl; intros seen Ha Hb; [reflexivity |].
  rewrite List.filter_app, IH, app_nil_r.
  - apply reported_none. intros k _ Hk. unfold same_ends.
    destruct (String.eqb n a) eqn:Ea; simpl.
    + apply String.eqb_eq in Ea. subst n.
      destruct (String.eqb k b) eqn:Eb; simpl.
      * apply String.eqb_eq in Eb. subst k. exfalso. apply Hk, (Ha nbrs). now left.
      * destruct (String.eqb a b) eqn:Eab; simpl; [| reflexivity].
        apply String.eqb_eq in Eab. subst b.
        apply String.eqb_neq. intros ->. now rewrite String.eqb_refl in Eb.
    + destruct (String.eqb n b) eqn:Eb; simpl; [| reflexivity].
      apply String.eqb_eq in Eb. subst n.
      apply String.eqb_neq. intros ->. apply Hk, (Hb nbrs). now left.
  - intros nbrs' H. right. apply (Ha nbrs'). now right.
  - intros nbrs' H. right. apply (Hb nbrs'). now right.
Qed.

(** Exactly one edge between [a] and [b] is reported when both directions
    store the weight [w] and neither end was visited yet. *)
Lemma edges_from_one (w : pyfloat) (G : graph) :
  forall seen,
    distinct_keys G ->
    (forall nbrs, In (a, nbrs) G -> od_get b nbrs = Some w) ->
    (forall nbrs, In (b, nbrs) G -> od_get a nbrs = Some w) ->
    In a (nodes G) \/ In b (nodes G) ->
    ~ In a seen -> ~ In b seen ->
    List.filter (between a b) (edges_from seen G) = [(a, b, w)]
    \/ List.filter (between a b) (edges_from seen G) = [(b, a, w)].
Proof.
  induction G as [| [n nbrs] G IH]; simpl; intros seen [Hn Hi] Ha Hb Hin Hsa Hsb.
  - destruct Hin as [[] | []].
  - inversion Hn as [| ? ? Hfresh HnG]; subst.
    inversion Hi as [| ? ? Hnbrs HiG]; subst. simpl in Hnbrs.
    assert (Hnot : forall nbrs', ~ In (n, nbrs') G).
    { intros nbrs' H. apply Hfresh, list_elem_of_In.
      change n with (fst (n, nbrs')). now apply in_map. }
    rewrite List.filter_app.
    destruct (string_dec n a) as [-> | Hna]; [| destruct (string_dec n b) as [-> | Hnb]].
    + left.
      assert (Hhead : List.filter (between a b) (reported seen a nbrs) = [(a, b, w)]).
      { apply reported_one; [exact Hnbrs | apply Ha; now left | exact Hsb |].
        intros k. unfold same_ends. rewrite String.eqb_refl. simpl.
        destruct (String.eqb k b) eqn:Ek; simpl; [reflexivity |].
        destruct (String.eqb a b) eqn:Eab; simpl; [| reflexivity].
        apply String.eqb_eq in Eab. rewrite Eab. exact Ek. }
      assert (Htail : List.filter (between a b) (edges_from (a :: seen) G) = []).
      { apply edges_from_none.
        - intros nbrs' H. now apply Hnot in H.
        - intros nbrs' H. now left. }
      now rewrite Hhead, Htail.
    + right.
      assert (Hhead : List.filter (between a b) (reported seen b nbrs) = [(b, a, w)]).
      { apply reported_one; [exact Hnbrs | apply Hb; now left | exact Hsa |].
        intros k. unfold same_ends. rewrite String.eqb_refl.
        assert (Eba : String.eqb b a = false) by (apply String.eqb_neq; congruence).
        rewrite Eba. simpl. destruct (String.eqb k a); reflexivity. }
      assert (Htail : List.filter (between a b) (edges_from (b :: seen) G) = []).
      { apply edges_from_none.
        - intros nbrs' H. now left.
        - intros nbrs' H. now apply Hnot in H. }
      now rewrite Hhead, Htail.
    + rewrite reported_none.
      2:{ intros k _ _. unfold same_ends.
          apply String.eqb_neq in Hna, Hnb. now rewrite Hna, Hnb. }
      simpl. apply IH.
      * now split.
      * intros nbrs' H. apply Ha. now right.
      * intros nbrs' H. apply Hb. now right.
      * destruct Hin as [[? | ?] | [? | ?]]; try congruence; auto.
      * intros [? | ?]; [congruence | contradiction].
      * intros [? | ?]; [congruence | contradiction].
Qed.
End Between.

(** In a well-formed graph an edge that is stored is reported once. *)
Lemma edges_between (G : graph) (a b : string) (w : pyfloat) :
  distinct_keys G -> symmetric G -> adj_get G a b = Some w ->
  List.filter (between a b) (edges G) = [(a, b, w)]
  \/ List.filter (between a b) (edges G) = [(b, a, w)].
Proof.
  intros Hd Hs Hab. pose proof Hab as Hba. rewrite (Hs a b) in Hba.
  assert (Hentry : forall x y nbrs, adj_get G x y = Some w -> In (x, nbrs) G ->
                                    od_get y nbrs = Some w).
  { intros x y nbrs Hxy Hin. unfold adj_get in Hxy.
    rewrite (od_In_get G x nbrs (proj1 Hd) Hin) in Hxy. exact Hxy. }
  apply edges_from_one; auto.
  - intros nbrs. now apply Hentry.
  - intros nbrs. now apply Hentry.
  - left. unfold adj_get in Hab. destruct (od_get a G) eqn:E; [| discriminate].
    eapply od_get_Some_keys, E.
Qed.

(** An edge that is not stored is not reported. *)
Lemma edges_not_between (G : graph) (a b : string) :
  distinct_keys G -> adj_get G a b = None -> adj_get G b a = None ->
  List.filter (between a b) (edges G) = [].
Proof.
  intros Hd Hab Hba. apply filter_nil. intros [[u v] w] He.
  unfold between, same_ends. simpl.
  assert (Hst : adj_get G u v = Some w).
  { unfold edges in He. revert He. generalize (@nil string).
    destruct Hd as [Hn Hi]. induction G as [| [n nbrs] G IH]; simpl; intros seen He.
    - destruct He.
    - inversion Hn as [| ? ? Hfresh HnG]; subst. inversion Hi as [| ? ? Hnbrs HiG]; subst.
      apply in_app_iff in He as [He | He].
      + unfold reported in He. apply in_map_iff in He as [e [Heq He]].
        inversion Heq; subst. apply filter_In in He as [He _].
        unfold adj_get. simpl. rewrite String.eqb_refl.
        apply od_In_get; [exact Hnbrs | now destruct e].
      + assert (Hu : adj_get G u v = Some w).
        { apply (IH HnG HiG) with (l := n :: seen); [| | exact He].
          - unfold adj_get in *. simpl in Hab.
            destruct (String.eqb a n) eqn:E; [| exact Hab].
            apply String.eqb_eq in E. subst n.
            destruct (od_get a G) eqn:E'; [| reflexivity].
            apply od_get_Some_keys in E'. exfalso. now apply Hfresh, list_elem_of_In.
          - unfold adj_get in *. simpl in Hba.
            destruct (String.eqb b n) eqn:E; [| exact Hba].
            apply String.eqb_eq in E. subst n.
            destruct (od_get b G) eqn:E'; [| reflexivity].
            apply od_get_Some_keys in E'. exfalso. now apply Hfresh, list_elem_of_In. }
        unfold adj_get in *. simpl.
        destruct (String.eqb u n) eqn:E; [| exact Hu].
        apply String.eqb_eq in E. subst n.
        destruct (od_get u G) eqn:E'; [| discriminate].
        apply od_get_Some_keys in E'. exfalso. now apply Hfresh, list_elem_of_In. }
  destruct (String.eqb u a && String.eqb v b) eqn:E1; simpl.
  - apply andb_true_iff in E1 as [E1 E2].
    apply String.eqb_eq in E1, E2. subst. congruence.
  - destruct (String.eqb u b && String.eqb v a) eqn:E2; [| reflexivity].
    apply andb_true_iff in E2 as [E2 E3].
    apply String.eqb_eq in E2, E3. subst. congruence.
Qed.

End GraphFacts.

(** ** The graph builder *)

Module BuildFacts.
Import Graph Bubblemap ListFacts GraphFacts.

(** *** The node list *)

Lemma unique_from_In (l : list string) :
  forall seen x, In x (unique_from seen l) <-> In x l /\ ~ In x seen.
Proof.
  induction l as [| y l IH]; simpl; intros seen x; [tauto |].
  destruct (existsb (String.eqb y) seen) eqn:E.
  - apply existsb_eqb_In in E. rewrite IH. split.
    + intros [? ?]. auto.
    + intros [[-> | ?] ?]; [contradiction | auto].
  - apply existsb_eqb_not_In in E. simpl. rewrite IH. simpl. split.
    + intros [-> | [? ?]]; auto.
    + intros [[-> | ?] ?]; [now left |].
      destruct (string_dec y x) as [-> | Hne]; [now left | right].
      split; [assumption | intros [? | ?]; congruence].
Qed.

Lemma unique_from_NoDup (l : list string) : forall seen, NoDup (unique_from seen l).
Proof.
  induction l as [| y l IH]; simpl; intros seen; [constructor |].
  destruct (existsb (String.eqb y) seen); [apply IH |].
  constructor; [| apply IH].
  rewrite list_elem_of_In, unique_from_In. intros [_ H]. apply H. now left.
Qed.

Lemma node_list_In (df : list retained) (x : string) :
  In x (node_list df) <-> In x (ravel df).
Proof. unfold node_list, unique. rewrite unique_from_In. simpl. tauto. Qed.

Lemma node_list_NoDup (df : list retained) : NoDup (node_list df).
Proof. apply unique_from_NoDup. Qed.

(** *** Nodes of the built graph *)

Lemma nodes_add_nodes (ns : list string) :
  forall G, NoDup ns -> (forall x, In x ns -> ~ In x (nodes G)) ->
            nodes (add_nodes ns G) = nodes G ++ ns.
Proof.
  induction ns as [| n ns IH]; simpl; intros G Hnd Hfresh.
  - now rewrite app_nil_r.
  - inversion Hnd as [| ? ? Hn Hns]; subst.
    rewrite IH; [| exact Hns |].
    + rewrite nodes_add_node.
      destruct (od_get n G) eqn:E.
      * apply od_get_Some_keys in E. exfalso. apply (Hfresh n); [now left | exact E].
      * now rewrite <- app_assoc.
    + intros x Hx Hin. apply In_nodes_add_node in Hin as [-> | Hin].
      * now apply Hn, list_elem_of_In.
      * apply (Hfresh x); [now right | exact Hin].
Qed.

Lemma nodes_add_edges (df : list retained) :
  forall G, (forall x, In x (ravel df) -> In x (nodes G)) ->
            nodes (add_edges df G) = nodes G.
Proof.
  induction df as [| r df IH]; simpl; intros G Hin; [reflexivity |].
  assert (HG : nodes (add_edge (r_address r) (r_target_address r)
                        (edge_weight (r_total_usd_traded r)) G) = nodes G).
  { rewrite nodes_add_edge, (nodes_add_node_In (r_address r)) by (apply Hin; now left).
    rewrite nodes_add_node_In by (apply Hin; right; now left). reflexivity. }
  rewrite IH, HG; [reflexivity |].
  intros x Hx. rewrite HG. apply Hin. now right; right.
Qed.

(** The nodes of the graph are the distinct addresses of the retained rows,
    in order of first appearance. *)
Lemma nodes_build_graph (df : list retained) :
  nodes (build_graph df) = node_list df.
Proof.
  unfold build_graph.
  assert (Hns : nodes (add_nodes (node_list df) empty) = node_list df).
  { rewrite nodes_add_nodes; [reflexivity | apply node_list_NoDup | intros x _ []]. }
  rewrite nodes_add_edges, Hns; [reflexivity |].
  intros x Hx. rewrite Hns. now apply node_list_In.
Qed.

(** *** Invariants of the built graph *)

Lemma add_nodes_invariant (P : graph -> Prop) (ns : list string) :
  (forall n G, P G -> P (add_node n G)) -> forall G, P G -> P (add_nodes ns G).
Proof.
  intros Hstep. induction ns as [| n ns IH]; simpl; intros G HG; [exact HG |].
  apply IH, Hstep, HG.
Qed.

Lemma add_edges_invariant (P : graph -> Prop) (df : list retained) :
  (forall u v w G, P G -> P (add_edge u v w G)) -> forall G, P G -> P (add_edges df G).
Proof.
  intros Hstep. induction df as [| r df IH]; simpl; intros G HG; [exact HG |].
  apply IH, Hstep, HG.
Qed.

Lemma build_graph_distinct_keys (df : list retained) : distinct_keys (build_graph df).
Proof.
  unfold build_graph.
  apply (add_edges_invariant distinct_keys); [apply distinct_keys_add_edge |].
  apply (add_nodes_invariant distinct_keys);
    [apply distinct_keys_add_node | apply distinct_keys_empty].
Qed.

Lemma build_graph_symmetric (df : list retained) : symmetric (build_graph df).
Proof.
  unfold build_graph.
  apply (add_edges_invariant symmetric); [apply symmetric_add_edge |].
  apply (add_nodes_invariant symmetric); [apply symmetric_add_node | apply symmetric_empty].
Qed.

(** *** Stored weights of the built graph *)

Lemma adj_get_add_edges (a b : string) (df : list retained) :
  forall G, adj_get (add_edges df G) a b = fold_left (overwrite a b) df (adj_get G a b).
Proof.
  induction df as [| r df IH]; simpl; intros G; [reflexivity |].
  rewrite IH, adj_get_add_edge. unfold overwrite at 2, joins.
  rewrite same_ends_flip. reflexivity.
Qed.

Lemma adj_get_build_graph (a b : string) (df : list retained) :
  adj_get (build_graph df) a b = last_weight a b df.
Proof.
  unfold build_graph, last_weight. rewrite adj_get_add_edges. f_equal.
  apply (add_nodes_invariant (fun G => adj_get G a b = None)); [| reflexivity].
  intros n G H. now rewrite adj_get_add_node.
Qed.

(** The last row that joins [a] and [b] decides [last_weight]. *)
Lemma last_weight_last (a b : string) (pre post : list retained) (r : retained) :
  joins a b r = true -> (forall r', In r' post -> joins a b r' = false) ->
  last_weight a b (pre ++ r :: post) = Some (edge_weight (r_total_usd_traded r)).
Proof.
  intros Hr Hpost. unfold last_weight. rewrite fold_left_app. simpl.
  unfold overwrite at 2. rewrite Hr.
  generalize (Some (edge_weight (r_total_usd_traded r))).
  induction post as [| r' post IH]; simpl; intros acc; [reflexivity |].
  unfold overwrite at 2. rewrite (Hpost r') by now left.
  apply IH. intros r'' H. apply Hpost. now right.
Qed.

Lemma last_weight_None (a b : string) (df : list retained) :
  (forall r, In r df -> joins a b r = false) -> last_weight a b df = None.
Proof.
  unfold last_weight. generalize (@None pyfloat).
  induction df as [| r df IH]; simpl; intros acc H; [reflexivity |].
  unfold overwrite at 2. rewrite (H r) by now left.
  apply IH. intros r' Hr'. apply H. now right.
Qed.

(** A list with a row that joins [a] and [b] has a last such row. *)
Lemma last_joining_row (a b : string) (df : list retained) :
  (exists r, In r df /\ joins a b r = true) ->
  exists pre r' post, df = pre ++ r' :: post /\ joins a b r' = true
                      /\ (forall x, In x post -> joins a b x = false).
Proof.
  induction df as [| y df IH]; simpl; intros [r [Hin Hr]]; [contradiction |].
  destruct (existsb (joins a b) df) eqn:E.
  - apply existsb_exists in E.
    destruct (IH E) as (pre & r' & post & -> & Hr' & Hpost).
    exists (y :: pre), r', post. auto.
  - assert (Hno : forall x, In x df -> joins a b x = false).
    { intros x Hx. destruct (joins a b x) eqn:Ex; [| reflexivity].
      rewrite <- E. symmetry. apply existsb_exists. eauto. }
    destruct Hin as [-> | Hin]; [| rewrite (Hno r Hin) in Hr; discriminate].
    exists [], r, df. auto.
Qed.

End BuildFacts.

(** ** Retained rows and the edges of the built graph *)

Module EdgeFacts.
Import PyText PyFloat Graph Bubblemap ListFacts GraphFacts BuildFacts.

Lemma dropna_In (df : list row) (r : retained) :
  In r (dropna df) <-> exists x, In x df /\ retain x = Some r.
Proof.
  unfold dropna. rewrite <- list_elem_of_In, list_elem_of_omap.
  split; intros [x [Hx Hr]]; exists x; split; auto; now apply list_elem_of_In.
Qed.

Lemma dropna_missing_target (df : list row) :
  (forall r, In r df -> target_address r = None) -> dropna df = [].
Proof.
  induction df as [| r df IH]; simpl; intros H; [reflexivity |].
  unfold dropna in *. simpl. unfold retain at 1. rewrite (H r) by now left.
  destruct (address r); apply IH; intros x Hx; apply H; now right.
Qed.

Lemma add_edges_app (df1 df2 : list retained) :
  forall G, add_edges (df1 ++ df2) G = add_edges df2 (add_edges df1 G).
Proof. induction df1 as [| r df1 IH]; simpl; intros G; [reflexivity | apply IH]. Qed.

Lemma edges_of_pair (df : list retained) (a b : string) (w : pyfloat) :
  last_weight a b df = Some w ->
  List.filter (between a b) (edges (build_graph df)) = [(a, b, w)]
  \/ List.filter (between a b) (edges (build_graph df)) = [(b, a, w)].
Proof.
  intros H. apply edges_between.
  - apply build_graph_distinct_keys.
  - apply build_graph_symmetric.
  - now rewrite adj_get_build_graph.
Qed.

(** No edge lies between two addresses that no retained row joins. *)
Lemma no_edge_without_row (df : list retained) (a b : string) :
  (forall r, In r df -> joins a b r = false) ->
  List.filter (between a b) (edges (build_graph df)) = [].
Proof.
  intros H. apply edges_not_between.
  - apply build_graph_distinct_keys.
  - rewrite adj_get_build_graph. now apply last_weight_None.
  - rewrite build_graph_symmetric, adj_get_build_graph. now apply last_weight_None.
Qed.

(** C5. When two retained rows carry the same unordered pair of addresses,
    the graph has exactly one edge between the two, and its weight is the
    parsed weight of the last retained row, in input order, that carries the
    pair: a later row overwrites, nothing accumulates. *)
Theorem duplicate_rows_last_write_wins (df : list row) (r1 r2 : retained) :
  In r1 (dropna df) -> In r2 (dropna df) ->
  joins (r_address r1) (r_target_address r1) r2 = true ->
  let a := r_address r1 in
  let b := r_target_address r1 in
  exists pre r post,
    dropna df = pre ++ r :: post
    /\ joins a b r = true
    /\ (forall x, In x post -> joins a b x = false)
    /\ let w := edge_weight (r_total_usd_traded r) in
       List.filter (between a b) (edges (build_graph (dropna df))) = [(a, b, w)]
       \/ List.filter (between a b) (edges (build_graph (dropna df))) = [(b, a, w)].
Proof.
  intros H1 H2 Hj a b.
  destruct (last_joining_row a b (dropna df)) as (pre & r & post & Hdf & Hr & Hpost).
  { exists r2. auto. }
  exists pre, r, post. repeat split; auto.
  apply edges_of_pair. rewrite Hdf. now apply last_weight_last.
Qed.

(** C7. A row whose [address] equals its [target_address] is retained, and
    the built graph has a self-loop on that address: the address is a node
    and exactly one edge joins it to itself. *)
Theorem self_loops_preserved (df : list row) (x : row) (a : string) :
  In x df -> address x = Some a -> target_address x = Some a ->
  (exists r, In r (dropna df) /\ r_address r = a /\ r_target_address r = a)
  /\ In a (nodes (build_graph (dropna df)))
  /\ exists w, List.filter (between a a) (edges (build_graph (dropna df))) = [(a, a, w)]
               /\ In (a, a, w) (edges (build_graph (dropna df))).
Proof.
  intros Hx Ha Ht.
  assert (Hr : exists r, In r (dropna df) /\ r_address r = a /\ r_target_address r = a).
  { exists {| r_type := type x; r_address := a; r_target_address := a;
              r_total_usd_traded := total_usd_traded x |}.
    split; [| auto]. apply dropna_In. exists x. split; [exact Hx |].
    unfold retain. now rewrite Ha, Ht. }
  split; [exact Hr |]. destruct Hr as (r & Hr & Hra & Hrt). split.
  - rewrite nodes_build_graph. apply node_list_In, AggregateFacts.in_ravel. eauto.
  - destruct (last_joining_row a a (dropna df)) as (pre & r' & post & Hdf & Hr' & Hpost).
    { exists r. split; [exact Hr |]. unfold joins, same_ends.
      now rewrite Hra, Hrt, String.eqb_refl. }
    exists (edge_weight (r_total_usd_traded r')).
    assert (Hone : List.filter (between a a) (edges (build_graph (dropna df)))
                   = [(a, a, edge_weight (r_total_usd_traded r'))]).
    { destruct (edges_of_pair (dropna df) a a (edge_weight (r_total_usd_traded r')));
        auto. rewrite Hdf. now apply last_weight_last. }
    split; [exact Hone |].
    apply (proj1 (filter_In (between a a) _ _)). rewrite Hone. now left.
Qed.

Lemma remove_commas_spec (s : string) :
  list_ascii_of_string (remove_commas s)
  = List.filter (fun c => negb (Ascii.eqb c ",")) (list_ascii_of_string s).
Proof.
  induction s as [| c s IH]; simpl; [reflexivity |].
  destruct (Ascii.eqb c ","); simpl; now rewrite IH.
Qed.

End EdgeFacts.

(** ** The visual encoder *)

Module EncoderFacts.
Import Graph Binary64 Bubblemap ListFacts Binary64Facts.
Local Open Scope Q_scope.

Lemma Qlt_bool_true (x y : Q) : Qlt_bool x y = true <-> x < y.
Proof.
  unfold Qlt_bool. rewrite negb_true_iff. split.
  - intros H. apply Qnot_le_lt. intros Hle. apply Qle_bool_iff in Hle. congruence.
  - intros H. destruct (Qle_bool y x) eqn:E; [| reflexivity].
    apply Qle_bool_iff in E. exfalso. now apply (Qlt_not_le x y).
Qed.

Lemma Qlt_bool_false (x y : Q) : Qlt_bool x y = false <-> y <= x.
Proof.
  unfold Qlt_bool. rewrite negb_false_iff. apply Qle_bool_iff.
Qed.

(** *** [min] and [max] *)

Lemma py_min_spec (l : list Q) :
  forall x, In (py_min x l) (x :: l) /\ forall y, In y (x :: l) -> py_min x l <= y.
Proof.
  induction l as [| z l IH]; intros x.
  - simpl. split; [now left | intros y [<- | []]; apply Qle_refl].
  - change (py_min x (z :: l)) with (py_min (if Qlt_bool z x then z else x) l).
    destruct (IH (if Qlt_bool z x then z else x)) as [Hin Hle]. split.
    + destruct Hin as [Hin | Hin]; [| now right; right].
      rewrite <- Hin. destruct (Qlt_bool z x); [right; now left | now left].
    + assert (Hhead : py_min (if Qlt_bool z x then z else x) l
                      <= (if Qlt_bool z x then z else x)) by (apply Hle; now left).
      intros y [<- | [<- | Hy]]; [| | apply Hle; now right].
      * destruct (Qlt_bool z x) eqn:E; [| exact Hhead].
        apply Qlt_bool_true in E. lra.
      * destruct (Qlt_bool z x) eqn:E; [exact Hhead |].
        apply Qlt_bool_false in E. lra.
Qed.

Lemma py_max_spec (l : list Q) :
  forall x, In (py_max x l) (x :: l) /\ forall y, In y (x :: l) -> y <= py_max x l.
Proof.
  induction l as [| z l IH]; intros x.
  - simpl. split; [now left | intros y [<- | []]; apply Qle_refl].
  - change (py_max x (z :: l)) with (py_max (if Qlt_bool x z then z else x) l).
    destruct (IH (if Qlt_bool x z then z else x)) as [Hin Hle]. split.
    + destruct Hin as [Hin | Hin]; [| now right; right].
      rewrite <- Hin. destruct (Qlt_bool x z); [right; now left | now left].
    + assert (Hhead : (if Qlt_bool x z then z else x)
                      <= py_max (if Qlt_bool x z then z else x) l) by (apply Hle; now left).
      intros y [<- | [<- | Hy]]; [| | apply Hle; now right].
      * destruct (Qlt_bool x z) eqn:E; [| exact Hhead].
        apply Qlt_bool_true in E. lra.
      * destruct (Qlt_bool x z) eqn:E; [exact Hhead |].
        apply Qlt_bool_false in E. lra.
Qed.

(** *** The sort under the median *)



Lemma insert_sorted_sorted (x : Q) (l : list Q) :
  Sorted Qle l -> Sorted Qle (insert_sorted x l).
Proof.
  induction l as [| y l IH]; simpl; intros Hs.
  - repeat constructor.
  - destruct (Qle_bool x y) eqn:E.
    + apply Qle_bool_iff in E. constructor; [exact Hs | now constructor].
    + assert (Hyx : y <= x).
      { destruct (Qlt_le_dec y x) as [H | H]; [lra |].
        apply Qle_bool_iff in H. congruence. }
      inversion Hs as [| ? ? Hl Hhd]; subst. constructor; [now apply IH |].
      destruct l as [| z l]; simpl; [now constructor |].
      destruct (Qle_bool x z); constructor; [exact Hyx |].
      now inversion Hhd.
  Qed.

Lemma sort_sorted (l : list Q) : Sorted Qle (sort l).
Proof.
  induction l as [| x l IH]; simpl; [constructor | now apply insert_sorted_sorted].
Qed.

(** *** The size scale *)

Lemma to_float_mono (x y : Q) : x <= y -> float_le (to_float x) (to_float y) = true.
Proof. apply round64_mono. Qed.

Lemma to_float_ext (x y : Q) : x == y -> to_float x = to_float y.
Proof. apply round64_ext. Qed.

Lemma volume_range_of_between (min_volume max_volume : Q) :
  volume_range_of min_volume max_volume = range_between min_volume max_volume.
Proof.
  unfold volume_range_of, range_between.
  destruct (float_eq (to_float max_volume) (to_float min_volume)); reflexivity.
Qed.

Lemma scale_scaled_size (min_volume max_volume v : Q) :
  scale min_volume (range_between min_volume max_volume) v
  = scaled_size min_volume max_volume v.
Proof. reflexivity. Qed.

Lemma fsub_not_nan (a : pyfloat) (l : Q) : a <> PNaN -> fsub a (PFin l) <> PNaN.
Proof.
  destruct a as [a | s |]; simpl; intros H; try congruence. apply round64_not_nan.
Qed.

Lemma fmul_not_nan (c : Q) (a : pyfloat) :
  0 < c -> a <> PNaN -> fmul (PFin c) a <> PNaN.
Proof.
  intros Hc. destruct a as [a | s |]; simpl; intros H; try congruence.
  - apply round64_not_nan.
  - rewrite (is_zero_pos c Hc). discriminate.
Qed.

Lemma fdiv_not_nan (a : pyfloat) (q : Q) : a <> PNaN -> fdiv a (PFin q) <> PNaN.
Proof.
  destruct a as [a | s |]; simpl; intros H; try congruence. apply round64_not_nan.
Qed.

Lemma fadd_not_nan (c : Q) (a : pyfloat) : a <> PNaN -> fadd (PFin c) a <> PNaN.
Proof.
  destruct a as [a | s |]; simpl; intros H; try congruence. apply round64_not_nan.
Qed.

(** A number between two finite numbers is finite. *)
Lemma float_between (x : pyfloat) (a b : Q) :
  float_le (PFin a) x = true -> float_le x (PFin b) = true ->
  exists t, x = PFin t /\ a <= t /\ t <= b.
Proof.
  destruct x as [t | [|] |]; simpl; try congruence.
  intros H1 H2. apply Qle_bool_iff in H1, H2. eauto.
Qed.

Lemma is_finite_inv (x : pyfloat) : is_finite x = true -> exists q, x = PFin q.
Proof. destruct x; simpl; try discriminate. eauto. Qed.

Section Scale.
Variables min_volume max_volume : Q.
Hypothesis min_le_max : min_volume <= max_volume.

Local Abbreviation lo := (to_float min_volume).
Local Abbreviation hi := (to_float max_volume).
Local Abbreviation range := (range_between min_volume max_volume).
Local Abbreviation size_at := (scaled_size min_volume max_volume).

Lemma range_equal : float_eq hi lo = true -> range = PFin 1.
Proof. intros H. unfold range_between. now rewrite H. Qed.

(** The range is a positive number or plus infinity: never zero, whatever
    the volumes, because a difference of two distinct binary64 numbers does
    not round to zero. *)
Lemma range_positive : (exists q, range = PFin q /\ 0 < q) \/ range = PInf false.
Proof.
  unfold range_between. pose proof (to_float_mono _ _ min_le_max) as M.
  pose proof overflow_pos as O. unfold to_float in *.
  destruct (float_eq (round64 max_volume) (round64 min_volume)) eqn:E.
  { left. exists 1. split; reflexivity. }
  destruct (round64_cases min_volume) as [[El L] | [[El L] | [El L]]];
    destruct (round64_cases max_volume) as [[Eh H] | [[Eh H] | [Eh H]]];
    rewrite El, Eh in *; simpl in *; try congruence; try (now right).
  set (a := round_fin min_volume) in *. set (b := round_fin max_volume) in *.
  assert (Hab : a < b).
  { apply Qle_bool_iff in M. apply Qeq_bool_neq in E.
    destruct (Qlt_le_dec a b) as [C | C]; [exact C |]. exfalso. apply E. lra. }
  assert (G : on_grid (b + - a)).
  { apply on_grid_plus; [| apply on_grid_opp]; apply round_fin_grid. }
  pose proof (round_fin_grid_pos (b + - a) G ltac:(lra)) as P.
  destruct (round64_cases (b + - a)) as [[Er R] | [[Er R] | [Er R]]]; rewrite Er.
  - now right.
  - exfalso. lra.
  - left. eauto.
Qed.

Lemma range_not_zero : is_zero range = false.
Proof.
  destruct range_positive as [[q [-> Hq]] | ->]; simpl; [| reflexivity].
  apply is_zero_pos, Hq.
Qed.

(** The size does not decrease when the volume grows, as far as the two
    sizes are numbers. *)
Lemma scaled_size_mono_weak (v v' : Q) :
  v <= v' -> le_or_nan (size_at v) (size_at v').
Proof.
  intros Hv. unfold scaled_size.
  apply fadd_le_or_nan, fdiv_le_or_nan; [exact range_positive |].
  apply fmul_le_or_nan; [reflexivity |].
  apply fsub_le_or_nan, to_float_mono, Hv.
Qed.

Lemma scaled_size_not_nan (v : Q) :
  is_finite lo = true -> is_finite range = true -> size_at v <> PNaN.
Proof.
  intros Hl Hr. unfold scaled_size.
  destruct (is_finite_inv _ Hl) as [a ->]. destruct (is_finite_inv _ Hr) as [q ->].
  apply fadd_not_nan, fdiv_not_nan, fmul_not_nan; [reflexivity |].
  apply fsub_not_nan, round64_not_nan.
Qed.

Lemma scaled_size_mono (v v' : Q) :
  is_finite lo = true -> is_finite range = true ->
  v <= v' -> float_le (size_at v) (size_at v') = true.
Proof.
  intros Hl Hr Hv. apply le_or_nan_le.
  - now apply scaled_size_mono_weak.
  - now apply scaled_size_not_nan.
  - now apply scaled_size_not_nan.
Qed.

(** A volume held as the least one has size 10. *)
Lemma scaled_size_at_least (v f a : Q) :
  to_float v = PFin f -> lo = PFin a -> f == a -> size_at v = PFin 10.
Proof.
  intros Ev El Hfa. unfold scaled_size. rewrite Ev, El.
  assert (E1 : fsub (PFin f) (PFin a) = PFin 0).
  { simpl. apply round64_zero. lra. }
  rewrite E1.
  assert (E2 : fmul (PFin 40) (PFin 0) = PFin 0) by reflexivity.
  rewrite E2.
  assert (E3 : fdiv (PFin 0) range = PFin 0).
  { destruct range_positive as [[q [-> Hq]] | ->]; simpl; [| reflexivity].
    apply round64_zero. field. lra. }
  rewrite E3. reflexivity.
Qed.

Lemma scaled_size_at_min (v : Q) :
  is_finite lo = true -> v == min_volume -> size_at v = PFin 10.
Proof.
  intros Hl Hv. destruct (is_finite_inv _ Hl) as [a El].
  apply (scaled_size_at_least v a a); [| exact El | reflexivity].
  rewrite <- El. apply to_float_ext, Hv.
Qed.

Lemma scaled_size_lower (v : Q) :
  is_finite lo = true -> is_finite range = true ->
  min_volume <= v -> float_le (PFin 10) (size_at v) = true.
Proof.
  intros Hl Hr Hv.
  rewrite <- (scaled_size_at_min min_volume Hl (Qeq_refl _)).
  now apply scaled_size_mono.
Qed.

Lemma no_overflow_inv :
  no_overflow min_volume max_volume = true ->
  exists a b q c,
    lo = PFin a /\ hi = PFin b /\ a <= b /\ range = PFin q /\ 0 < q
    /\ round64 (40 * q) = PFin c.
Proof.
  unfold no_overflow. intros H.
  apply andb_prop in H as [H Hc]. apply andb_prop in H as [Hl Hh].
  pose proof (to_float_mono _ _ min_le_max) as M.
  destruct (is_finite_inv _ Hl) as [a El]. destruct (is_finite_inv _ Hh) as [b Eh].
  rewrite El, Eh in M. simpl in M. apply Qle_bool_iff in M.
  destruct range_positive as [[q [Er Hq]] | Er]; rewrite Er in Hc.
  - destruct (is_finite_inv _ Hc) as [c Ec]. simpl in Ec.
    exists a, b, q, c. auto 10.
  - discriminate Hc.
Qed.

(** Rounding can lift the size above 50, by one unit in the last place at
    most. *)
Lemma scaled_size_upper (v : Q) :
  no_overflow min_volume max_volume = true ->
  min_volume <= v -> v <= max_volume ->
  float_le (size_at v) (PFin size_ceiling) = true.
Proof.
  intros Hno Hlo Hhi.
  destruct (no_overflow_inv Hno) as (a & b & q & c & El & Eh & Hab & Er & Hq & Ec).
  pose proof (to_float_mono _ _ Hlo) as M1. pose proof (to_float_mono _ _ Hhi) as M2.
  rewrite El in M1. rewrite Eh in M2.
  destruct (float_between _ _ _ M1 M2) as (f & Ef & Haf & Hfb).
  destruct (float_eq (to_float max_volume) (to_float min_volume)) eqn:E.
  { rewrite Eh, El in E. simpl in E. apply Qeq_bool_iff in E.
    rewrite (scaled_size_at_least v f a Ef El) by lra. reflexivity. }
  assert (Er' : round64 (b + - a) = PFin q).
  { rewrite <- Er. unfold range_between. rewrite E, Eh, El. reflexivity. }
  destruct (round64_fin _ _ Er') as [Eq Gq].
  unfold scaled_size. rewrite Ef, El, Er.
  (* the difference *)
  assert (X1 : exists t, fsub (PFin f) (PFin a) = PFin t /\ 0 <= t /\ t <= q).
  { apply float_between.
    - simpl. apply (round64_sign (f + - a)). lra.
    - simpl. rewrite <- Er'. apply round64_mono. lra. }
  destruct X1 as (t & -> & Ht0 & Htq).
  (* times 40 *)
  assert (X2 : exists y, fmul (PFin 40) (PFin t) = PFin y /\ 0 <= y /\ y <= c).
  { apply float_between.
    - simpl. apply (round64_sign (40 * t)). lra.
    - simpl. rewrite <- Ec. apply round64_mono. lra. }
  destruct X2 as (y & -> & Hy0 & Hyc).
  destruct (round64_fin _ _ Ec) as [Ec' _].
  assert (Hc : c <= 40 * q * (1 + pow2 (-53))).
  { rewrite Ec'. apply round_fin_above; [lra |].
    apply (on_grid_ext (inject_Z 40 * q)); [reflexivity |].
    apply on_grid_scale, Gq. }
  (* by the range *)
  assert (X3 : float_le (fdiv (PFin y) (PFin q)) (PFin (40 + (1 # 2 ^ 47))) = true).
  { simpl fdiv.
    assert (B : round64 (40 * (1 + pow2 (-53))) = PFin (40 + (1 # 2 ^ 47)))
      by (vm_compute; reflexivity).
    rewrite <- B. apply round64_mono.
    apply Qle_shift_div_r; [exact Hq |]. lra. }
  (* plus 10 *)
  apply (float_le_trans _ (fadd (PFin 10) (PFin (40 + (1 # 2 ^ 47))))).
  - apply fadd_mono, X3.
  - vm_compute. reflexivity.
Qed.

(** The greatest volume gets 50 up to one unit in the last place. *)
Lemma scaled_size_at_max (v : Q) :
  no_overflow min_volume max_volume = true ->
  float_eq hi lo = false -> v == max_volume ->
  float_le (PFin size_floor) (size_at v) = true.
Proof.
  intros Hno E Hv.
  destruct (no_overflow_inv Hno) as (a & b & q & c & El & Eh & Hab & Er & Hq & Ec).
  assert (Er' : round64 (b + - a) = PFin q).
  { rewrite <- Er. unfold range_between. rewrite E, Eh, El. reflexivity. }
  destruct (round64_fin _ _ Er') as [Eq Gq].
  unfold scaled_size. rewrite (to_float_ext v max_volume Hv), Eh, El, Er.
  assert (X1 : fsub (PFin b) (PFin a) = PFin q) by exact Er'.
  rewrite X1.
  assert (X2 : fmul (PFin 40) (PFin q) = PFin c) by exact Ec.
  rewrite X2.
  destruct (round64_fin _ _ Ec) as [Ec' _].
  assert (Hc : 40 * q * (1 - pow2 (-53)) <= c).
  { rewrite Ec'. apply round_fin_below; [lra |].
    apply (on_grid_ext (inject_Z 40 * q)); [reflexivity |].
    apply on_grid_scale, Gq. }
  assert (X3 : float_le (PFin (40 - (1 # 2 ^ 47))) (fdiv (PFin c) (PFin q)) = true).
  { simpl fdiv.
    assert (B : round64 (40 * (1 - pow2 (-53))) = PFin (40 - (1 # 2 ^ 47)))
      by (vm_compute; reflexivity).
    rewrite <- B. apply round64_mono.
    apply Qle_shift_div_l; [exact Hq |]. lra. }
  apply (float_le_trans _ (fadd (PFin 10) (PFin (40 - (1 # 2 ^ 47))))).
  - vm_compute. reflexivity.
  - apply fadd_mono, X3.
Qed.

(** Equal least and greatest volumes: every size is 10. *)
Lemma scaled_size_all_equal (v : Q) :
  is_finite lo = true -> float_eq hi lo = true ->
  min_volume <= v -> v <= max_volume -> size_at v = PFin 10.
Proof.
  intros Hl E Hlo Hhi. destruct (is_finite_inv _ Hl) as [a El].
  pose proof (to_float_mono _ _ Hlo) as M1. pose proof (to_float_mono _ _ Hhi) as M2.
  rewrite El in E, M1.
  destruct (to_float max_volume) as [b | |] eqn:Eh; try discriminate.
  simpl in E. apply Qeq_bool_iff in E.
  destruct (float_between _ _ _ M1 M2) as (f & Ef & Haf & Hfb).
  apply (scaled_size_at_least v f a Ef El). lra.
Qed.
End Scale.

(** Two minima (maxima) of a list are equal. *)
Lemma is_min_unique (l : list Q) (m m' : Q) : is_min m l -> is_min m' l -> m == m'.
Proof.
  intros [[x [Hx Hxm]] Hle] [[x' [Hx' Hxm']] Hle'].
  specialize (Hle x' Hx'). specialize (Hle' x Hx). lra.
Qed.

Lemma is_max_unique (l : list Q) (m m' : Q) : is_max m l -> is_max m' l -> m == m'.
Proof.
  intros [[x [Hx Hxm]] Hle] [[x' [Hx' Hxm']] Hle'].
  specialize (Hle x' Hx'). specialize (Hle' x Hx). lra.
Qed.

Lemma py_min_is_min (x : Q) (l : list Q) : is_min (py_min x l) (x :: l).
Proof.
  destruct (py_min_spec l x) as [Hin Hle]. split; [| exact Hle].
  exists (py_min x l). split; [exact Hin | reflexivity].
Qed.

Lemma py_max_is_max (x : Q) (l : list Q) : is_max (py_max x l) (x :: l).
Proof.
  destruct (py_max_spec l x) as [Hin Hle]. split; [| exact Hle].
  exists (py_max x l). split; [exact Hin | reflexivity].
Qed.

End EncoderFacts.

(** ** The rendered network and the whole call *)

Module CallFacts.
Import PyText Graph Binary64 Bubblemap ListFacts GraphFacts BuildFacts AggregateFacts
  Binary64Facts EncoderFacts.

Lemma traverse_ok {A B : Type} (f : A -> result B) (g : A -> B) (l : list A) :
  (forall x, In x l -> f x = Ok (g x)) -> traverse f l = Ok (List.map g l).
Proof.
  induction l as [| x l IH]; simpl; intros H; [reflexivity |].
  rewrite (H x) by now left. simpl. rewrite IH by (intros; apply H; now right).
  reflexivity.
Qed.

(** The divisor of line 89 is never zero: the quotient does not raise. *)
Lemma size_of_scale (min_volume max_volume v : Q) :
  (min_volume <= max_volume)%Q ->
  size_of min_volume (volume_range_of min_volume max_volume) v
  = Ok (scale min_volume (volume_range_of min_volume max_volume) v).
Proof.
  intros H. unfold size_of, py_truediv.
  rewrite volume_range_of_between, (range_not_zero _ _ H). reflexivity.
Qed.

Lemma py_min_le_max (v : Q) (vs : list Q) : (py_min v vs <= py_max v vs)%Q.
Proof.
  destruct (py_min_spec vs v) as [_ Hmin]. destruct (py_max_spec vs v) as [_ Hmax].
  apply Qle_trans with v; [apply Hmin | apply Hmax]; now left.
Qed.

Lemma encode_nodes (tv : gmap string Q) (G : graph) :
  encode tv G
  = Ok (List.map (node_size tv G) (nodes G), List.map (node_color tv G) (nodes G)).
Proof.
  unfold encode, node_size, node_color.
  destruct (volumes_of tv G) as [| v vs]; [reflexivity |].
  rewrite (traverse_ok _
             (fun node => scale (py_min v vs)
                            (volume_range_of (py_min v vs) (py_max v vs))
                            (volume_of tv node))).
  - reflexivity.
  - intros node _. apply size_of_scale, py_min_le_max.
Qed.

Lemma combine_maps {A B C : Type} (f : A -> B) (g : A -> C) (l : list A) :
  combine l (combine (List.map f l) (List.map g l)) = List.map (fun x => (x, (f x, g x))) l.
Proof. induction l as [| x l IH]; simpl; [reflexivity | now rewrite IH]. Qed.

Lemma net_add_nodes_fresh (new : list net_node) :
  forall net,
    NoDup (List.map id new) ->
    (forall n m, In n new -> In m (net_nodes net) -> id m <> id n) ->
    let net' := fold_left (fun net n => net_add_node n net) new net in
    net_nodes net' = net_nodes net ++ new /\ net_edges net' = net_edges net.
Proof.
  induction new as [| n new IH]; simpl; intros net Hnd Hfresh.
  - now rewrite app_nil_r.
  - inversion Hnd as [| ? ? Hn Hnew]; subst.
    assert (Hadd : net_add_node n net
                   = {| net_nodes := net_nodes net ++ [n]; net_edges := net_edges net |}).
    { unfold net_add_node.
      destruct (existsb (fun m => String.eqb (id m) (id n)) (net_nodes net)) eqn:E;
        [| reflexivity].
      apply existsb_exists in E as [m [Hm E]]. apply String.eqb_eq in E.
      exfalso. apply (Hfresh n m); auto. }
    rewrite Hadd. destruct (IH {| net_nodes := net_nodes net ++ [n];
                                  net_edges := net_edges net |} Hnew) as [Hns Hes].
    + simpl. intros x m Hx Hm. apply in_app_iff in Hm as [Hm | [<- | []]].
      * apply Hfresh; auto.
      * intros Heq. apply Hn, list_elem_of_In. rewrite Heq. now apply in_map.
    + simpl in *. rewrite Hns, Hes, <- app_assoc. auto.
Qed.

Lemma net_add_edges_nodes (es : list (string * string * pyfloat)) :
  forall net,
    net_nodes (fold_left (fun net e => net_add_edge (make_edge e) net) es net)
    = net_nodes net.
Proof.
  induction es as [| e es IH]; simpl; intros net; [reflexivity |].
  rewrite IH. unfold net_add_edge. destruct (existsb _ (net_edges net)); reflexivity.
Qed.

(** The encoder never raises, and the network is built. *)
Lemma build_network_ok (tv : gmap string Q) (G : graph) :
  build_network tv G = Ok (network_of tv G).
Proof.
  unfold build_network, network_of. rewrite encode_nodes. simpl.
  rewrite combine_maps.
  rewrite (fold_left_mapped (fun net n => net_add_node n net) (make_node tv)).
  rewrite (fold_left_mapped (fun net n => net_add_node n net) (rendered_node tv G)).
  rewrite List.map_map. reflexivity.
Qed.

(** The nodes of the rendered network are the nodes of the graph, in order,
    each with its volume, size and colour. *)
Lemma net_nodes_network_of (tv : gmap string Q) (G : graph) :
  NoDup (nodes G) ->
  net_nodes (network_of tv G) = List.map (rendered_node tv G) (nodes G).
Proof.
  intros Hnd. unfold network_of. rewrite net_add_edges_nodes.
  rewrite (fold_left_mapped (fun net n => net_add_node n net) (rendered_node tv G)).
  destruct (net_add_nodes_fresh (List.map (rendered_node tv G) (nodes G)) empty_network)
    as [H _].
  - rewrite List.map_map. simpl. now rewrite List.map_id.
  - intros n m _ [].
  - simpl in H. exact H.
Qed.

Lemma raise_if_ok (e : option exn) : raise_if e = Ok tt <-> e = None.
Proof. destruct e; simpl; split; intros H; congruence. Qed.

Lemma result_unit (m : result unit) : (exists e, m = Raise e) \/ m = Ok tt.
Proof. destruct m as [[] | e]; eauto. Qed.

Lemma html_name_ok (name : string) : html_name name = true <-> check_html name = Ok tt.
Proof.
  unfold html_name. destruct (result_unit (check_html name)) as [[e ->] | ->];
    split; intros H; congruence.
Qed.

(** The steps of a call, in the order of the source: the sums, the network,
    the directory, the check of the name, the file. *)
Lemma plot_steps (fs : file_system) (df : list row) (output_html : string)
    (base_dir : option string) :
  plot_trader_bubblemap fs df output_html base_dir
  = (tv ← total_volume (dropna df);
     _ ← traverse (makedirs fs) (fst (output_target output_html base_dir));
     _ ← check_html (snd (output_target output_html base_dir));
     _ ← raise_if (open_error fs (snd (output_target output_html base_dir)));
     Ok {| printed_nodes := length (node_list (dropna df));
           printed_edges := length (dropna df);
           made_dirs := fst (output_target output_html base_dir);
           shown := network_of tv (build_graph (dropna df));
           shown_at := snd (output_target output_html base_dir);
           returned := snd (output_target output_html base_dir) |}).
Proof.
  unfold plot_trader_bubblemap.
  destruct (total_volume (dropna df)) as [tv |]; simpl; [| reflexivity].
  fold (build_graph (dropna df)). rewrite build_network_ok. simpl.
  destruct (output_target output_html base_dir) as [dirs path]. simpl.
  destruct (traverse (makedirs fs) dirs); simpl; [| reflexivity].
  unfold net_show. destruct (check_html path); simpl; [| reflexivity].
  destruct (raise_if (open_error fs path)); reflexivity.
Qed.

(** What a completed call did. *)
Lemma plot_inv (fs : file_system) (df : list row) (output_html : string)
    (base_dir : option string) (out : run) :
  plot_trader_bubblemap fs df output_html base_dir = Ok out ->
  exists tv,
    total_volume (dropna df) = Ok tv
    /\ shown out = network_of tv (build_graph (dropna df))
    /\ made_dirs out = fst (output_target output_html base_dir)
    /\ shown_at out = snd (output_target output_html base_dir)
    /\ returned out = snd (output_target output_html base_dir)
    /\ printed_nodes out = length (node_list (dropna df))
    /\ printed_edges out = length (dropna df).
Proof.
  rewrite plot_steps. intros H.
  destruct (total_volume (dropna df)) as [tv |]; simpl in H; [| discriminate].
  destruct (traverse (makedirs fs) _); simpl in H; [| discriminate].
  destruct (check_html _); simpl in H; [| discriminate].
  destruct (raise_if _); simpl in H; [| discriminate].
  inversion H; subst; simpl. exists tv. repeat split; reflexivity.
Qed.

(** A call completes exactly when the column is numeric, the file system
    lets the directory be made and the file be opened, and the name of the
    file passes the check of the network. *)
Lemma plot_completes (fs : file_system) (df : list row) (output_html : string)
    (base_dir : option string) :
  (exists out, plot_trader_bubblemap fs df output_html base_dir = Ok out)
  <-> numeric (dropna df) = true
      /\ html_name (snd (output_target output_html base_dir)) = true
      /\ writable fs output_html base_dir = true.
Proof.
  rewrite plot_steps. unfold writable, html_name. split.
  - intros [out H].
    destruct (total_volume (dropna df)) as [tv |] eqn:E; simpl in H; [| discriminate].
    apply total_volume_ok_numeric in E.
    destruct (traverse (makedirs fs) _); simpl in H; [| discriminate].
    destruct (check_html _); simpl in H; [| discriminate].
    destruct (open_error fs _); simpl in H; [discriminate |]. auto.
  - intros (Hn & Hh & Hw). destruct (total_volume_numeric _ Hn) as [tv ->]. simpl.
    destruct (traverse (makedirs fs) _); simpl; [| discriminate].
    destruct (check_html _); simpl; [| discriminate].
    destruct (open_error fs _); simpl; [discriminate |]. eauto.
Qed.

(** A call on a column that holds a text raises. *)
Lemma plot_raises_on_text (fs : file_system) (df : list row) (output_html : string)
    (base_dir : option string) :
  numeric (dropna df) = false ->
  plot_trader_bubblemap fs df output_html base_dir = Raise TypeError.
Proof.
  intros Hn. unfold plot_trader_bubblemap.
  destruct (total_volume (dropna df)) as [tv | e] eqn:E; simpl.
  - apply total_volume_ok_numeric in E. congruence.
  - f_equal. unfold total_volume in E.
    destruct (groupby_sum r_address (dropna df) ∅) as [vf | e1] eqn:E1; simpl in E.
    + apply groupby_sum_ok_numeric in E1. congruence.
    + inversion E; subst. clear -E1. revert E1. generalize (∅ : gmap string Q).
      induction (dropna df) as [| r rs IH]; simpl; intros acc H; [discriminate H |].
      destruct (r_total_usd_traded r); simpl in H; try (now apply IH in H).
      now inversion H.
Qed.

Lemma net_nodes_plot (fs : file_system) (df : list row) (output_html : string)
    (base_dir : option string) (out : run) :
  plot_trader_bubblemap fs df output_html base_dir = Ok out ->
  exists tv,
    total_volume (dropna df) = Ok tv
    /\ net_nodes (shown out)
       = List.map (rendered_node tv (build_graph (dropna df)))
           (nodes (build_graph (dropna df))).
Proof.
  intros H. apply plot_inv in H as (tv & Htv & Hshown & _).
  exists tv. split; [exact Htv |]. rewrite Hshown.
  apply net_nodes_network_of. apply build_graph_distinct_keys.
Qed.

End CallFacts.

(** ** Sizes, colours, empty frames and the output path *)

Module PlotFacts.
Import PyText Graph Binary64 Bubblemap ListFacts GraphFacts BuildFacts AggregateFacts
  Binary64Facts EncoderFacts EdgeFacts CallFacts.
Local Open Scope Q_scope.

Lemma volumes_of_In (tv : gmap string Q) (G : graph) (node : string) :
  In node (nodes G) -> In (volume_of tv node) (volumes_of tv G).
Proof. intros H. unfold volumes_of. now apply in_map. Qed.

Lemma title_volumes (tv : gmap string Q) (G : graph) :
  List.map title_volume (List.map (rendered_node tv G) (nodes G)) = volumes_of tv G.
Proof. rewrite List.map_map. reflexivity. Qed.

(** The size of a node of a graph, against any least and greatest volume. *)
Lemma size_of_node (tv : gmap string Q) (G : graph) (min_volume max_volume : Q) :
  is_min min_volume (volumes_of tv G) -> is_max max_volume (volumes_of tv G) ->
  forall node, In node (nodes G) ->
    let v := volume_of tv node in
    node_size tv G node = scaled_size min_volume max_volume v
    /\ min_volume <= v /\ v <= max_volume.
Proof.
  intros Hmin Hmax node Hnode v. subst v. unfold node_size.
  pose proof (volumes_of_In tv G node Hnode) as Hv.
  destruct (volumes_of tv G) as [| v0 vs]; [destruct Hv |].
  set (m0 := py_min v0 vs) in *. set (M0 := py_max v0 vs) in *.
  pose proof (py_min_is_min v0 vs) as Hm0. pose proof (py_max_is_max v0 vs) as HM0.
  fold m0 in Hm0. fold M0 in HM0.
  assert (Em : m0 == min_volume) by (eapply is_min_unique; eauto).
  assert (EM : M0 == max_volume) by (eapply is_max_unique; eauto).
  assert (Hlo : m0 <= volume_of tv node) by (apply Hm0, Hv).
  assert (Hhi : volume_of tv node <= M0) by (apply HM0, Hv).
  split; [| split; lra].
  rewrite volume_range_of_between, scale_scaled_size.
  unfold scaled_size, range_between.
  now rewrite (to_float_ext m0 min_volume Em), (to_float_ext M0 max_volume EM).
Qed.

(** C2, as the code computes it. In the network a completed call renders,
    the nodes are those of the graph with their aggregate volumes, and
    against the least volume [min_volume] and the greatest [max_volume]
    every node has the size [10 + 40 * (volume - min_volume) / range] of
    binary64 arithmetic ([scaled_size]: every operation rounds, [range] is
    the difference of the two or 1 when they are equal). When nothing
    overflows the size is at least 10 and at most one unit in the last place
    above 50, does not decrease when the volume grows, is exactly 10 at the
    least volume, lies within one unit in the last place of 50 at the
    greatest volume when the two differ, and is 10 for every node when they
    are equal. *)
Theorem node_sizes_rounded (fs : file_system) (df : list row) (output_html : string)
    (base_dir : option string) (out : run) :
  plot_trader_bubblemap fs df output_html base_dir = Ok out ->
  let ns := net_nodes (shown out) in
  List.map id ns = nodes (build_graph (dropna df))
  /\ (exists tv, total_volume (dropna df) = Ok tv
                 /\ forall n, In n ns -> title_volume n = volume_of tv (id n))
  /\ forall min_volume max_volume,
       is_min min_volume (List.map title_volume ns) ->
       is_max max_volume (List.map title_volume ns) ->
       forall n, In n ns ->
         size n = scaled_size min_volume max_volume (title_volume n)
         /\ (no_overflow min_volume max_volume = true ->
             float_le (PFin 10) (size n) = true
             /\ float_le (size n) (PFin size_ceiling) = true
             /\ (forall n', In n' ns -> title_volume n <= title_volume n' ->
                            float_le (size n) (size n') = true)
             /\ (title_volume n == min_volume -> size n = PFin 10)
             /\ (float_eq (to_float max_volume) (to_float min_volume) = false ->
                 title_volume n == max_volume ->
                 float_le (PFin size_floor) (size n) = true)
             /\ (float_eq (to_float max_volume) (to_float min_volume) = true ->
                 size n = PFin 10)).
Proof.
  intros H ns. destruct (net_nodes_plot _ _ _ _ _ H) as (tv & Htv & Hns).
  subst ns. rewrite Hns. clear Hns H. set (G := build_graph (dropna df)).
  split; [| split].
  - rewrite List.map_map. simpl. apply List.map_id.
  - exists tv. split; [exact Htv |]. intros n Hn.
    apply in_map_iff in Hn as [node [<- _]]. reflexivity.
  - intros min_volume max_volume Hmin Hmax n Hn.
    rewrite title_volumes in Hmin, Hmax.
    apply in_map_iff in Hn as [node [<- Hnode]]. simpl.
    destruct (size_of_node tv G min_volume max_volume Hmin Hmax node Hnode)
      as (Hs & Hlo & Hhi).
    assert (Hmm : min_volume <= max_volume) by lra.
    split; [exact Hs |]. intros Hno. rewrite Hs.
    destruct (no_overflow_inv _ _ Hmm Hno) as (a & b & q & c & El & Eh & _ & Er & _).
    assert (Fl : is_finite (to_float min_volume) = true) by now rewrite El.
    assert (Fr : is_finite (range_between min_volume max_volume) = true) by now rewrite Er.
    split; [now apply scaled_size_lower |].
    split; [now apply scaled_size_upper |].
    split; [| split; [| split]].
    + intros n' Hn' Hle. apply in_map_iff in Hn' as [node' [<- Hnode']]. simpl in *.
      destruct (size_of_node tv G min_volume max_volume Hmin Hmax node' Hnode')
        as (Hs' & _).
      rewrite Hs'. now apply scaled_size_mono.
    + intros Hv. now apply scaled_size_at_min.
    + intros E Hv. now apply scaled_size_at_max.
    + intros E. now apply scaled_size_all_equal.
Qed.


(** *** The output path *)

Lemma path_join_empty (b : string) : path_join "" b = b.
Proof. unfold path_join. destruct (String.prefix "/" b); reflexivity. Qed.

Lemma output_target_path (output_html : string) (base_dir : option string) :
  snd (output_target output_html base_dir) = resolved_path output_html base_dir.
Proof.
  destruct base_dir as [d |]; simpl; [| reflexivity].
  destruct (String.eqb d "") eqn:E; simpl; [| reflexivity].
  apply String.eqb_eq in E. subst d. now rewrite path_join_empty.
Qed.

Lemma output_target_dirs (output_html : string) (base_dir : option string) :
  fst (output_target output_html base_dir) =
    match base_dir with
    | Some d => if String.eqb d "" then [] else [d]
    | None => []
    end.
Proof.
  destruct base_dir as [d |]; simpl; [| reflexivity].
  destruct (String.eqb d ""); reflexivity.
Qed.

(** C8. A call completes exactly when the column is numeric, the resolved
    path passes the check of the network (it ends with [.html]) and the
    file system lets [base_dir] be made and the file be opened. A call that
    completes writes the network to the path it returns; that path is
    [os.path.join(base_dir, output_html)] when [base_dir] is given and
    [output_html] alone when it is [None]; a [base_dir] that names a
    directory is created first, and nothing else is; the default file name
    is [bubblemap.html]. *)
Theorem output_path_resolved (fs : file_system) (df : list row) (output_html : string)
    (base_dir : option string) :
  ((exists out, plot_trader_bubblemap fs df output_html base_dir = Ok out)
   <-> numeric (dropna df) = true
       /\ html_name (resolved_path output_html base_dir) = true
       /\ writable fs output_html base_dir = true)
  /\ (forall out, plot_trader_bubblemap fs df output_html base_dir = Ok out ->
        shown_at out = returned out
        /\ (forall d, base_dir = Some d ->
              returned out = path_join d output_html
              /\ (d <> ""%string -> made_dirs out = [d])
              /\ (d = ""%string -> made_dirs out = []))
        /\ (base_dir = None -> returned out = output_html /\ made_dirs out = []))
  /\ default_output_html = "bubblemap.html"%string.
Proof.
  split; [| split; [| reflexivity]].
  - rewrite plot_completes, output_target_path. reflexivity.
  - intros out H. apply plot_inv in H as (tv & _ & _ & Hd & Hs & Hr & _).
    rewrite output_target_path in Hs, Hr. rewrite output_target_dirs in Hd.
    split; [congruence | split].
    + intros d ->. simpl in *. split; [exact Hr | split].
      * intros Hne. apply String.eqb_neq in Hne. now rewrite Hne in Hd.
      * intros ->. exact Hd.
    + intros ->. auto.
Qed.

(** *** Frames without edge rows *)

(** C4, as the code has it. When every row lacks its [target_address], as
    node rows do, no row is retained: the graph has no node and no edge.
    The call completes as soon as the resolved path ends with [.html] and
    the file system lets the file be written, and a call that completes
    has written the empty network to the resolved output path. *)
Theorem node_rows_only_empty_graph (fs : file_system) (df : list row)
    (output_html : string) (base_dir : option string) :
  (forall r, In r df -> target_address r = None) ->
  dropna df = []
  /\ nodes (build_graph (dropna df)) = []
  /\ edges (build_graph (dropna df)) = []
  /\ (html_name (resolved_path output_html base_dir) = true ->
      writable fs output_html base_dir = true ->
      exists out, plot_trader_bubblemap fs df output_html base_dir = Ok out)
  /\ (forall out, plot_trader_bubblemap fs df output_html base_dir = Ok out ->
        shown out = empty_network
        /\ shown_at out = resolved_path output_html base_dir
        /\ returned out = resolved_path output_html base_dir).
Proof.
  intros H. pose proof (dropna_missing_target df H) as Hdf. rewrite Hdf.
  split; [reflexivity | split; [reflexivity | split; [reflexivity | split]]].
  - intros Hh Hw. apply plot_completes. rewrite Hdf, output_target_path. auto.
  - intros out Hout.
    apply plot_inv in Hout as (tv & _ & Hshown & _ & Hs & Hr & _).
    rewrite Hdf in Hshown. rewrite output_target_path in Hs, Hr. auto.
Qed.

(** *** Texts in the column *)

(** C6, against the code. A text in [total_usd_traded] of a retained row
    makes the call raise [TypeError], whatever the text, the file name and
    the file system: the arithmetic on the volumes (the fill value 0 added
    at line 51, the order and the subtraction of lines 81-89) does not take
    a text, and the conversion of lines 68-71 with its fallback weight 1
    does not save the call. No call returns with a weight read from a text,
    and nothing is written. *)
Theorem text_value_aborts_call (fs : file_system) (df : list row) (output_html : string)
    (base_dir : option string) (r : retained) :
  In r (dropna df) -> is_text (r_total_usd_traded r) = true ->
  plot_trader_bubblemap fs df output_html base_dir = Raise TypeError.
Proof.
  intros Hr Ht. apply plot_raises_on_text.
  destruct (numeric (dropna df)) eqn:E; [| reflexivity].
  unfold numeric in E. rewrite forallb_forall in E.
  specialize (E r Hr). rewrite Ht in E. discriminate E.
Qed.

(** *** Volume keys and nodes *)

Lemma total_volume_keys (df : list retained) (tv : gmap string Q) (A : string) :
  total_volume df = Ok tv -> (is_Some (tv !! A) <-> In A (ravel df)).
Proof.
  intros H. split.
  - intros Hs. apply total_volume_inv in H as (vf & vt & Hf & Ht & ->).
    rewrite series_add_lookup in Hs. apply in_ravel.
    pose proof (groupby_sum_keys r_address df A _ _ Hf) as Kf.
    pose proof (groupby_sum_keys r_target_address df A _ _ Ht) as Kt.
    rewrite lookup_empty in Kf, Kt.
    destruct (vf !! A) eqn:Ef.
    + destruct (proj1 Kf) as [[? ?] | [r [? ?]]]; [eauto | discriminate | eauto].
    + destruct (vt !! A) eqn:Et; [| destruct Hs; discriminate].
      destruct (proj1 Kt) as [[? ?] | [r [? ?]]]; [eauto | discriminate | eauto].
  - intros Hin. destruct (total_volume_lookup df tv A H Hin) as [v [Hv _]]. eauto.
Qed.

(** C9. Every node of the graph is a key of the volume mapping (and every
    key is a node), so the lookup never falls back on its default of zero;
    the list of volumes is empty, which is what sends [encode] to its
    default sizes and colours, only when the graph has no node. *)
Theorem volume_default_unused (df : list row) (tv : gmap string Q) :
  total_volume (dropna df) = Ok tv ->
  let G := build_graph (dropna df) in
  (forall node, In node (nodes G) <-> is_Some (tv !! node))
  /\ (forall node, In node (nodes G) ->
        exists v, tv !! node = Some v /\ volume_of tv node = v)
  /\ (volumes_of tv G = [] <-> nodes G = [])
  /\ (nodes G = [] <-> dropna df = [])
  /\ (volumes_of tv G = [] -> encode tv G = Ok ([], [])).
Proof.
  intros H G. subst G.
  assert (Hkeys : forall node, In node (nodes (build_graph (dropna df)))
                               <-> is_Some (tv !! node)).
  { intros node. rewrite nodes_build_graph, node_list_In. symmetry.
    now apply total_volume_keys. }
  split; [exact Hkeys | split; [| split; [| split]]].
  - intros node Hnode. apply Hkeys in Hnode as [v Hv]. exists v.
    unfold volume_of. now rewrite Hv.
  - unfold volumes_of. split; [apply map_eq_nil | intros ->; reflexivity].
  - rewrite nodes_build_graph. split.
    + intros Hn. destruct (dropna df) as [| r rs]; [reflexivity |].
      assert (Hin : In (r_address r) (node_list (r :: rs))).
      { apply node_list_In. simpl. now left. }
      rewrite Hn in Hin. destruct Hin.
    + intros ->. reflexivity.
  - intros Hv. unfold encode. rewrite Hv.
    unfold volumes_of in Hv. apply map_eq_nil in Hv. now rewrite Hv.
Qed.

End PlotFacts.

(** ** The statements at work on the sample frames *)

Module SampleFacts.
Import PyText Binary64 PyFloat Graph Bubblemap Samples.
Import AggregateFacts EdgeFacts PlotFacts.

Ltac by_computation :=
  vm_compute; first [reflexivity | discriminate | (intros ?; discriminate)].

Ltac in_list :=
  simpl; repeat (first [left; reflexivity | right]).

(** The frame of two chained edges: volumes 100, 400 and 300, median 300,
    sizes 10, 50 and 36.66666666666667. *)
Example chain_frame_network :
  List.map (fun n => (id n, label n, Qred (title_volume n), size n, color n))
    (net_nodes (shown (run_or_empty chain_frame default_output_html None)))
  = [("0xA", "0xA...0xA", 100%Q, PFin 10, "#1E90FF");
     ("0xB", "0xB...0xB", 400%Q, PFin 50, "#FF4500");
     ("0xC", "0xC...0xC", 300%Q, PFin (2580187286514347 # 70368744177664), "#FF4500")]
  /\ net_edges (shown (run_or_empty chain_frame default_output_html None))
     = [{| source := "0xA"; to := "0xB"; value := PFin 100 |};
        {| source := "0xB"; to := "0xC"; value := PFin 300 |}].
Proof. split; vm_compute; reflexivity. Qed.

(** Values 0.3 and 0.9: the middle node has the volume 1.2 and the size
    50.00000000000001, the last one 36.66666666666667. *)
Example decimal_frame_sizes :
  List.map (fun n => (id n, size n))
    (net_nodes (shown (run_or_empty decimal_frame default_output_html None)))
  = [("0xA", PFin 10); ("0xB", PFin size_ceiling);
     ("0xC", PFin (2580187286514347 # 70368744177664))].
Proof. vm_compute. reflexivity. Qed.

(** The sizes depend on the unit of the values: volumes 0 and
    1.7500000000000027 give 50.00000000000001, three times these give 50. *)
Example unit_changes_sizes :
  List.map size (net_nodes (shown (run_or_empty rounding_frame default_output_html None)))
  = [PFin 10; PFin 10; PFin size_ceiling; PFin size_ceiling]
  /\ List.map size
       (net_nodes (shown (run_or_empty tripled_frame default_output_html None)))
     = [PFin 10; PFin 10; PFin 50; PFin 50].
Proof. split; vm_compute; reflexivity. Qed.

(** A text in the column makes the aggregation raise. *)
Example text_column_raises :
  plot_trader_bubblemap open_disk [edge_row "0xA" "0xB" (CStr "N/A")]
    default_output_html None
  = Raise TypeError.
Proof. reflexivity. Qed.

(** A column of [None]: the weights fall back to 1 and the call completes. *)
Example none_column_weight_one :
  net_edges (shown (run_or_empty [edge_row "0xA" "0xB" CNone] default_output_html None))
  = [{| source := "0xA"; to := "0xB"; value := PFin 1 |}].
Proof. vm_compute. reflexivity. Qed.

(** What lines 68-71 make of a text, taken alone: commas are dropped, the
    number is rounded to binary64, too large a number is infinite, and a
    text that is no number gives 1. *)
Example weights_of_texts :
  edge_weight (CStr "1,234.5") = PFin (2469 # 2)
  /\ edge_weight (CStr "0.3") = PFin (5404319552844595 # 18014398509481984)
  /\ edge_weight (CStr "1e400") = PInf false
  /\ edge_weight (CStr "-1e-400") = PFin 0
  /\ edge_weight (CStr "N/A") = PFin 1.
Proof. repeat split; vm_compute; reflexivity. Qed.

(** A file name that does not end with [.html] is refused once the
    directory is made; a directory that is missing makes the write fail. *)
Example file_errors :
  plot_trader_bubblemap open_disk chain_frame "map.txt" None
  = Raise (AssertionError "map.txt is not a valid html file")
  /\ plot_trader_bubblemap open_disk chain_frame "" None
     = Raise (AssertionError "invalid file type for ")
  /\ plot_trader_bubblemap bare_disk chain_frame "sub/map.html" None
     = Raise (OSError "FileNotFoundError")
  /\ plot_trader_bubblemap bare_disk chain_frame "map.html" (Some "out")
     = Raise (OSError "PermissionError").
Proof. repeat split; vm_compute; reflexivity. Qed.


Lemma node_sizes_rounded_witness :
  exists out n,
    plot_trader_bubblemap open_disk chain_frame default_output_html None = Ok out
    /\ In n (net_nodes (shown out)) /\ id n = "0xC"
    /\ size n = PFin (2580187286514347 # 70368744177664)
    /\ float_le (PFin 10) (size n) = true
    /\ float_le (size n) (PFin size_ceiling) = true.
Proof.
  pose (out := run_or_empty chain_frame default_output_html None).
  assert (E : plot_trader_bubblemap open_disk chain_frame default_output_html None = Ok out)
    by by_computation.
  pose (n := nth 2 (net_nodes (shown out)) empty_node).
  assert (Hn : In n (net_nodes (shown out))) by (vm_compute; in_list).
  destruct (node_sizes_rounded _ _ _ _ _ E) as (_ & _ & Hsize).
  destruct (Hsize 100%Q 400%Q) with (n := n) as (Hs & Hrest).
  - split.
    + exists 100%Q. split; [vm_compute; in_list | reflexivity].
    + intros x Hx. vm_compute in Hx.
      repeat (destruct Hx as [<- | Hx]; [by_computation |]). destruct Hx.
  - split.
    + exists 400%Q. split; [vm_compute; in_list | reflexivity].
    + intros x Hx. vm_compute in Hx.
      repeat (destruct Hx as [<- | Hx]; [by_computation |]). destruct Hx.
  - exact Hn.
  - destruct Hrest as (Hlo & Hhi & _); [by_computation |].
    exists out, n. split; [exact E | split; [exact Hn | split; [reflexivity |]]].
    split; [rewrite Hs; by_computation | split; [exact Hlo | exact Hhi]].
Defined.

(** The claim C2 makes fails on two separate edges with volumes 0 and
    1.7500000000000027: the two nodes of greatest volume get the size
    50.00000000000001, one unit in the last place above 50. With volumes 0
    and [2 ^ 1023] the product by 40 overflows and the size is infinite. *)
Lemma greatest_volume_above_50 :
  (exists out n,
     plot_trader_bubblemap open_disk rounding_frame default_output_html None = Ok out
     /\ In n (net_nodes (shown out)) /\ id n = "0xC"
     /\ (forall n', In n' (net_nodes (shown out)) ->
                    (title_volume n' <= title_volume n)%Q)
     /\ (exists n', In n' (net_nodes (shown out))
                    /\ ~ (title_volume n' == title_volume n)%Q)
     /\ size n = PFin size_ceiling
     /\ float_le (size n) (PFin 50) = false)
  /\ (exists out n,
        plot_trader_bubblemap open_disk huge_frame default_output_html None = Ok out
        /\ In n (net_nodes (shown out)) /\ id n = "0xC"
        /\ size n = PInf false).
Proof.
  split.
  - pose (out := run_or_empty rounding_frame default_output_html None).
    pose (n := nth 2 (net_nodes (shown out)) empty_node).
    exists out, n.
    split; [by_computation |]. split; [vm_compute; in_list |].
    split; [reflexivity |]. split; [| split; [| split]].
    + intros n' Hn'. vm_compute in Hn'.
      repeat (destruct Hn' as [<- | Hn']; [by_computation |]). destruct Hn'.
    + exists (nth 0 (net_nodes (shown out)) empty_node).
      split; [vm_compute; in_list | by_computation].
    + by_computation.
    + by_computation.
  - pose (out := run_or_empty huge_frame default_output_html None).
    pose (n := nth 2 (net_nodes (shown out)) empty_node).
    exists out, n.
    split; [by_computation |]. split; [vm_compute; in_list |].
    split; [reflexivity | by_computation].
Qed.


Lemma node_rows_only_empty_graph_witness :
  exists out,
    plot_trader_bubblemap open_disk nodes_only_frame default_output_html None = Ok out
    /\ shown out = empty_network /\ returned out = "bubblemap.html".
Proof.
  destruct (node_rows_only_empty_graph open_disk nodes_only_frame default_output_html None)
    as (_ & _ & _ & Hok & Hout).
  - intros r Hr. simpl in Hr. repeat (destruct Hr as [<- | Hr]; [reflexivity |]).
    destruct Hr.
  - destruct Hok as [out E]; [reflexivity | reflexivity |].
    destruct (Hout out E) as (Hshown & _ & Hret).
    exists out. auto.
Defined.

(** The claim C4 makes fails on a frame of two node rows: each row is a
    node row without a [target_address], and neither address becomes a node
    of the graph. *)
Lemma node_rows_are_dropped :
  (forall r, In r nodes_only_frame -> type r = "node" /\ target_address r = None)
  /\ omap address nodes_only_frame = ["0xA"; "0xB"]
  /\ nodes (build_graph (dropna nodes_only_frame)) = []
  /\ plot_trader_bubblemap open_disk nodes_only_frame default_output_html None
     = Ok {| printed_nodes := 0; printed_edges := 0; made_dirs := [];
             shown := empty_network; shown_at := "bubblemap.html";
             returned := "bubblemap.html" |}
  /\ ~ (forall r a, In r nodes_only_frame -> address r = Some a ->
                    In a (nodes (build_graph (dropna nodes_only_frame)))).
Proof.
  repeat split; try reflexivity.
  - simpl in H. repeat (destruct H as [<- | H]; [reflexivity |]). destruct H.
  - simpl in H. repeat (destruct H as [<- | H]; [reflexivity |]). destruct H.
  - intros H. apply (H (node_row "0xA" (CNum 100)) "0xA"); [now left | reflexivity].
Qed.

Lemma duplicate_rows_last_write_wins_witness :
  exists r,
    In r (dropna repeated_frame)
    /\ (List.filter (between "0xA" "0xB") (edges (build_graph (dropna repeated_frame)))
        = [("0xA", "0xB", edge_weight (r_total_usd_traded r))]
        \/ List.filter (between "0xA" "0xB") (edges (build_graph (dropna repeated_frame)))
           = [("0xB", "0xA", edge_weight (r_total_usd_traded r))]).
Proof.
  destruct (duplicate_rows_last_write_wins repeated_frame
              (retained_edge "0xA" "0xB" (CNum 100)) (retained_edge "0xB" "0xA" (CNum 7)))
    as (pre & r & post & Hdf & _ & _ & Hedges).
  - in_list.
  - in_list.
  - reflexivity.
  - exists r. split; [| exact Hedges]. rewrite Hdf. apply in_elt.
Defined.

(** On that frame the edge between the two addresses carries 30, the value
    of the last of the three rows. *)
Example repeated_frame_edges :
  edges (build_graph (dropna repeated_frame))
  = [("0xA", "0xB", PFin 30); ("0xB", "0xC", PFin 1); ("0xC", "0xC", PFin 5)].
Proof. vm_compute. reflexivity. Qed.

Lemma self_loops_preserved_witness :
  exists w, In ("0xC", "0xC", w) (edges (build_graph (dropna repeated_frame))).
Proof.
  destruct (self_loops_preserved repeated_frame (edge_row "0xC" "0xC" (CNum 5)) "0xC")
    as (_ & _ & w & _ & Hin).
  - in_list.
  - reflexivity.
  - reflexivity.
  - exists w. exact Hin.
Defined.

Lemma text_value_aborts_call_witness :
  plot_trader_bubblemap open_disk
    [edge_row "0xA" "0xB" (CStr "N/A"); edge_row "0xB" "0xC" (CStr "1,234.5")]
    default_output_html None
  = Raise TypeError.
Proof.
  apply (text_value_aborts_call open_disk _ default_output_html None
           (retained_edge "0xA" "0xB" (CStr "N/A"))).
  - in_list.
  - reflexivity.
Defined.

Lemma output_path_resolved_witness :
  exists out,
    plot_trader_bubblemap open_disk chain_frame "map.html" (Some "out") = Ok out
    /\ returned out = "out/map.html" /\ made_dirs out = ["out"].
Proof.
  destruct (output_path_resolved open_disk chain_frame "map.html" (Some "out"))
    as (Hok & Hpath & _).
  destruct (proj2 Hok) as [out Hout]; [repeat split; reflexivity |].
  destruct (Hpath out Hout) as (_ & Hsome & _).
  destruct (Hsome "out" eq_refl) as (Hret & Hdir & _).
  exists out. repeat split; [exact Hout | exact Hret |].
  apply Hdir. discriminate.
Defined.

Lemma volume_default_unused_witness :
  exists v, volume_or_empty chain_frame !! "0xC" = Some v
            /\ volume_of (volume_or_empty chain_frame) "0xC" = v.
Proof.
  destruct (volume_default_unused chain_frame (volume_or_empty chain_frame))
    as (_ & Hnode & _).
  - by_computation.
  - apply Hnode. vm_compute. in_list.
Defined.

End SampleFacts.

(** ** More on the built graph and the rendered network *)

Module GraphMore.
Import PyText PyFloat Graph Bubblemap Notions ListFacts GraphFacts BuildFacts AggregateFacts
  EdgeFacts CallFacts.

Lemma same_ends_spec (u v x y : string) :
  same_ends u v x y = true <-> (x = u /\ y = v) \/ (x = v /\ y = u).
Proof.
  unfold same_ends. rewrite orb_true_iff, !andb_true_iff, !String.eqb_eq. tauto.
Qed.

Lemma same_ends_refl (u v : string) : same_ends u v u v = true.
Proof. apply same_ends_spec. auto. Qed.

(** Two pairs that one row joins are the same pair. *)
Lemma joins_same_pair (u v u' v' : string) (r : retained) :
  joins u v r = true -> joins u' v' r = true -> same_ends u v u' v' = true.
Proof.
  unfold joins. rewrite !same_ends_spec.
  intros [[? ?] | [? ?]] [[? ?] | [? ?]]; subst; auto.
Qed.

(** A reported edge is stored. *)
Lemma edges_from_stored (u v : string) (w : pyfloat) (G : graph) :
  forall seen, distinct_keys G -> In (u, v, w) (edges_from seen G) -> adj_get G u v = Some w.
Proof.
  induction G as [| [n nbrs] G IH]; simpl; intros seen [Hn Hi] He; [destruct He |].
  inversion Hn as [| ? ? Hfresh HnG]; subst. inversion Hi as [| ? ? Hnbrs HiG]; subst.
  apply in_app_iff in He as [He | He].
  - unfold reported in He. apply in_map_iff in He as [e [Heq He]].
    inversion Heq; subst. apply filter_In in He as [He _].
    unfold adj_get. simpl. rewrite String.eqb_refl.
    apply od_In_get; [exact Hnbrs | now destruct e].
  - assert (Hu : adj_get G u v = Some w) by (apply (IH (n :: seen)); [now split | exact He]).
    unfold adj_get in *. simpl.
    destruct (String.eqb u n) eqn:E; [| exact Hu].
    apply String.eqb_eq in E. subst n.
    destruct (od_get u G) eqn:E'; [| discriminate].
    apply od_get_Some_keys in E'. exfalso. now apply Hfresh, list_elem_of_In.
Qed.

Lemma edges_stored (G : graph) (u v : string) (w : pyfloat) :
  distinct_keys G -> In (u, v, w) (edges G) -> adj_get G u v = Some w.
Proof. intros Hd He. now apply (edges_from_stored u v w G []). Qed.

(** The weight kept for a pair is that of the last row that joins it. *)
Lemma last_weight_Some_inv (a b : string) (df : list retained) (w : pyfloat) :
  last_weight a b df = Some w ->
  exists pre r post, df = pre ++ r :: post /\ joins a b r = true
                     /\ (forall x, In x post -> joins a b x = false)
                     /\ w = edge_weight (r_total_usd_traded r).
Proof.
  intros H. destruct (existsb (joins a b) df) eqn:E.
  - apply existsb_exists in E.
    destruct (last_joining_row a b df E) as (pre & r & post & Hdf & Hr & Hpost).
    exists pre, r, post. repeat split; auto.
    rewrite Hdf, (last_weight_last a b pre post r Hr Hpost) in H. now inversion H.
  - rewrite last_weight_None in H; [discriminate |].
    intros r Hr. destruct (joins a b r) eqn:Er; [| reflexivity].
    rewrite <- E. symmetry. apply existsb_exists. eauto.
Qed.

(** At most one edge is reported between two addresses. *)
Lemma edges_at_most_one (df : list retained) (a b : string) :
  length (List.filter (between a b) (edges (build_graph df))) <= 1.
Proof.
  destruct (last_weight a b df) as [w |] eqn:E.
  - destruct (edges_of_pair df a b w E) as [-> | ->]; simpl; lia.
  - rewrite no_edge_without_row; [simpl; lia |].
    intros r Hr. destruct (joins a b r) eqn:Er; [| reflexivity].
    destruct (last_joining_row a b df) as (pre & r' & post & Hdf & Hr' & Hpost); [eauto |].
    rewrite Hdf, (last_weight_last a b pre post r' Hr' Hpost) in E. discriminate.
Qed.

Lemma filter_length_lt {A : Type} (p : A -> bool) (l : list A) (x : A) :
  In x l -> p x = false -> length (List.filter p l) < length l.
Proof.
  induction l as [| y l IH]; simpl; intros Hin Hp; [destruct Hin |].
  pose proof (List.filter_length_le p l) as Hle.
  destruct Hin as [-> | Hin].
  - rewrite Hp. lia.
  - specialize (IH Hin Hp). destruct (p y); simpl; lia.
Qed.

(** Edges on distinct pairs, each joined by a row, are no more than the rows. *)
Lemma pairs_no_more_than_rows (L : list (string * string * pyfloat)) :
  forall D : list retained,
    (forall a b, length (List.filter (between a b) L) <= 1) ->
    (forall e, In e L -> exists r, In r D /\ joins (fst (fst e)) (snd (fst e)) r = true) ->
    length L <= length D.
Proof.
  induction L as [| [[u v] w] L IH]; simpl; intros D Hone Hrow; [lia |].
  set (D' := List.filter (fun r => negb (joins u v r)) D).
  assert (Hlt : length D' < length D).
  { destruct (Hrow (u, v, w)) as [r [Hr Hj]]; [now left |]. simpl in Hj.
    apply (filter_length_lt _ D r Hr). now rewrite Hj. }
  assert (HL : length L <= length D'); [| lia].
  apply IH.
  - intros a b. specialize (Hone a b). destruct (between a b (u, v, w)); simpl in Hone; lia.
  - intros e He. destruct (Hrow e) as [r [Hr Hj]]; [now right |].
    exists r. split; [| exact Hj]. apply filter_In. split; [exact Hr |].
    destruct (joins u v r) eqn:Ej; [| reflexivity]. exfalso.
    specialize (Hone u v). unfold between at 1 in Hone. simpl in Hone.
    rewrite same_ends_refl in Hone. simpl in Hone.
    assert (Hin : In e (List.filter (between u v) L)).
    { apply filter_In. split; [exact He |]. unfold between.
      eapply joins_same_pair; eauto. }
    destruct (List.filter (between u v) L); [destruct Hin | simpl in Hone; lia].
Qed.

(** An edge of the built graph has a last row that joins its ends. *)
Lemma edge_last_row (d : list retained) (u v : string) (w : pyfloat) :
  In (u, v, w) (edges (build_graph d)) ->
  exists pre r post,
    d = pre ++ r :: post
    /\ joins u v r = true
    /\ (forall x, In x post -> joins u v x = false)
    /\ w = edge_weight (r_total_usd_traded r).
Proof.
  intros He. apply edges_stored in He; [| apply build_graph_distinct_keys].
  rewrite adj_get_build_graph in He. now apply last_weight_Some_inv.
Qed.

Lemma edges_count (d : list retained) : length (edges (build_graph d)) <= length d.
Proof.
  apply pairs_no_more_than_rows.
  - intros a b. apply edges_at_most_one.
  - intros [[u v] w] He. simpl.
    destruct (edge_last_row d u v w He) as (pre & r & post & Hdf & Hr & _).
    exists r. split; [rewrite Hdf; apply in_elt | exact Hr].
Qed.

(** X1. The nodes of the graph are the addresses of the retained rows, each
    once: adding the edges adds no node to the list built from the two
    address columns and leaves its order alone. *)
Theorem graph_nodes_are_addresses (df : list row) :
  let G := build_graph (dropna df) in
  nodes G = node_list (dropna df)
  /\ NoDup (nodes G)
  /\ forall a, In a (nodes G)
               <-> exists r, In r (dropna df) /\ (r_address r = a \/ r_target_address r = a).
Proof.
  intros G. subst G. rewrite nodes_build_graph.
  split; [reflexivity | split; [apply node_list_NoDup |]].
  intros a. rewrite node_list_In. apply in_ravel.
Qed.

(** X2. Every edge of the graph joins two nodes of the graph and comes from a
    retained row: the last row, in input order, that joins its two ends, whose
    parsed weight it carries. *)
Theorem edges_come_from_rows (df : list row) (u v : string) (w : pyfloat) :
  In (u, v, w) (edges (build_graph (dropna df))) ->
  In u (nodes (build_graph (dropna df)))
  /\ In v (nodes (build_graph (dropna df)))
  /\ exists pre r post,
       dropna df = pre ++ r :: post
       /\ joins u v r = true
       /\ (forall x, In x post -> joins u v x = false)
       /\ w = edge_weight (r_total_usd_traded r).
Proof.
  intros He.
  destruct (edge_last_row _ u v w He) as (pre & r & post & Hdf & Hr & Hpost & Hw).
  assert (Hin : In r (dropna df)) by (rewrite Hdf; apply in_elt).
  pose proof Hr as Hends. unfold joins in Hends. apply same_ends_spec in Hends.
  rewrite nodes_build_graph, !node_list_In, !in_ravel.
  split; [| split].
  - exists r. split; [exact Hin |]. destruct Hends as [[? ?] | [? ?]]; auto.
  - exists r. split; [exact Hin |]. destruct Hends as [[? ?] | [? ?]]; auto.
  - exists pre, r, post. auto.
Qed.

Lemma edges_come_from_rows_witness :
  In "0xB" (nodes (build_graph (dropna Samples.repeated_frame)))
  /\ In "0xC" (nodes (build_graph (dropna Samples.repeated_frame))).
Proof.
  destruct (edges_come_from_rows Samples.repeated_frame "0xB" "0xC" (PFin 1))
    as (Hu & Hv & _).
  - vm_compute. right. left. reflexivity.
  - split; [exact Hu | exact Hv].
Defined.

(** X3. The graph has no more edges than there are retained rows, so the
    number of edges the message prints, which counts the rows, is an upper
    bound of the number of edges built. *)
Theorem edges_no_more_than_rows (fs : file_system) (df : list row) (output_html : string)
    (base_dir : option string) :
  length (edges (build_graph (dropna df))) <= length (dropna df)
  /\ forall out, plot_trader_bubblemap fs df output_html base_dir = Ok out ->
                 length (edges (build_graph (dropna df))) <= printed_edges out.
Proof.
  split; [apply edges_count |].
  intros out H. apply plot_inv in H as (tv & _ & _ & _ & _ & _ & _ & Hpe).
  rewrite Hpe. apply edges_count.
Qed.

(** *** The edges of the rendered network *)

Lemma same_net_edge_between (e f : string * string * pyfloat) :
  same_net_edge (make_edge e) (make_edge f) = true ->
  between (fst (fst e)) (snd (fst e)) f = true.
Proof.
  destruct e as [[u v] w], f as [[x y] w']. unfold same_net_edge, between. simpl.
  rewrite same_ends_spec, orb_true_iff, !andb_true_iff, !String.eqb_eq.
  intros [[? ?] | [? ?]]; subst; auto.
Qed.

Lemma net_add_edges_apart (es : list (string * string * pyfloat)) :
  forall (done : list (string * string * pyfloat)) (net : network),
    net_edges net = List.map make_edge done ->
    (forall a b, length (List.filter (between a b) (done ++ es)) <= 1) ->
    net_edges (fold_left (fun net e => net_add_edge (make_edge e) net) es net)
    = List.map make_edge (done ++ es).
Proof.
  induction es as [| e es IH]; simpl; intros done net Hnet Hone.
  - now rewrite app_nil_r.
  - assert (Hadd : net_edges (net_add_edge (make_edge e) net)
                   = List.map make_edge (done ++ [e])).
    { unfold net_add_edge.
      destruct (existsb _ (net_edges net)) eqn:E.
      - exfalso. apply existsb_exists in E as [f' [Hf' Hsame]].
        rewrite Hnet in Hf'. apply in_map_iff in Hf' as [f [<- Hf]].
        fold (same_net_edge (make_edge e) (make_edge f)) in Hsame.
        apply same_net_edge_between in Hsame.
        specialize (Hone (fst (fst e)) (snd (fst e))).
        rewrite List.filter_app in Hone. simpl in Hone.
        unfold between at 2 in Hone. rewrite same_ends_refl in Hone.
        assert (Hin : In f (List.filter (between (fst (fst e)) (snd (fst e))) done))
          by (apply filter_In; auto).
        rewrite length_app in Hone. simpl in Hone.
        destruct (List.filter (between (fst (fst e)) (snd (fst e))) done);
          [destruct Hin | simpl in Hone; lia].
      - simpl. now rewrite Hnet, List.map_app. }
    rewrite (IH (done ++ [e])); [now rewrite <- app_assoc | exact Hadd |].
    intros a b. rewrite <- app_assoc. apply Hone.
Qed.

(** X4. The network a completed call renders has the edges the graph reports,
    in order, each with its weight as value: no edge is dropped as a duplicate
    when the network is filled. Its edges are therefore no more than the
    number of edges the message prints, and its nodes are as many as the
    message prints. *)
Theorem rendered_edges_are_graph_edges (fs : file_system) (df : list row)
    (output_html : string) (base_dir : option string) (out : run) :
  plot_trader_bubblemap fs df output_html base_dir = Ok out ->
  net_edges (shown out) = List.map make_edge (edges (build_graph (dropna df)))
  /\ length (net_edges (shown out)) <= printed_edges out
  /\ length (net_nodes (shown out)) = printed_nodes out.
Proof.
  intros H. pose proof (net_nodes_plot _ _ _ _ _ H) as (tv' & _ & Hnodes).
  apply plot_inv in H as (tv & Htv & Hshown & _ & _ & _ & Hpn & Hpe).
  assert (Hedges : net_edges (shown out)
                   = List.map make_edge (edges (build_graph (dropna df)))).
  { rewrite Hshown. unfold network_of.
    rewrite (fold_left_mapped (fun net n => net_add_node n net)
               (rendered_node tv (build_graph (dropna df)))).
    apply (net_add_edges_apart _ []).
    - match goal with
      | |- net_edges (fold_left _ ?new _) = _ =>
          destruct (net_add_nodes_fresh new empty_network) as [_ He]
      end.
      + rewrite !List.map_map. simpl. rewrite List.map_id.
        apply build_graph_distinct_keys.
      + intros n m _ [].
      + exact He.
    - intros a b. apply edges_at_most_one. }
  split; [exact Hedges | split].
  - rewrite Hedges, length_map, Hpe. apply edges_count.
  - rewrite Hnodes, length_map, Hpn, nodes_build_graph. reflexivity.
Qed.

Lemma rendered_edges_are_graph_edges_witness :
  length (net_edges (shown (Samples.run_or_empty Samples.chain_frame
                              default_output_html None))) <= 2.
Proof.
  destruct (rendered_edges_are_graph_edges Samples.open_disk Samples.chain_frame
              default_output_html None
              (Samples.run_or_empty Samples.chain_frame default_output_html None))
    as (_ & Hle & _).
  - vm_compute. reflexivity.
  - exact Hle.
Defined.

End GraphMore.

(** ** More on the volumes *)

Module VolumeMore.
Import PyText PyFloat Graph Bubblemap Notions ListFacts GraphFacts BuildFacts AggregateFacts
  EdgeFacts CallFacts GraphMore.
Local Open Scope Q_scope.





Lemma sum_usd_all (df : list retained) :
  sum_usd (fun _ => true) df == Qsum (List.map usd_value df).
Proof.
  unfold sum_usd. induction df as [| r df IH]; simpl; [reflexivity |].
  now rewrite IH.
Qed.


(** The volume of any address, present or not, is the sum over its rows in
    both roles. *)
Lemma volume_of_sums (df : list retained) (tv : gmap string Q) (A : string) :
  total_volume df = Ok tv ->
  volume_of tv A == sum_usd (as_address A) df + sum_usd (as_target A) df.
Proof.
  intros H. apply total_volume_inv in H as (vf & vt & Hf & Ht & ->).
  pose proof (groupby_sum_value r_address df A _ _ Hf) as Vf.
  pose proof (groupby_sum_value r_target_address df A _ _ Ht) as Vt.
  rewrite lookup_empty in Vf, Vt. simpl in Vf, Vt.
  unfold volume_of. rewrite series_add_lookup.
  unfold as_address, as_target.
  destruct (vf !! A), (vt !! A); simpl in *; lra.
Qed.





Lemma dropna_app (df1 df2 : list row) : dropna (df1 ++ df2) = dropna df1 ++ dropna df2.
Proof. unfold dropna. apply omap_app. Qed.



Lemma fold_overwrite_app (a b : string) (d : list retained) :
  forall acc, fold_left (overwrite a b) d acc
              = match last_weight a b d with
                | Some w => Some w
                | None => acc
                end.
Proof.
  unfold last_weight. induction d as [| r d IH]; simpl; intros acc; [reflexivity |].
  rewrite IH, (IH (overwrite a b None r)). unfold overwrite.
  destruct (fold_left _ d None); [reflexivity |]. destruct (joins a b r); reflexivity.
Qed.

(** X7. Frames compose for the edges too: in the graph of two frames put one
    after the other, the weight between two addresses is the one the second
    frame gives them, and the one of the first frame when no row of the second
    joins them. *)
Theorem later_frame_overrides (df1 df2 : list row) (a b : string) :
  adj_get (build_graph (dropna (df1 ++ df2))) a b
  = match adj_get (build_graph (dropna df2)) a b with
    | Some w => Some w
    | None => adj_get (build_graph (dropna df1)) a b
    end.
Proof.
  rewrite !adj_get_build_graph, dropna_app. unfold last_weight at 1.
  rewrite fold_left_app. apply fold_overwrite_app.
Qed.

Lemma joins_swap_ends (a b : string) (r : retained) :
  joins a b (swap_ends r) = joins a b r.
Proof. unfold joins. simpl. apply same_ends_sym. Qed.

Lemma dropna_cons (r : row) (df : list row) :
  dropna (r :: df) = match retain r with
                     | Some y => y :: dropna df
                     | None => dropna df
                     end.
Proof. reflexivity. Qed.

Lemma dropna_swap (df : list row) :
  dropna (List.map swap_row df) = List.map swap_ends (dropna df).
Proof.
  induction df as [| r df IH]; [reflexivity |].
  change (List.map swap_row (r :: df)) with (swap_row r :: List.map swap_row df).
  rewrite !dropna_cons, IH. unfold retain, swap_row. simpl.
  destruct (address r), (target_address r); reflexivity.
Qed.

Lemma sum_usd_swap (key1 key2 : retained -> string) (A : string) (d : list retained) :
  (forall r, key1 (swap_ends r) = key2 r) ->
  sum_usd (keyed key1 A) (List.map swap_ends d) = sum_usd (keyed key2 A) d.
Proof.
  intros Hk. induction d as [| r d IH]; [reflexivity |].
  change (List.map swap_ends (r :: d)) with (swap_ends r :: List.map swap_ends d).
  rewrite !sum_usd_cons, IH. unfold keyed. rewrite Hk. reflexivity.
Qed.

Lemma last_weight_swap (a b : string) (d : list retained) :
  last_weight a b (List.map swap_ends d) = last_weight a b d.
Proof.
  unfold last_weight. generalize (@None pyfloat).
  induction d as [| r d IH]; simpl; intros acc; [reflexivity |].
  rewrite IH. f_equal. unfold overwrite. now rewrite joins_swap_ends.
Qed.

Lemma numeric_swap (d : list retained) : numeric (List.map swap_ends d) = numeric d.
Proof. unfold numeric. induction d as [| r d IH]; simpl; [reflexivity | now rewrite IH]. Qed.

(** X8. The direction of the rows does not matter: exchanging [address] and
    [target_address] in every row changes neither the volume of any address
    nor the weight between any two addresses. *)
Theorem direction_does_not_matter (df : list row) (tv : gmap string Q) :
  total_volume (dropna df) = Ok tv ->
  exists tv',
    total_volume (dropna (List.map swap_row df)) = Ok tv'
    /\ (forall A, volume_of tv' A == volume_of tv A)
    /\ (forall a b, adj_get (build_graph (dropna (List.map swap_row df))) a b
                    = adj_get (build_graph (dropna df)) a b).
Proof.
  intros H.
  destruct (total_volume_numeric (dropna (List.map swap_row df))) as [tv' Htv'].
  { rewrite dropna_swap, numeric_swap. eapply total_volume_ok_numeric, H. }
  exists tv'. split; [exact Htv' | split].
  - intros A. rewrite (volume_of_sums _ _ A Htv'), (volume_of_sums _ _ A H), dropna_swap.
    unfold as_address, as_target.
    rewrite (sum_usd_swap r_address r_target_address) by reflexivity.
    rewrite (sum_usd_swap r_target_address r_address) by reflexivity. ring.
  - intros a b. rewrite !adj_get_build_graph, dropna_swap. apply last_weight_swap.
Qed.

Lemma direction_does_not_matter_witness :
  exists tv',
    total_volume (dropna (List.map swap_row Samples.chain_frame)) = Ok tv'
    /\ volume_of tv' "0xA" == 100.
Proof.
  destruct (direction_does_not_matter Samples.chain_frame
              (Samples.volume_or_empty Samples.chain_frame)) as (tv' & Htv' & Hvol & _).
  - vm_compute. reflexivity.
  - exists tv'. split; [exact Htv' |]. rewrite Hvol. vm_compute. reflexivity.
Defined.

End VolumeMore.

(** ** More on sizes and colours *)

Module EncoderMore.
Import PyText Binary64 PyFloat Graph Bubblemap Notions ListFacts GraphFacts BuildFacts
  AggregateFacts Binary64Facts EncoderFacts EdgeFacts CallFacts PlotFacts.
Local Open Scope Q_scope.







End EncoderMore.

(** ** Labels, paths, weights read from text, and the queries of the app *)

Module TextMore.
Import PyText PyFloat Graph Queries SolanaQuery App Bubblemap Notions ListFacts
  AggregateFacts EdgeFacts CallFacts PlotFacts.

(** *** Lengths of slices *)

Lemma length_append (s t : string) :
  String.length (s ++ t) = String.length s + String.length t.
Proof.
  induction s as [| c s IH]; [reflexivity |].
  change (S (String.length (s ++ t)) = S (String.length s + String.length t)).
  now rewrite IH.
Qed.

Lemma append_assoc (s t u : string) : ((s ++ t) ++ u = s ++ (t ++ u))%string.
Proof.
  induction s as [| c s IH]; [reflexivity |].
  change (String c ((s ++ t) ++ u) = String c (s ++ (t ++ u)))%string. now rewrite IH.
Qed.

Lemma length_prefix (n : nat) (s : string) :
  String.length (prefix n s) = Nat.min n (String.length s).
Proof.
  revert n. induction s as [| c s IH]; intros [| n]; simpl; try reflexivity.
  now rewrite IH.
Qed.

Lemma length_substring (s : string) :
  forall n m, String.length (substring n m s) = Nat.min m (String.length s - n).
Proof.
  induction s as [| c s IH]; intros [| n] [| m]; simpl; try reflexivity.
  - now rewrite IH, Nat.sub_0_r.
  - apply IH.
  - apply IH.
Qed.

Lemma length_suffix (n : nat) (s : string) :
  String.length (suffix n s) = Nat.min n (String.length s).
Proof. unfold suffix. rewrite length_substring. lia. Qed.

Lemma prefix_short (n : nat) (s : string) : String.length s <= n -> prefix n s = s.
Proof.
  revert n. induction s as [| c s IH]; intros [| n]; simpl; intros H;
    try reflexivity; try lia.
  rewrite IH by lia. reflexivity.
Qed.

Lemma substring_whole (s : string) :
  forall m, String.length s <= m -> substring 0 m s = s.
Proof.
  induction s as [| c s IH]; intros [| m]; simpl; intros H; try reflexivity; try lia.
  rewrite IH by lia. reflexivity.
Qed.

Lemma suffix_short (n : nat) (s : string) : String.length s <= n -> suffix n s = s.
Proof.
  intros H. unfold suffix. replace (String.length s - n) with 0 by lia.
  now apply substring_whole.
Qed.

(** X10. The label of a node is never longer than 13 characters; it has
    exactly 13 for an address of six characters or more, and an address of at
    most four characters stands whole on both sides of the dots. *)
Theorem short_label_length (node : string) :
  String.length (short_label node)
  = Nat.min 6 (String.length node) + 3 + Nat.min 4 (String.length node)
  /\ String.length (short_label node) <= 13
  /\ (6 <= String.length node -> String.length (short_label node) = 13)
  /\ (String.length node <= 4 -> short_label node = (node ++ "..." ++ node)%string).
Proof.
  assert (Hlen : String.length (short_label node)
                 = Nat.min 6 (String.length node) + 3 + Nat.min 4 (String.length node)).
  { unfold short_label. rewrite !length_append, length_prefix, length_suffix. simpl. lia. }
  split; [exact Hlen | split; [lia | split; [lia |]]].
  intros H. unfold short_label. rewrite prefix_short, suffix_short by lia. reflexivity.
Qed.

Lemma short_label_length_witness :
  String.length (short_label "0x1234567890abcdef") = 13.
Proof.
  destruct (short_label_length "0x1234567890abcdef") as (_ & _ & H & _).
  apply H. simpl. lia.
Defined.

(** *** The output path *)

Lemma path_join_ends (a b : string) : exists pre, path_join a b = (pre ++ b)%string.
Proof.
  unfold path_join. destruct (String.prefix "/" b); [exists ""%string; reflexivity |].
  destruct (String.eqb a "" || String.eqb (suffix 1 a) "/").
  - exists a. reflexivity.
  - exists (a ++ "/")%string. now rewrite append_assoc.
Qed.

Lemma path_join_absolute (a b : string) :
  String.prefix "/" b = true -> path_join a b = b.
Proof. intros H. unfold path_join. now rewrite H. Qed.

(** X11. The path a completed call returns always ends with the file name it
    was given; a file name that starts with [/] is returned as it is, whatever
    [base_dir], which is created all the same when it is not empty. *)
Theorem returned_path_keeps_file_name (fs : file_system) (df : list row)
    (output_html : string) (base_dir : option string) (out : run) :
  plot_trader_bubblemap fs df output_html base_dir = Ok out ->
  (exists pre, returned out = (pre ++ output_html)%string)
  /\ (String.prefix "/" output_html = true ->
      returned out = output_html
      /\ forall d, base_dir = Some d -> d <> ""%string -> made_dirs out = [d]).
Proof.
  intros H. apply plot_inv in H as (tv & _ & _ & Hd & _ & Hr & _).
  rewrite output_target_path in Hr. rewrite output_target_dirs in Hd. split.
  - rewrite Hr. destruct base_dir as [d |]; simpl.
    + apply path_join_ends.
    + exists ""%string. reflexivity.
  - intros Habs. split.
    + rewrite Hr. destruct base_dir as [d |]; simpl; [now apply path_join_absolute | reflexivity].
    + intros d -> Hne. apply String.eqb_neq in Hne. now rewrite Hne in Hd.
Qed.

Lemma returned_path_keeps_file_name_witness :
  returned (Samples.run_or_empty Samples.chain_frame "/tmp/map.html" (Some "out"))
  = "/tmp/map.html"%string.
Proof.
  destruct (returned_path_keeps_file_name Samples.open_disk Samples.chain_frame
              "/tmp/map.html" (Some "out")
              (Samples.run_or_empty Samples.chain_frame "/tmp/map.html" (Some "out")))
    as (_ & Habs).
  - vm_compute. reflexivity.
  - destruct Habs as [Hret _]; [reflexivity | exact Hret].
Defined.

(** *** Commas in a traded value *)

Lemma remove_commas_append (s t : string) :
  remove_commas (s ++ t) = (remove_commas s ++ remove_commas t)%string.
Proof.
  induction s as [| c s IH]; simpl; [reflexivity |].
  destruct (Ascii.eqb c ","); simpl; now rewrite IH.
Qed.

Lemma remove_commas_idempotent (s : string) :
  remove_commas (remove_commas s) = remove_commas s.
Proof.
  induction s as [| c s IH]; simpl; [reflexivity |].
  destruct (Ascii.eqb c ",") eqn:E; simpl; [exact IH |]. now rewrite E, IH.
Qed.

(** X12. A comma counts for nothing wherever it stands in the text of a traded
    value: the weight read from a text is the weight read from the text
    without the comma, and from the text without any of its commas. *)
Theorem commas_are_ignored (s t : string) :
  edge_weight (CStr (s ++ "," ++ t)) = edge_weight (CStr (s ++ t))
  /\ edge_weight (CStr (remove_commas s)) = edge_weight (CStr s).
Proof.
  unfold edge_weight, float_of_cell. split.
  - now rewrite !remove_commas_append.
  - now rewrite remove_commas_idempotent.
Qed.

(** *** The chain argument *)

Lemma lower_char_idempotent (c : ascii) : lower_char (lower_char c) = lower_char c.
Proof. destruct c as [[] [] [] [] [] [] [] []]; reflexivity. Qed.

Lemma lower_idempotent (s : string) : lower (lower s) = lower s.
Proof.
  induction s as [| c s IH]; simpl; [reflexivity |].
  now rewrite lower_char_idempotent, IH.
Qed.

(** X13. The EVM query builder does not look at the letter case of the chain:
    two chains that differ by case only give the same result, be it the query
    or the error, and the query names the tables of the chain in small
    letters. *)
Theorem chain_case_is_ignored
    (chain chain' contract_address start_date end_date
     min_usd_amount max_usd_amount min_active_days limit : string) :
  lower chain = lower chain' ->
  get_evm_traders_and_connections chain contract_address start_date end_date
    min_usd_amount max_usd_amount min_active_days limit
  = get_evm_traders_and_connections chain' contract_address start_date end_date
      min_usd_amount max_usd_amount min_active_days limit
  /\ get_evm_traders_and_connections (lower chain) contract_address start_date end_date
       min_usd_amount max_usd_amount min_active_days limit
     = get_evm_traders_and_connections chain contract_address start_date end_date
         min_usd_amount max_usd_amount min_active_days limit
  /\ forall q,
       get_evm_traders_and_connections chain contract_address start_date end_date
         min_usd_amount max_usd_amount min_active_days limit = Ok q ->
       q = evm_query (lower chain) contract_address start_date end_date
             min_usd_amount max_usd_amount min_active_days limit.
Proof.
  intros H. unfold get_evm_traders_and_connections. rewrite lower_idempotent, H.
  split; [reflexivity | split; [reflexivity |]].
  intros q. destruct (existsb _ valid_chains); simpl; intros Hq; now inversion Hq.
Qed.

Lemma chain_case_is_ignored_witness :
  get_evm_traders_and_connections "BSC" "0xabc" "2024-01-01" "2024-02-01" "1" "100" "3" "200"
  = get_evm_traders_and_connections "bsc" "0xabc" "2024-01-01" "2024-02-01" "1" "100" "3"
      "200".
Proof.
  apply (chain_case_is_ignored "BSC" "bsc" "0xabc" "2024-01-01" "2024-02-01" "1" "100" "3"
           "200").
  reflexivity.
Defined.

(** *** The app *)

(** X14. Every chain the select box offers gets its query: Solana the Solana
    query, each other choice the EVM query of its name in small letters; the
    [ValueError] of the EVM builder cannot arise from the app. *)
Theorem every_offered_chain_has_a_query
    (chain contract_address start_date end_date min_usd max_usd min_days limit : string) :
  In chain chain_options ->
  (chain = "Solana"%string ->
   build_query chain contract_address start_date end_date min_usd max_usd min_days limit
   = Ok (sol_query contract_address start_date end_date min_usd max_usd min_days limit))
  /\ (chain <> "Solana"%string ->
      In (lower chain) valid_chains
      /\ build_query chain contract_address start_date end_date min_usd max_usd min_days limit
         = Ok (evm_query (lower chain) contract_address start_date end_date
                 min_usd max_usd min_days limit))
  /\ exists q,
       build_query chain contract_address start_date end_date min_usd max_usd min_days limit
       = Ok q.
Proof.
  intros Hin. unfold chain_options in Hin. simpl in Hin.
  assert (Hcases : (build_query chain contract_address start_date end_date
                      min_usd max_usd min_days limit
                    = if String.eqb chain "Solana"
                      then Ok (sol_query contract_address start_date end_date
                                 min_usd max_usd min_days limit)
                      else Ok (evm_query (lower chain) contract_address start_date end_date
                                 min_usd max_usd min_days limit))
                   /\ (chain <> "Solana"%string -> In (lower chain) valid_chains)).
  { repeat (destruct Hin as [<- | Hin];
            [split; [reflexivity | intros Hne; vm_compute; tauto] |]).
    destruct Hin. }
  destruct Hcases as [Hq Hvalid]. split; [| split].
  - intros ->. exact Hq.
  - intros Hne. split; [now apply Hvalid |].
    apply String.eqb_neq in Hne. now rewrite Hne in Hq.
  - rewrite Hq. destruct (String.eqb chain "Solana"); eauto.
Qed.

Lemma every_offered_chain_has_a_query_witness :
  exists q, build_query "Avalanche" "0xabc" "2024-01-01" "2024-02-01" "1.0" "100.0" "3" "200"
            = Ok q.
Proof.
  apply (every_offered_chain_has_a_query "Avalanche" "0xabc" "2024-01-01" "2024-02-01"
           "1.0" "100.0" "3" "200").
  vm_compute. tauto.
Defined.

Lemma date_lt_spec (a b : date) :
  date_lt a b = true
  <-> (year a < year b
       \/ (year a = year b /\ (month a < month b \/ (month a = month b /\ day a < day b))))%Z.
Proof.
  unfold date_lt.
  rewrite !orb_true_iff, !andb_true_iff, !orb_true_iff, !andb_true_iff,
    !Z.ltb_lt, !Z.eqb_eq. tauto.
Qed.

Lemma date_lt_irrefl (a : date) : date_lt a a = false.
Proof.
  destruct (date_lt a a) eqn:E; [| reflexivity]. apply date_lt_spec in E. lia.
Qed.

Lemma date_lt_trans (a b c : date) :
  date_lt a b = true -> date_lt b c = true -> date_lt a c = true.
Proof. rewrite !date_lt_spec. lia. Qed.

(** [b] is not after [c]: [c] is not before [b]. *)
Lemma date_lt_le_trans (a b c : date) :
  date_lt a b = true -> date_lt c b = false -> date_lt a c = true.
Proof.
  intros Hab Hcb.
  assert (Hn : ~ date_lt c b = true) by congruence.
  rewrite date_lt_spec in *. lia.
Qed.

(** X15. The analysis goes on exactly when the contract address is not empty,
    the start date is before the end date, the end date is not after today
    and the minimum does not exceed the maximum; it then starts before today.
    A range of one day, start and end equal, is refused, and an empty contract
    address is reported before anything else. *)
Theorem analysis_accepted_iff (contract_address : string) (start_date end_date today : date)
    (min_usd max_usd : Q) :
  (validation_error contract_address start_date end_date today min_usd max_usd = None
   <-> contract_address <> ""%string
       /\ date_lt start_date end_date = true
       /\ date_lt today end_date = false
       /\ (min_usd <= max_usd)%Q)
  /\ (validation_error contract_address start_date end_date today min_usd max_usd = None ->
      date_lt start_date today = true)
  /\ (contract_address <> ""%string ->
      validation_error contract_address start_date start_date today min_usd max_usd
      = Some date_order_message)
  /\ (contract_address = ""%string ->
      validation_error contract_address start_date end_date today min_usd max_usd
      = Some no_contract_message).
Proof.
  assert (Hiff : validation_error contract_address start_date end_date today min_usd max_usd
                 = None
                 <-> contract_address <> ""%string
                     /\ date_lt start_date end_date = true
                     /\ date_lt today end_date = false
                     /\ (min_usd <= max_usd)%Q).
  { unfold validation_error.
    destruct (String.eqb contract_address "") eqn:Ec.
    - apply String.eqb_eq in Ec.
      split; [intros H; discriminate H | intros [H _]; contradiction].
    - apply String.eqb_neq in Ec.
      destruct (date_lt start_date end_date) eqn:Es; simpl.
      + destruct (date_lt today end_date) eqn:Et.
        * split; [intros H; discriminate H | intros (_ & _ & H & _); discriminate H].
        * destruct (Qlt_bool max_usd min_usd) eqn:Eq.
          -- apply EncoderFacts.Qlt_bool_true in Eq.
             split; [intros H; discriminate H |].
             intros (_ & _ & _ & H). exfalso. now apply (Qlt_not_le max_usd min_usd).
          -- apply EncoderFacts.Qlt_bool_false in Eq. tauto.
      + split; [intros H; discriminate H | intros (_ & H & _); discriminate H]. }
  split; [exact Hiff | split; [| split]].
  - intros H. apply Hiff in H as (_ & Hs & Ht & _). eapply date_lt_le_trans; eauto.
  - intros Hc. unfold validation_error. apply String.eqb_neq in Hc.
    now rewrite Hc, date_lt_irrefl.
  - intros ->. reflexivity.
Qed.

Lemma analysis_accepted_iff_witness :
  date_lt {| year := 2024; month := 1; day := 5 |} {| year := 2024; month := 3; day := 1 |}
  = true.
Proof.
  destruct (analysis_accepted_iff "0xabc"
              {| year := 2024; month := 1; day := 5 |}
              {| year := 2024; month := 2; day := 1 |}
              {| year := 2024; month := 3; day := 1 |} 1%Q 100%Q) as (_ & H & _).
  apply H. reflexivity.
Defined.

Lemma edges_df_cons (r : row) (df : list row) :
  edges_df (r :: df) = if String.eqb (type r) "edge" then r :: edges_df df else edges_df df.
Proof. reflexivity. Qed.

Lemma dropna_edges_df (df : list row) :
  query_shaped df -> dropna (edges_df df) = dropna df.
Proof.
  induction df as [| r df IH]; intros Hs; [reflexivity |].
  assert (Hdf : query_shaped df) by (intros x Hx; apply Hs; now right).
  destruct (Hs r) as [Ha Ht]; [now left |].
  rewrite edges_df_cons. destruct (String.eqb (type r) "edge") eqn:E.
  - rewrite !VolumeMore.dropna_cons, IH by exact Hdf. reflexivity.
  - apply String.eqb_neq in E. rewrite VolumeMore.dropna_cons, IH by exact Hdf.
    unfold retain. destruct (target_address r) eqn:Etg.
    + exfalso. apply E, Ht. discriminate.
    + destruct (address r); reflexivity.
Qed.

Lemma retain_edges_df (df : list row) :
  query_shaped df -> length (dropna (edges_df df)) = length (edges_df df).
Proof.
  induction df as [| r df IH]; intros Hs; [reflexivity |].
  assert (Hdf : query_shaped df) by (intros x Hx; apply Hs; now right).
  destruct (Hs r) as [Ha Ht]; [now left |].
  rewrite edges_df_cons. destruct (String.eqb (type r) "edge") eqn:E; [| now apply IH].
  apply String.eqb_eq in E. apply Ht in E. rewrite VolumeMore.dropna_cons. unfold retain.
  destruct (address r); [| congruence]. destruct (target_address r); [| congruence].
  simpl. now rewrite IH.
Qed.

(** X16. On a frame shaped as the queries return it, the graph is drawn from
    the rows of the table of connections and from nothing else: the retained
    rows are the edge rows, as many as the table has, and the call on the
    whole frame does what a call on the edge rows alone does, so the traded
    value of a node row never reaches a volume, a size or a colour. *)
Theorem node_rows_do_not_count (fs : file_system) (df : list row) (output_html : string)
    (base_dir : option string) :
  query_shaped df ->
  dropna df = dropna (edges_df df)
  /\ length (dropna df) = length (edges_df df)
  /\ plot_trader_bubblemap fs df output_html base_dir
     = plot_trader_bubblemap fs (edges_df df) output_html base_dir.
Proof.
  intros Hs. pose proof (dropna_edges_df df Hs) as Hd.
  split; [now rewrite Hd | split].
  - rewrite <- Hd. now apply retain_edges_df.
  - unfold plot_trader_bubblemap. now rewrite Hd.
Qed.

Lemma node_rows_do_not_count_witness :
  length (dropna Samples.chain_frame) = 2.
Proof.
  destruct (node_rows_do_not_count Samples.open_disk Samples.chain_frame
              default_output_html None)
    as (_ & Hlen & _).
  - intros r Hr. simpl in Hr.
    repeat (destruct Hr as [<- | Hr];
            [split; [discriminate |];
             split; intros H;
             first [reflexivity | discriminate | discriminate H
                   | (exfalso; apply H; reflexivity)] |]).
    destruct Hr.
  - rewrite Hlen. reflexivity.
Defined.

End TextMore.

(** ** Row order *)

Module InvarianceMore.
Import PyText PyFloat Graph Bubblemap Notions ListFacts GraphFacts BuildFacts AggregateFacts
  EncoderFacts EdgeFacts CallFacts PlotFacts GraphMore VolumeMore.
Local Open Scope Q_scope.






End InvarianceMore.
(** ** The check of the file name and the divisor of the size scale *)

Module ErrorsMore.
Import PyText Binary64 PyFloat Graph Bubblemap Notions ListFacts GraphFacts BuildFacts
  AggregateFacts Binary64Facts EncoderFacts EdgeFacts CallFacts PlotFacts.

Lemma split_on_cons (c a : ascii) (s : string) :
  split_on c (String a s)
  = if Ascii.eqb a c then EmptyString :: split_on c s
    else match split_on c s with
         | p :: ps => String a p :: ps
         | [] => [String a EmptyString]
         end.
Proof. reflexivity. Qed.

Lemma split_on_not_nil (c : ascii) (s : string) : split_on c s <> [].
Proof.
  destruct s as [| a s]; [discriminate |]. rewrite split_on_cons.
  destruct (Ascii.eqb a c); [discriminate |]. destruct (split_on c s); discriminate.
Qed.

(** A text with no separator is its only part. *)
Lemma split_on_single (c : ascii) (s p : string) : split_on c s = [p] -> s = p.
Proof.
  revert p. induction s as [| a s IH]; intros p H.
  - now inversion H.
  - rewrite split_on_cons in H. destruct (Ascii.eqb a c).
    + inversion H as [[Hp Hs]]. now apply split_on_not_nil in Hs.
    + destruct (split_on c s) as [| q qs] eqn:E; [now apply split_on_not_nil in E |].
      inversion H; subst. now rewrite (IH q eq_refl).
Qed.

Lemma last_cons_cons {A : Type} (x y : A) (l : list A) (d : A) :
  List.last (x :: y :: l) d = List.last (y :: l) d.
Proof. reflexivity. Qed.

(** The two assertions hold exactly of the texts that end with [.html]. *)
Lemma html_parts (s : string) :
  (2 <= length (split_on "." s) /\ List.last (split_on "." s) ""%string = "html"%string)
  <-> exists stem, s = (stem ++ ".html")%string.
Proof.
  split.
  - induction s as [| a s IH]; intros [Hlen Hlast]; [simpl in Hlen; lia |].
    rewrite split_on_cons in Hlen, Hlast.
    destruct (split_on "." s) as [| p ps] eqn:E; [now apply split_on_not_nil in E |].
    destruct (Ascii.eqb a ".") eqn:Ea.
    + apply Ascii.eqb_eq in Ea. subst a. rewrite last_cons_cons in Hlast.
      destruct ps as [| p' ps].
      * simpl in Hlast. subst p. apply split_on_single in E. subst s.
        exists ""%string. reflexivity.
      * destruct IH as [stem ->]; [split; [simpl; lia | exact Hlast] |].
        exists (String "." stem). reflexivity.
    + destruct ps as [| p' ps]; [simpl in Hlen; lia |].
      rewrite last_cons_cons in Hlast.
      destruct IH as [stem ->]; [split; [simpl; lia | exact Hlast] |].
      exists (String a stem). reflexivity.
  - intros [stem ->]. induction stem as [| a stem IH].
    + split; [simpl; lia | reflexivity].
    + destruct IH as [Hlen Hlast].
      change (String a stem ++ ".html")%string with (String a (stem ++ ".html")).
      rewrite split_on_cons.
      destruct (split_on "." (stem ++ ".html")) as [| p [| p' ps]];
        try (simpl in Hlen; lia).
      destruct (Ascii.eqb a "."); split; simpl in *; try lia; exact Hlast.
Qed.

Lemma html_name_suffix (name : string) :
  html_name name = true <-> exists stem, name = (stem ++ ".html")%string.
Proof.
  rewrite <- html_parts. unfold html_name, check_html.
  destruct (2 <=? length (split_on "." name))%nat eqn:L; simpl.
  - apply Nat.leb_le in L.
    destruct (String.eqb (List.last (split_on "." name) "") "html") eqn:E; simpl.
    + apply String.eqb_eq in E. split; auto.
    + apply String.eqb_neq in E. split; [discriminate | intros [_ H]; contradiction].
  - apply Nat.leb_gt in L. split; [discriminate | intros [H _]; lia].
Qed.

Lemma check_html_refuses (name : string) :
  html_name name = false -> exists msg, check_html name = Raise (AssertionError msg).
Proof.
  unfold html_name, check_html.
  destruct (2 <=? length (split_on "." name))%nat; simpl; [| eauto].
  destruct (String.eqb (List.last (split_on "." name) "") "html"); simpl;
    [discriminate | eauto].
Qed.

Lemma makedirs_all (fs : file_system) (dirs : list string) :
  (forall d, In d dirs -> makedirs_error fs d = None) ->
  traverse (makedirs fs) dirs = Ok (List.map (fun _ => tt) dirs).
Proof.
  intros H. apply traverse_ok. intros d Hd. unfold makedirs. now rewrite (H d Hd).
Qed.

(** X19. The network only writes to a file whose name ends with [.html]: the
    check of the name accepts exactly such names, and a call whose resolved
    path is not one raises [AssertionError] when its column is numeric and
    its directory could be made, after the directory was made and before
    any file is opened. *)
Theorem html_name_is_required (fs : file_system) (df : list row) (output_html : string)
    (base_dir : option string) :
  (forall name, html_name name = true <-> exists stem, name = (stem ++ ".html")%string)
  /\ (numeric (dropna df) = true ->
      (forall d, base_dir = Some d -> d <> ""%string -> makedirs_error fs d = None) ->
      html_name (resolved_path output_html base_dir) = false ->
      exists msg,
        plot_trader_bubblemap fs df output_html base_dir = Raise (AssertionError msg)).
Proof.
  split; [exact html_name_suffix |].
  intros Hn Hd Hh. rewrite plot_steps.
  destruct (total_volume_numeric _ Hn) as [tv ->]. simpl.
  rewrite makedirs_all.
  - simpl. rewrite output_target_path.
    destruct (check_html_refuses _ Hh) as [msg ->]. simpl. eauto.
  - intros d Hin. rewrite output_target_dirs in Hin.
    destruct base_dir as [d' |]; [| destruct Hin].
    destruct (String.eqb d' "") eqn:E; [destruct Hin |].
    destruct Hin as [<- | []]. apply Hd; [reflexivity |].
    now apply String.eqb_neq.
Qed.

Lemma html_name_is_required_witness :
  exists msg,
    plot_trader_bubblemap Samples.open_disk Samples.chain_frame "map.txt" (Some "out")
    = Raise (AssertionError msg).
Proof.
  destruct (html_name_is_required Samples.open_disk Samples.chain_frame "map.txt"
              (Some "out")) as [_ H].
  apply H.
  - vm_compute. reflexivity.
  - intros d _ _. reflexivity.
  - vm_compute. reflexivity.
Defined.

(** X20. The size scale never divides by zero: whatever the volumes, the
    range is 1, a positive binary64 number or plus infinity, because two
    volumes that differ as binary64 numbers have a difference that does not
    round to zero. The encoder therefore always returns, with one size and
    one colour for each node, and the network is always built. *)
Theorem size_scale_never_divides_by_zero (tv : gmap string Q) (G : graph) :
  (forall min_volume max_volume,
     (min_volume <= max_volume)%Q ->
     is_zero (volume_range_of min_volume max_volume) = false
     /\ float_lt (PFin 0) (volume_range_of min_volume max_volume) = true)
  /\ (exists sizes colors,
        encode tv G = Ok (sizes, colors)
        /\ length sizes = length (nodes G)
        /\ length colors = length (nodes G))
  /\ exists net, build_network tv G = Ok net.
Proof.
  split; [| split].
  - intros min_volume max_volume H. rewrite volume_range_of_between.
    split; [now apply range_not_zero |].
    destruct (range_positive _ _ H) as [[q [-> Hq]] | ->]; simpl; [| reflexivity].
    destruct (Qle_bool q 0) eqn:E; [| reflexivity].
    apply Qle_bool_iff in E. exfalso. apply (Qlt_not_le _ _ Hq E).
  - rewrite encode_nodes. eexists; eexists. split; [reflexivity |].
    now rewrite !length_map.
  - rewrite build_network_ok. eauto.
Qed.

Lemma size_scale_never_divides_by_zero_witness :
  is_zero (volume_range_of 100 400) = false
  /\ float_lt (PFin 0) (volume_range_of 100 400) = true.
Proof.
  destruct (size_scale_never_divides_by_zero ∅ []) as [H _].
  apply H. discriminate.
Defined.

End ErrorsMore.
